(** * Hindi text normalisation: measure tagger and punctuation post-processor

    A shallow embedding of
      [nemo_text_processing/text_normalization/hi/taggers/measure.py] and
      [nemo_text_processing/text_normalization/hi/verbalizers/post_processing.py].

    Both files build weighted finite-state transducers with pynini.  A
    transducer is embedded by what it does to an input string: reading a
    prefix of the input it yields every (output, weight, remaining input)
    triple of a path that reads that prefix.  Strings are sequences of
    Unicode code points; weights are the tropical semiring's reals, kept
    exactly as integers counting ten-thousandths (0.1 is 1000, 1.05 is
    10500, -0.0001 is -1). *)

From Stdlib Require Import List ZArith NArith Lia Bool String Ascii Arith.
Import ListNotations.

Set Implicit Arguments.

(** ** Strings *)

Definition char := N.
Definition str := list char.
Definition weight := Z.

Definition str_eqb (a b : str) : bool :=
  if list_eq_dec N.eq_dec a b then true else false.

(** UTF-8 decoding of a literal, so that the Devanagari constants of the
    source can be written as they are there. *)
Fixpoint utf8_cont (k : nat) (acc : N) (bs : list N) : N * list N :=
  match k with
  | O => (acc, bs)
  | S k' =>
      match bs with
      | [] => (acc, [])
      | b :: bs' => utf8_cont k' (acc * 64 + N.land b 63) bs'
      end
  end.

Fixpoint utf8_decode (fuel : nat) (bs : list N) : str :=
  match fuel with
  | O => []
  | S fuel' =>
      match bs with
      | [] => []
      | b :: bs' =>
          let '(k, lead) :=
            if b <? 128 then (0%nat, b)
            else if b <? 224 then (1%nat, N.land b 31)
            else if b <? 240 then (2%nat, N.land b 15)
            else (3%nat, N.land b 7) in
          let '(c, rest) := utf8_cont k lead bs' in
          c :: utf8_decode fuel' rest
      end
  end%N.

Definition u (s : string) : str :=
  let bs := List.map N_of_ascii (list_ascii_of_string s) in
  utf8_decode (List.length bs) bs.

(** [consumed i r] is the prefix of [i] read by a path that leaves [r]. *)
Definition consumed (i r : str) : str :=
  firstn (List.length i - List.length r) i.

Fixpoint is_prefix (p i : str) : option str :=
  match p with
  | [] => Some i
  | c :: p' =>
      match i with
      | [] => None
      | d :: i' => if N.eqb c d then is_prefix p' i' else None
      end
  end.

Fixpoint contains (needle hay : str) : bool :=
  match is_prefix needle hay with
  | Some _ => true
  | None =>
      match hay with
      | [] => false
      | _ :: hay' => contains needle hay'
      end
  end.

(** ** The pynini combinators *)

Module Pynini.

Definition arc := (str * weight * str)%type.
Definition wfst := str -> list arc.

Definition a_out (a : arc) : str := fst (fst a).
Definition a_w (a : arc) : weight := snd (fst a).
Definition a_rest (a : arc) : str := snd a.

(** [path t i o w r]: [t] has a path that reads [i] down to [r], writes
    [o] and weighs [w]. *)
Definition path (t : wfst) (i o : str) (w : weight) (r : str) : Prop :=
  In (o, w, r) (t i).

(** [reads t R]: every path of [t] reads a prefix of its input, and the
    prefix satisfies [R]. *)
Definition reads (t : wfst) (R : str -> Prop) : Prop :=
  forall i o w r, path t i o w r -> exists p, i = p ++ r /\ R p.

(** Every path leaves a suffix of the input. *)
Definition wf (t : wfst) : Prop := reads t (fun _ => True).

(** Every path weighs within [P]. *)
Definition weighs_in (t : wfst) (P : weight -> Prop) : Prop :=
  forall i o w r, path t i o w r -> P w.

Definition weightless (t : wfst) : Prop := weighs_in t (fun w => w = 0%Z).
Definition nonnegative (t : wfst) : Prop := weighs_in t (fun w => (0 <= w)%Z).

(** A transducer with no path at all. *)
Definition empty (t : wfst) : Prop := forall i o w r, ~ path t i o w r.

(** A character with [Q] occurs in the string. *)
Definition somewhere (Q : char -> Prop) (p : str) : Prop := Exists Q p.

(** [pynini.cross(a, b)] for two strings. *)
Definition cross_str (a b : str) : wfst :=
  fun i => match is_prefix a i with
           | Some r => [(b, 0%Z, r)]
           | None => []
           end.

(** [pynini.accep(s)]. *)
Definition accep (s : str) : wfst := cross_str s s.

(** The empty transducer (a union of nothing). *)
Definition null : wfst := fun _ => [].

(** One character of a class. *)
Definition char_class (p : char -> bool) : wfst :=
  fun i => match i with
           | c :: r => if p c then [([c], 0%Z, r)] else []
           | [] => []
           end.

(** [a | b], [pynini.union(a, b)]. *)
Definition union (a b : wfst) : wfst := fun i => a i ++ b i.

Definition union_list (l : list wfst) : wfst := fold_right union null l.

(** Continue a path with the paths of [b] on what it left. *)
Definition extend (a : arc) (b : wfst) : list arc :=
  List.map (fun x => (a_out a ++ a_out x, (a_w a + a_w x)%Z, a_rest x)) (b (a_rest a)).

(** [a + b], concatenation. *)
Definition concat (a b : wfst) : wfst :=
  fun i => flat_map (fun x => extend x b) (a i).

Definition epsilon : wfst := fun i => [([], 0%Z, i)].

(** [pynutil.insert(s)], [pynutil.delete(t)], [pynutil.add_weight(t, w)]. *)
Definition insert (s : str) : wfst := cross_str [] s.

Definition delete (t : wfst) : wfst :=
  fun i => List.map (fun x => ([], a_w x, a_rest x)) (t i).

Definition add_weight (t : wfst) (w : weight) : wfst :=
  fun i => List.map (fun x => (a_out x, (a_w x + w)%Z, a_rest x)) (t i).
Arguments add_weight t w%_Z.

(** [pynini.cross(t, s)] for an acceptor [t] and a string [s]. *)
Definition cross (t : wfst) (s : str) : wfst :=
  fun i => List.map (fun x => (s, a_w x, a_rest x)) (t i).

(** [pynini.project(t, "input")]. *)
Definition project_input (t : wfst) : wfst :=
  fun i => List.map (fun x => (consumed i (a_rest x), a_w x, a_rest x)) (t i).

(** [t ** k]. *)
Fixpoint power (t : wfst) (k : nat) : wfst :=
  match k with
  | O => epsilon
  | S k' => concat t (power t k')
  end.

(** [pynini.closure(t, lo, hi)]: between [lo] and [lo + extra] copies. *)
Fixpoint upto (t : wfst) (extra : nat) : wfst :=
  match extra with
  | O => epsilon
  | S e => union epsilon (concat t (upto t e))
  end.

Definition closure_range (t : wfst) (lo hi : nat) : wfst :=
  concat (power t lo) (upto t (hi - lo)).

(** [pynini.closure(t)].  Every copy that continues a path reads at least
    one character: a copy reading nothing adds nothing to the relation when,
    as everywhere in the two source files, the body's paths on the empty
    input write nothing and weigh nothing. *)
Fixpoint star_fuel (t : wfst) (fuel : nat) (i : str) : list arc :=
  ([], 0%Z, i) ::
  match fuel with
  | O => []
  | S fuel' =>
      flat_map
        (fun x =>
           if (List.length (a_rest x) <? List.length i)%nat
           then List.map (fun y => (a_out x ++ a_out y, (a_w x + a_w y)%Z, a_rest y))
                         (star_fuel t fuel' (a_rest x))
           else [])
        (t i)
  end.

Definition closure (t : wfst) : wfst := fun i => star_fuel t (List.length i) i.

(** [pynini.closure(t, lo)]. *)
Definition closure_from (t : wfst) (lo : nat) : wfst := concat (power t lo) (closure t).

(** The paths that read the whole input. *)
Definition full (t : wfst) (i : str) : list (str * weight) :=
  flat_map (fun x => match a_rest x with
                     | [] => [(a_out x, a_w x)]
                     | _ :: _ => []
                     end) (t i).

Definition accepts (t : wfst) (i : str) : bool :=
  match full t i with [] => false | _ :: _ => true end.

(** [pynini.compose(a, b)], [a @ b]. *)
Definition compose (a b : wfst) : wfst :=
  fun i => flat_map
             (fun x => List.map (fun y => (fst y, (a_w x + snd y)%Z, a_rest x))
                                (full b (a_out x)))
             (a i).

(** [pynini.difference(a, b)] of two acceptors, [b] unweighted. *)
Definition difference (a b : wfst) : wfst :=
  fun i => filter (fun x => negb (accepts b (consumed i (a_rest x)))) (a i).

(** [pynini.string_map] and [pynini.string_file]: a table of pairs. *)
Definition table := list (str * str).

Definition string_map (t : table) : wfst :=
  fun i => flat_map (fun kv => cross_str (fst kv) (snd kv) i) t.

(** [.optimize()] changes the machine, not the relation. *)
Definition optimize (t : wfst) : wfst := t.

(** *** Shortest path *)

Definition min_weight (l : list (str * weight)) : option weight :=
  match l with
  | [] => None
  | x :: l' => Some (fold_left Z.min (List.map snd l') (snd x))
  end.

(** The outputs of least total weight, in path order. *)
Definition shortest (t : wfst) (i : str) : list str :=
  match min_weight (full t i) with
  | None => []
  | Some m => List.map fst (filter (fun x => Z.eqb (snd x) m) (full t i))
  end.

(** [selected t i o]: [o] is the output of a path of least weight. *)
Definition selected (t : wfst) (i o : str) : Prop :=
  exists w, In (o, w) (full t i) /\ forall o' w', In (o', w') (full t i) -> (w <= w')%Z.

End Pynini.

(** ** Constants of [graph_utils] *)

Module GraphUtils.
Import Pynini.

(** Modelled from the spec: [graph_utils.py] is not among the sources.  Its
    constants are the "atomic acceptors for digit classes, punctuation,
    separators" of the primitive alphabet, with "two distinct glyph sets for
    numerals"; each value below is the one its name in the import list of
    [measure.py] spells out. *)
Definition NEMO_SPACE : str := u " ".
Definition COMMA : str := u ",".
Definition PERIOD : str := u ".".
Definition HI_PERIOD : str := u "।".
Definition HYPHEN : str := u "-".
Definition SLASH : str := u "/".
Definition LOWERCASE_X : str := u "x".
Definition UPPERCASE_X : str := u "X".
Definition ASTERISK : str := u "*".

Definition is_white_space (c : char) : bool :=
  existsb (N.eqb c) [32; 9; 10; 13; 160]%N.
Definition is_digit (c : char) : bool := ((48 <=? c) && (c <=? 57))%N.
Definition is_hi_digit (c : char) : bool := ((2406 <=? c) && (c <=? 2415))%N.

Definition NEMO_CHAR : wfst := char_class (fun _ => true).
Definition NEMO_SIGMA : wfst := closure NEMO_CHAR.
Definition NEMO_WHITE_SPACE : wfst := char_class is_white_space.
Definition NEMO_NOT_SPACE : wfst := difference NEMO_CHAR NEMO_WHITE_SPACE.
Definition NEMO_DIGIT : wfst := char_class is_digit.
Definition NEMO_HI_DIGIT : wfst := char_class is_hi_digit.

Definition delete_space : wfst := delete (closure NEMO_WHITE_SPACE).
Definition insert_space : wfst := insert (u " ").

End GraphUtils.

(** ** [verbalizers/post_processing.py] *)

Module PostProcessingFst.
Import Pynini GraphUtils.

(** A python string handed to pynini: a backslash escapes the character
    after it (the source writes the opening square bracket that way). *)
Fixpoint pynini_str (s : str) : str :=
  match s with
  | [] => []
  | c :: s' =>
      if N.eqb c 92
      then match s' with
           | d :: s'' => d :: pynini_str s''
           | [] => [c]
           end
      else c :: pynini_str s'
  end.

(** [pynini.union( *marks )] of a python list of strings. *)
Definition union_strs (marks : list str) : wfst :=
  union_list (List.map (fun m => accep (pynini_str m)) marks).

Definition py_in (m : str) (l : list str) : bool := existsb (str_eqb m) l.

(** [pynini.cdrewrite(pynutil.delete(c), lambda, NEMO_SIGMA, NEMO_SIGMA)]
    where [lambda] accepts single characters: the rule is obligatory and
    runs left to right, so the left context is read on what has already
    been written.  [prev] is the last character written. *)
Fixpoint rewrite_delete_after (c : char) (lambda : wfst) (prev : option char) (i : str) : str :=
  match i with
  | [] => []
  | d :: i' =>
      let in_context :=
        match prev with
        | Some p => accepts lambda [p]
        | None => false
        end in
      if N.eqb d c && in_context
      then rewrite_delete_after c lambda prev i'
      else d :: rewrite_delete_after c lambda (Some d) i'
  end.

Definition cdrewrite_delete (c : char) (lambda : wfst) : wfst :=
  fun i => [(rewrite_delete_after c lambda None i, 0%Z, [])].

Section Graph.

(** [PunctuationFst().punct_marks], a python list of one-character strings,
    and [graph_utils.MIN_NEG_WEIGHT]. *)
Variable punct_marks_all : list str.
Variable MIN_NEG_WEIGHT : weight.

Definition quotes : list str := [u "'"; [34%N]; u "«"].
Definition dashes : list str := [u "-"; u "—"].
Definition brackets : list str := [u "<"; u "{"; u "("; u "\["].
Definition allow_space_before_punct : list str := quotes ++ dashes ++ brackets.

Definition no_space_before_punct_list : list str :=
  nodup (list_eq_dec N.eq_dec)
    (filter (fun m => negb (py_in m allow_space_before_punct)) punct_marks_all
     ++ [u "।"; u ","; u "."; u ";"; u ":"; u "!"; u "?"]).

Definition no_space_before_punct : wfst := union_strs no_space_before_punct_list.

Definition delete_space : wfst := delete (accep (u " ")).

Definition non_punct : wfst := optimize (difference NEMO_CHAR no_space_before_punct).

(** The first [graph] of the source: spaces before the marks. *)
Definition graph_before : wfst :=
  optimize
    (closure
       (concat (closure non_punct)
          (concat
             (closure
                (union no_space_before_punct
                   (add_weight (concat delete_space no_space_before_punct) MIN_NEG_WEIGHT)))
             (closure non_punct)))).

Definition no_space_after_punct : wfst :=
  optimize (cdrewrite_delete 32%N (union_strs brackets)).

Definition get_punct_postprocess_graph : wfst :=
  optimize (compose graph_before no_space_after_punct).

End Graph.

End PostProcessingFst.


(** ** [taggers/measure.py] *)

Module MeasureFst.
Import Pynini GraphUtils.

Declare Scope fst_scope.
Delimit Scope fst_scope with fst.
Infix ":+" := concat (at level 60, right associativity) : fst_scope.
Infix ":|" := union (at level 70, right associativity) : fst_scope.
Local Open Scope fst_scope.

(** Modelled from the spec: more constants of [graph_utils.py], which is
    not among the sources.  The idiom words are those of the "fractional
    idiom" builder, the numeric literals ("0.5", "1.5", "2.5", "x.75") come
    in "two distinct glyph sets", as the comments at their uses in
    [measure.py] say ("support both Devanagari and Arabic digits"). *)
Definition HI_BY : str := u "बाई".
Definition HI_DEDH : str := u "डेढ़".
Definition HI_DHAI : str := u "ढाई".
Definition HI_PAUNE : str := u "पौने".
Definition HI_SADHE : str := u "साढ़े".
Definition HI_SAVVA : str := u "सवा".
Definition POINT_FIVE : wfst := accep (u ".५") :| accep (u ".5").
Definition ONE_POINT_FIVE : wfst := accep (u "१.५") :| accep (u "1.5").
Definition TWO_POINT_FIVE : wfst := accep (u "२.५") :| accep (u "2.5").
Definition DECIMAL_25 : wfst := accep (u ".२५") :| accep (u ".25").
Definition DECIMAL_75 : wfst := accep (u ".७५") :| accep (u ".75").
Definition INPUT_LOWER_CASED : str := u "lower_cased".

(** The graphs the tagger takes from its collaborators: the attributes of
    [cardinal], [decimal] and [ordinal] that [measure.py] reads. *)
Module Cardinal.
Record t := {
  zero : wfst;
  digit : wfst;
  teens_and_ties : wfst;
  graph_hundreds : wfst;
  graph_thousands : wfst;
  graph_ten_thousands : wfst;
  graph_lakhs : wfst;
  graph_ten_lakhs : wfst;
  graph_without_leading_zeros : wfst
}.
End Cardinal.

Module Decimal.
Record t := { graph_fractional : wfst }.
End Decimal.

Module Ordinal.
Record t := { graph : wfst }.
End Ordinal.

(** The double quote of the tag syntax. *)
Definition q : str := [34%N].

(** The tables under [data/] that [measure.py] loads with
    [pynini.string_file(get_abs_path(...))], and the helper
    [graph_utils.capitalized_input_graph]. *)
Record Data := {
  numbers_digit : table;
  numbers_teens_and_ties : table;
  numbers_teens_and_ties_en : table;
  numbers_zero : table;
  telephone_number : table;
  address_states : table;
  address_cities : table;
  address_special_characters : table;
  address_letters : table;
  address_context : table;
  address_en_to_hi_mapping : table;
  measure_unit : table;
  measure_unit_year_formal : table;
  measure_quarterly_units_map : table;
  measure_quarterly_units_list : table;
  whitelist_paune_mappings : table;
  capitalized_input_graph : wfst -> wfst
}.

Section Tagger.

Variable data : Data.
Variable cardinal : Cardinal.t.
Variable decimal : Decimal.t.
Variable ordinal : Ordinal.t.
Variable input_case : str.

Definition digit_graph : wfst := string_map (numbers_digit data).
Definition teens_ties_hi : wfst := string_map (numbers_teens_and_ties data).
Definition teens_ties_en : wfst := string_map (numbers_teens_and_ties_en data).
Definition teens_ties : wfst := teens_ties_hi :| teens_ties_en.
Definition module_teens_and_ties : wfst := add_weight teens_ties (-1000).

(** *** [get_structured_address_graph] *)

Definition state_city_names : wfst :=
  optimize (string_map (address_states data) :| string_map (address_cities data)).

Definition num_token : wfst :=
  optimize (digit_graph :| string_map (numbers_zero data) :| string_map (telephone_number data)).

Definition pincode : wfst :=
  optimize (num_token :+ closure_range (insert_space :+ num_token) 5 5).

Definition street_num : wfst :=
  optimize (num_token :+ closure_range (insert_space :+ num_token) 0 3).

Definition any_digit : wfst := optimize (NEMO_HI_DIGIT :| NEMO_DIGIT).
Definition punctuation : wfst := optimize (accep COMMA :| accep PERIOD :| accep HI_PERIOD).
Definition word_char : wfst := optimize (difference NEMO_NOT_SPACE (any_digit :| punctuation)).
Definition s_word : wfst := closure_from word_char 1.
Definition sep : wfst := closure_range (accep COMMA) 0 1 :+ accep NEMO_SPACE.
Definition word_with_sep : wfst := s_word :+ sep.
Definition text : wfst := optimize (closure_range word_with_sep 0 5).

Definition pattern : wfst :=
  optimize
    (closure_range (street_num :+ sep) 0 1
     :+ text
     :+ state_city_names
     :+ closure_range (accep NEMO_SPACE :+ pincode) 0 1).

Definition address_open : str :=
  u "units: " ++ q ++ u "address" ++ q ++ u " cardinal { integer: " ++ q.
Definition address_close : str := q ++ u " } preserve_order: true".

Definition get_structured_address_graph : wfst :=
  optimize (add_weight (insert address_open :+ pattern :+ insert address_close) 10000).

(** *** [get_address_graph] *)

Definition ordinal_graph : wfst := Ordinal.graph ordinal.

Definition char_to_word : wfst :=
  optimize
    (digit_graph
     :| string_map (numbers_zero data)
     :| string_map (address_special_characters data)
     :| string_map (telephone_number data)).

Definition letter_to_word : wfst := string_map (address_letters data).
Definition address_keywords_hi : wfst := string_map (address_context data).

Definition en_to_hi_map : wfst :=
  if str_eqb input_case INPUT_LOWER_CASED
  then string_map (address_en_to_hi_mapping data)
  else capitalized_input_graph data (string_map (address_en_to_hi_mapping data)).

Definition address_keywords_en : wfst := project_input en_to_hi_map.
Definition address_keywords : wfst := address_keywords_hi :| address_keywords_en.

Definition single_digit : wfst := optimize (NEMO_DIGIT :| NEMO_HI_DIGIT).
Definition special_chars : wfst := optimize (accep HYPHEN :| accep SLASH).
Definition single_letter : wfst := optimize (project_input letter_to_word).
Definition convertible_char : wfst := single_digit :| special_chars :| single_letter.
Definition non_space_char : wfst :=
  optimize (difference NEMO_CHAR (NEMO_WHITE_SPACE :| convertible_char :| accep COMMA)).

Definition comma_processor : wfst := add_weight (delete_space :+ accep COMMA) 0.
Definition ordinal_processor : wfst := add_weight (insert_space :+ ordinal_graph) (-50000).
Definition english_word_processor : wfst := add_weight (insert_space :+ en_to_hi_map) (-30000).
Definition letter_processor : wfst :=
  add_weight (insert_space :+ compose single_letter letter_to_word) 5000.
Definition digit_char_processor : wfst :=
  add_weight (insert_space :+ compose convertible_char char_to_word) 0.
Definition other_word_processor : wfst :=
  add_weight (insert_space :+ closure_from non_space_char 1) 1000.

Definition token_processor : wfst :=
  optimize
    (ordinal_processor
     :| english_word_processor
     :| letter_processor
     :| digit_char_processor
     :| accep NEMO_SPACE
     :| comma_processor
     :| other_word_processor).

Definition full_string_processor : wfst := optimize (closure_from token_processor 1).

Definition word_boundary : wfst :=
  optimize (NEMO_WHITE_SPACE :| accep COMMA :| accep HI_PERIOD :| accep PERIOD).
Definition non_boundary_char : wfst := difference NEMO_CHAR word_boundary.
Definition c_word : wfst := optimize (closure_from non_boundary_char 1).
Definition word_with_boundary : wfst := c_word :+ closure word_boundary.
Definition window : wfst := optimize (closure_range word_with_boundary 0 5).
Definition boundary : wfst := optimize (closure_from word_boundary 1).

Definition input_pattern : wfst :=
  optimize
    ((address_keywords :+ boundary :+ window)
     :| (window :+ boundary :+ address_keywords :+ closure_range (boundary :+ window) 0 1)).

Definition address_graph : wfst := optimize (compose input_pattern full_string_processor).

Definition get_address_graph : wfst :=
  optimize (add_weight (insert address_open :+ address_graph :+ insert address_close) 10500).

(** *** [__init__] *)

Definition cardinal_graph : wfst :=
  Cardinal.zero cardinal
  :| Cardinal.digit cardinal
  :| Cardinal.teens_and_ties cardinal
  :| Cardinal.graph_hundreds cardinal
  :| Cardinal.graph_thousands cardinal
  :| Cardinal.graph_ten_thousands cardinal
  :| Cardinal.graph_lakhs cardinal
  :| Cardinal.graph_ten_lakhs cardinal.

Definition point : wfst := delete (accep (u ".")).
Definition decimal_integers : wfst :=
  insert (u "integer_part: " ++ q) :+ cardinal_graph :+ insert q.
Definition decimal_graph : wfst :=
  decimal_integers :+ point :+ insert_space :+ Decimal.graph_fractional decimal.
Definition unit_graph : wfst := string_map (measure_unit data).

Definition year_informal : wfst := string_map [(u "yr", u "साल")].
Definition year_formal : wfst := string_map (measure_unit_year_formal data).

Definition unit_inputs_except_yr : wfst :=
  difference (project_input unit_graph) (accep (u "yr")).
Definition unit_graph_no_year : wfst := compose unit_inputs_except_yr unit_graph.

Definition quarterly_units_map : wfst := string_map (measure_quarterly_units_map data).
Definition quarterly_units_list : wfst := string_map (measure_quarterly_units_list data).
Definition quarterly_units_graph : wfst := quarterly_units_map :| quarterly_units_list.

Definition optional_graph_negative : wfst :=
  closure_range
    (insert (u "negative: ") :+ cross_str (u "-") (q ++ u "true" ++ q) :+ insert_space)
    0 1.

Definition quarter : wfst :=
  cross POINT_FIVE HI_SADHE :| cross ONE_POINT_FIVE HI_DEDH :| cross TWO_POINT_FIVE HI_DHAI.
Definition quarter_graph : wfst :=
  insert (u "integer_part: " ++ q) :+ quarter :+ insert q.

Definition wrap_units (g : wfst) : wfst :=
  insert NEMO_SPACE :+ insert (u "units: " ++ q) :+ g :+ insert q :+ insert NEMO_SPACE.

Definition unit_ : wfst := wrap_units unit_graph_no_year.
Definition units : wfst := wrap_units quarterly_units_graph.
Definition unit_year_informal : wfst := wrap_units year_informal.
Definition unit_year_formal : wfst := wrap_units year_formal.

Definition cardinal_large : wfst := Cardinal.graph_without_leading_zeros cardinal.

Definition cardinal_small : wfst :=
  Cardinal.zero cardinal
  :| Cardinal.digit cardinal
  :| Cardinal.teens_and_ties cardinal
  :| Cardinal.graph_hundreds cardinal.

Definition symbol_graph : wfst :=
  string_map [(LOWERCASE_X, HI_BY); (UPPERCASE_X, HI_BY); (ASTERISK, HI_BY)].

Definition graph_decimal : wfst :=
  insert (u "decimal { ")
  :+ optional_graph_negative
  :+ decimal_graph
  :+ insert (u " }")
  :+ GraphUtils.delete_space
  :+ unit_.

Definition dedh_dhai : wfst :=
  cross ONE_POINT_FIVE HI_DEDH :| cross TWO_POINT_FIVE HI_DHAI.
Definition dedh_dhai_graph : wfst := insert (u "integer: " ++ q) :+ dedh_dhai :+ insert q.

Definition savva_numbers : wfst := cardinal_graph :+ cross DECIMAL_25 [].
Definition savva_graph : wfst :=
  insert (u "integer: " ++ q) :+ insert HI_SAVVA :+ insert NEMO_SPACE
  :+ savva_numbers :+ insert q.

Definition sadhe_numbers : wfst := cardinal_graph :+ cross POINT_FIVE [].
Definition sadhe_graph : wfst :=
  insert (u "integer: " ++ q) :+ insert HI_SADHE :+ insert NEMO_SPACE
  :+ sadhe_numbers :+ insert q.

Definition paune : wfst := string_map (whitelist_paune_mappings data).
Definition paune_numbers : wfst := paune :+ cross DECIMAL_75 [].
Definition paune_graph : wfst :=
  insert (u "integer: " ++ q) :+ insert HI_PAUNE :+ insert NEMO_SPACE
  :+ paune_numbers :+ insert q.

Definition graph_dedh_dhai : wfst :=
  insert (u "cardinal { ")
  :+ optional_graph_negative
  :+ dedh_dhai_graph
  :+ insert NEMO_SPACE
  :+ insert (u "}")
  :+ GraphUtils.delete_space
  :+ units.

Definition graph_savva : wfst :=
  insert (u "cardinal { ")
  :+ optional_graph_negative
  :+ savva_graph
  :+ insert NEMO_SPACE
  :+ insert (u "}")
  :+ GraphUtils.delete_space
  :+ units.

Definition graph_sadhe : wfst :=
  insert (u "cardinal { ")
  :+ optional_graph_negative
  :+ sadhe_graph
  :+ insert NEMO_SPACE
  :+ insert (u "}")
  :+ GraphUtils.delete_space
  :+ units.

Definition graph_paune : wfst :=
  insert (u "cardinal { ")
  :+ optional_graph_negative
  :+ paune_graph
  :+ insert (u " }")
  :+ GraphUtils.delete_space
  :+ units.

(** The shape shared by [graph_cardinal] and the two year graphs. *)
Definition cardinal_with (number unit_wrapper : wfst) : wfst :=
  insert (u "cardinal { ")
  :+ optional_graph_negative
  :+ insert (u "integer: " ++ q)
  :+ number
  :+ insert q
  :+ insert NEMO_SPACE
  :+ insert (u "}")
  :+ GraphUtils.delete_space
  :+ unit_wrapper.

Definition graph_cardinal : wfst := cardinal_with cardinal_graph unit_.
Definition graph_cardinal_year_formal : wfst := cardinal_with cardinal_large unit_year_formal.
Definition graph_cardinal_year_informal : wfst := cardinal_with cardinal_small unit_year_informal.

Definition graph_decimal_year_formal : wfst :=
  insert (u "decimal { ")
  :+ optional_graph_negative
  :+ decimal_graph
  :+ insert (u " }")
  :+ GraphUtils.delete_space
  :+ unit_year_formal.

Definition graph_exceptions : wfst :=
  insert (u "cardinal { ")
  :+ optional_graph_negative
  :+ insert (u "integer: " ++ q)
  :+ cardinal_graph
  :+ insert q
  :+ insert (u " }")
  :+ insert NEMO_SPACE
  :+ insert (u "units: " ++ q)
  :+ symbol_graph
  :+ insert q
  :+ insert NEMO_SPACE
  :+ insert (u "} }")
  :+ insert_space
  :+ insert (u "tokens { cardinal { ")
  :+ optional_graph_negative
  :+ insert (u "integer: " ++ q)
  :+ cardinal_graph
  :+ insert q.

(** The twelve alternatives of the union, in the order of the source. *)
Definition alternatives : list wfst :=
  [ add_weight graph_decimal 1000;
    add_weight graph_decimal_year_formal 1000;
    add_weight graph_cardinal 1000;
    add_weight graph_cardinal_year_formal 1000;
    add_weight graph_cardinal_year_informal (-1000);
    add_weight graph_exceptions 1000;
    add_weight graph_dedh_dhai (-2000);
    add_weight graph_savva (-1000);
    add_weight graph_sadhe (-1000);
    add_weight graph_paune (-5000);
    get_address_graph;
    get_structured_address_graph ].

Definition graph : wfst := optimize (union_list alternatives).

(** [GraphFst.add_tokens] with [name="measure"]: the class docstring shows
    the wrapper, [measure { ... }]. *)
Definition add_tokens (g : wfst) : wfst := insert (u "measure { ") :+ g :+ insert (u " }").

Definition fst_ : wfst := add_tokens graph.

End Tagger.

End MeasureFst.

(** ** The post-processor as the specification words it

    "Removes whitespace preceding a closed set of punctuation marks, while
    explicitly exempting quotation marks, dashes, and opening brackets;
    additionally removes whitespace immediately following opening brackets.
    The no-space-before pass runs first, then the no-space-after-bracket
    pass composes on its result." *)

Module PostProcessingSpec.

Definition space : char := 32%N.

(** The apostrophe, the double quote and the left guillemet; the hyphen
    and the em dash; the four opening brackets. *)
Definition is_quote (c : char) : bool := existsb (N.eqb c) [39; 34; 171]%N.
Definition is_dash (c : char) : bool := existsb (N.eqb c) [45; 8212]%N.
Definition is_open_bracket (c : char) : bool := existsb (N.eqb c) [60; 123; 40; 91]%N.

(** The danda and , . ; : ! ? *)
Definition is_sentence_mark (c : char) : bool :=
  existsb (N.eqb c) [2404; 44; 46; 59; 58; 33; 63]%N.

(** The closed set: the tagger's punctuation marks and the sentence marks,
    without the exempted ones. *)
Definition closes_up (punct_marks : list str) (c : char) : bool :=
  (PostProcessingFst.py_in [c] punct_marks || is_sentence_mark c)
  && negb (is_quote c || is_dash c || is_open_bracket c).

(** First pass: the space right before a mark of the closed set goes. *)
Fixpoint no_space_before (P : char -> bool) (s : str) : str :=
  match s with
  | [] => []
  | c :: s' =>
      match s' with
      | p :: s'' =>
          if N.eqb c space && P p
          then p :: no_space_before P s''
          else c :: no_space_before P s'
      | [] => [c]
      end
  end.

(** How many spaces the first pass removes. *)
Fixpoint spaces_before (P : char -> bool) (s : str) : nat :=
  match s with
  | [] => O
  | c :: s' =>
      match s' with
      | p :: s'' =>
          if N.eqb c space && P p
          then S (spaces_before P s'')
          else spaces_before P s'
      | [] => O
      end
  end.

(** Second pass: the spaces right after an opening bracket go.
    [after_bracket] tells that the text written so far ends in one. *)
Fixpoint no_space_after (after_bracket : bool) (s : str) : str :=
  match s with
  | [] => []
  | c :: s' =>
      if N.eqb c space && after_bracket
      then no_space_after after_bracket s'
      else c :: no_space_after (is_open_bracket c) s'
  end.

Definition postprocess (punct_marks : list str) (s : str) : str :=
  no_space_after false (no_space_before (closes_up punct_marks) s).

(** A mark of the closed set with two spaces before it. *)
Fixpoint two_spaces_before (P : char -> bool) (s : str) : bool :=
  match s with
  | a :: ((b :: p :: _) as s') =>
      (N.eqb a space && N.eqb b space && P p) || two_spaces_before P s'
  | _ => false
  end.

(** A space right before a mark of the closed set. *)
Definition starts_with (P : char -> bool) (s : str) : bool :=
  match s with
  | p :: _ => P p
  | [] => false
  end.

Fixpoint space_before_mark (P : char -> bool) (s : str) : bool :=
  match s with
  | a :: s' => (N.eqb a space && starts_with P s') || space_before_mark P s'
  | [] => false
  end.

(** [removal P i o k r]: reading [i] down to [r] and taking out [k] spaces,
    each right before a mark of [P], writes [o]. *)
Inductive removal (P : char -> bool) : str -> str -> nat -> str -> Prop :=
| removal_stop : forall i, removal P i [] 0 i
| removal_keep : forall c i o k r, removal P i o k r -> removal P (c :: i) (c :: o) k r
| removal_drop : forall p i o k r,
    P p = true -> removal P i o k r -> removal P (space :: p :: i) (p :: o) (S k) r.

(** A removal with its weight: [m] for every space taken out. *)
Definition weighs (P : char -> bool) (m : weight) (i o : str) (w : weight) (r : str) : Prop :=
  exists k, removal P i o k r /\ w = (Z.of_nat k * m)%Z.

End PostProcessingSpec.

(** ** Sample collaborators

    Small stand-ins for what the two source files import but this
    development does not have, used to run the graphs on examples. *)

Module Sample.

(** The ASCII punctuation marks without the square brackets, for
    [PunctuationFst().punct_marks]. *)
Definition punct_marks : list str :=
  List.map (fun c => [c]) (34%N :: u "!#%&'()*+,-./:;<=>?@^_`{|}~").

(** [MIN_NEG_WEIGHT = -0.0001]. *)
Definition MIN_NEG_WEIGHT : weight := (-1)%Z.

Definition post_process_graph : Pynini.wfst :=
  PostProcessingFst.get_punct_postprocess_graph punct_marks MIN_NEG_WEIGHT.

Import Pynini MeasureFst.

Definition self (l : list str) : table := List.map (fun k => (k, k)) l.

Definition hi_digits : table :=
  [(u "१", u "एक"); (u "२", u "दो"); (u "३", u "तीन"); (u "४", u "चार"); (u "५", u "पाँच");
   (u "६", u "छह"); (u "७", u "सात"); (u "८", u "आठ"); (u "९", u "नौ")].
Definition en_digits : table :=
  [(u "1", u "एक"); (u "2", u "दो"); (u "3", u "तीन"); (u "4", u "चार"); (u "5", u "पाँच");
   (u "6", u "छह"); (u "7", u "सात"); (u "8", u "आठ"); (u "9", u "नौ")].

(** A few rows of each table under [data/]; the rows are those the
    docstrings and comments of [measure.py] show at work. *)
Definition data : Data := {|
  numbers_digit := hi_digits;
  numbers_teens_and_ties := [(u "१२", u "बारह"); (u "७०", u "सत्तर")];
  numbers_teens_and_ties_en := [(u "12", u "बारह"); (u "70", u "सत्तर")];
  numbers_zero := [(u "०", u "शून्य")];
  telephone_number := (u "0", u "शून्य") :: en_digits;
  address_states := self [u "गोवा"];
  address_cities := self [u "मुंबई"];
  address_special_characters := [(u "-", u "हाइफ़न"); (u "/", u "बटा")];
  address_letters := [(u "A", u "ए"); (u "B", u "बी")];
  address_context := self [u "स्ट्रीट"; u "रोड"];
  address_en_to_hi_mapping := [(u "street", u "स्ट्रीट"); (u "road", u "रोड")];
  measure_unit := [(u "kg", u "किलोग्राम"); (u "km", u "किलोमीटर"); (u "yr", u "साल")];
  measure_unit_year_formal := [(u "yr", u "वर्ष")];
  measure_quarterly_units_map := [(u "kg", u "किलोग्राम"); (u "km", u "किलोमीटर")];
  measure_quarterly_units_list := self [u "किलो"];
  whitelist_paune_mappings := [(u "१", u "दो"); (u "1", u "दो"); (u "२", u "तीन"); (u "2", u "तीन")];
  capitalized_input_graph := fun g => g
|}.

(** A cardinal tagger that knows a handful of numbers in both glyph sets,
    with the weight -0.1 on the teens and ties that [measure.py] itself
    puts on them. *)
Definition cardinal : Cardinal.t := {|
  Cardinal.zero := string_map [(u "०", u "शून्य"); (u "0", u "शून्य")];
  Cardinal.digit := string_map (hi_digits ++ en_digits);
  Cardinal.teens_and_ties :=
    add_weight (string_map [(u "१२", u "बारह"); (u "७०", u "सत्तर");
                            (u "12", u "बारह"); (u "70", u "सत्तर")]) (-1000);
  Cardinal.graph_hundreds := string_map [(u "७००", u "सात सौ"); (u "700", u "सात सौ")];
  Cardinal.graph_thousands :=
    string_map [(u "१०००", u "एक हज़ार"); (u "1000", u "एक हज़ार");
                (u "७०००", u "सात हज़ार"); (u "7000", u "सात हज़ार")];
  Cardinal.graph_ten_thousands := null;
  Cardinal.graph_lakhs := null;
  Cardinal.graph_ten_lakhs := null;
  Cardinal.graph_without_leading_zeros :=
    union (string_map [(u "०", u "शून्य"); (u "0", u "शून्य")])
      (union (string_map (hi_digits ++ en_digits))
         (union (add_weight (string_map [(u "१२", u "बारह"); (u "७०", u "सत्तर");
                                         (u "12", u "बारह"); (u "70", u "सत्तर")]) (-1000))
            (union (string_map [(u "७००", u "सात सौ"); (u "700", u "सात सौ")])
               (string_map [(u "१०००", u "एक हज़ार"); (u "1000", u "एक हज़ार");
                            (u "७०००", u "सात हज़ार"); (u "7000", u "सात हज़ार")]))))
|}.

(** The fractional part read digit by digit. *)
Definition fraction_digit : wfst :=
  string_map ((u "०", u "शून्य") :: (u "0", u "शून्य") :: hi_digits ++ en_digits).

Definition decimal : Decimal.t := {|
  Decimal.graph_fractional :=
    concat (insert (u "fractional_part: " ++ q))
      (concat fraction_digit
         (concat (closure (concat GraphUtils.insert_space fraction_digit)) (insert q)))
|}.

Definition ordinal : Ordinal.t := {|
  Ordinal.graph := string_map [(u "१०वां", u "दसवां")]
|}.

Definition measure_graph : wfst :=
  MeasureFst.graph data cardinal decimal ordinal INPUT_LOWER_CASED.

(** The same tables with no English keyword, and an ordinal tagger that
    reads nothing. *)
Definition data_hi : Data := {|
  numbers_digit := numbers_digit data;
  numbers_teens_and_ties := numbers_teens_and_ties data;
  numbers_teens_and_ties_en := numbers_teens_and_ties_en data;
  numbers_zero := numbers_zero data;
  telephone_number := telephone_number data;
  address_states := address_states data;
  address_cities := address_cities data;
  address_special_characters := address_special_characters data;
  address_letters := address_letters data;
  address_context := address_context data;
  address_en_to_hi_mapping := [];
  measure_unit := measure_unit data;
  measure_unit_year_formal := measure_unit_year_formal data;
  measure_quarterly_units_map := measure_quarterly_units_map data;
  measure_quarterly_units_list := measure_quarterly_units_list data;
  whitelist_paune_mappings := whitelist_paune_mappings data;
  capitalized_input_graph := capitalized_input_graph data
|}.

Definition ordinal_none : Ordinal.t := {| Ordinal.graph := null |}.

End Sample.

(** ** Words for the inputs and outputs of the measure tagger *)

Module MeasureSpec.
Import Pynini GraphUtils MeasureFst.

Definition is_any_digit (c : char) : bool := is_digit c || is_hi_digit c.

(** A numeral: a string of digits of either glyph set, not empty. *)
Definition numeral (p : str) : Prop := p <> [] /\ Forall (fun c => is_any_digit c = true) p.

(** The number a numeral denotes. *)
Definition digit_value (c : char) : N :=
  if is_digit c then c - 48 else c - 2406.

Definition value (p : str) : N :=
  fold_left (fun a c => 10 * a + digit_value c)%N p 0%N.

(** The tag of a minus sign, with the space after it. *)
Definition negative_tag : str := u "negative: " ++ (q ++ u "true" ++ q) ++ u " ".

Definition dot_char : char := 46%N.
Definition is_dot (c : char) : Prop := c = 46%N.
Definition is_space (c : char) : Prop := c = 32%N.

(** The characters at which the contextual address grammar ends a word:
    white space, the comma, the danda and the period. *)
Definition is_boundary (c : char) : Prop :=
  is_white_space c = true \/ c = 44%N \/ c = 2404%N \/ c = 46%N.

Definition ends_in_digit (p : str) : Prop :=
  exists p' c, p = p' ++ [c] /\ is_any_digit c = true.

(** A letter of a unit abbreviation: no digit, no white space, no period,
    comma or danda. *)
Definition is_unit_letter (c : char) : bool :=
  negb (is_any_digit c || is_white_space c || existsb (N.eqb c) [46; 44; 2404]%N).

Definition unit_word (k : str) : Prop :=
  k <> [] /\ Forall (fun c => is_unit_letter c = true) k.

(** A place name of the gazetteer. *)
Definition gazetteer_key (data : Data) (p : str) : Prop :=
  exists v, In (p, v) (address_states data) \/ In (p, v) (address_cities data).

Definition space_or_nothing (p : str) : Prop := p = [] \/ somewhere is_space p.

Definition sign_tag (sg : str) : str :=
  if str_eqb sg (u "-") then negative_tag else [].

(** The tag of a cardinal with its unit. *)
Definition cardinal_tag (sg number unit_name : str) : str :=
  u "cardinal { " ++ sign_tag sg ++ (u "integer: " ++ q) ++ number ++ q
  ++ NEMO_SPACE ++ u "}" ++ NEMO_SPACE ++ (u "units: " ++ q) ++ unit_name ++ q ++ NEMO_SPACE.

(** A character that is no period, no word boundary and no space. *)
Definition plain (c : char) : Prop := ~ is_dot c /\ ~ is_boundary c /\ ~ is_space c.

(** A graph that reads one key of a table and weighs nothing. *)
Definition keyed (g : wfst) (K : str -> str -> Prop) : Prop :=
  forall i o w r, path g i o w r -> w = 0%Z /\ exists key, K key o /\ i = key ++ r.

(** One of the three multiplication symbols. *)
Definition symbol (s : str) : Prop :=
  s = LOWERCASE_X \/ s = UPPERCASE_X \/ s = ASTERISK.

(** The two tag groups written for a cardinal, a multiplication symbol and
    a second cardinal: the first closes its own token and opens the next. *)
Definition product_tag (first second : str) : str :=
  u "cardinal { " ++ (u "integer: " ++ q) ++ first ++ q ++ u " }" ++ NEMO_SPACE
  ++ (u "units: " ++ q) ++ HI_BY ++ q ++ NEMO_SPACE ++ u "} }" ++ u " "
  ++ u "tokens { cardinal { " ++ (u "integer: " ++ q) ++ second ++ q.

(** A string whose first character is no digit. *)
Definition starts_nondigit (a : str) : Prop :=
  exists c a', a = c :: a' /\ is_any_digit c = false.

(** A row of the quarterly units, of the map or of the list. *)
Definition quarterly_unit (data : Data) (k v : str) : Prop :=
  In (k, v) (measure_quarterly_units_map data) \/ In (k, v) (measure_quarterly_units_list data).

(** The quarter and the half after an integer, with their words. *)
Definition quarter_idiom (frac word : str) : Prop :=
  ((frac = u ".25" \/ frac = u ".२५") /\ word = HI_SAVVA) \/
  ((frac = u ".5" \/ frac = u ".५") /\ word = HI_SADHE).

(** The fixed idioms and the alternative of the union that reads each:
    one and a half and two and a half; a half; an integer of the paune
    whitelist and three quarters. *)
Definition fixed_idiom (data : Data) (cardinal : Cardinal.t) (pre : str) (alt : wfst) : Prop :=
  ((pre = u "1.5" \/ pre = u "१.५" \/ pre = u "2.5" \/ pre = u "२.५")
   /\ alt = add_weight (graph_dedh_dhai data) (-2000)) \/
  ((exists zero half, pre = zero ++ half /\ (zero = u "0" \/ zero = u "०")
                      /\ (half = u ".5" \/ half = u ".५"))
   /\ alt = add_weight (graph_sadhe data cardinal) (-1000)) \/
  ((exists x xv frac, pre = x ++ frac /\ numeral x
                      /\ In (x, xv) (whitelist_paune_mappings data)
                      /\ (frac = u ".75" \/ frac = u ".७५"))
   /\ alt = add_weight (graph_paune data) (-5000)).

(** No sign, or the minus sign. *)
Definition sign (s : str) : Prop := s = [] \/ s = u "-".

(** What the tagger expects of the cardinal and decimal taggers and of
    the tables: the cardinal graphs read numerals and the graphs below a
    thousand only numerals below a thousand, on which the graph without
    leading zeros adds nothing to them; unit abbreviations hold no digit and
    place names start with none, nor with a hyphen; the formal year table
    has the one row of the year. *)
Record collaborators (data : Data) (cardinal : Cardinal.t) (decimal : Decimal.t)
       (input_case : str) : Prop := {
  cardinal_reads : reads (cardinal_graph cardinal) numeral;
  large_reads : reads (cardinal_large cardinal) numeral;
  fractional_wf : wf (Decimal.graph_fractional decimal);
  en_to_hi_wf : wf (en_to_hi_map data input_case);
  unit_keys_plain :
    forall k v, In (k, v) (measure_unit data) -> Forall (fun c => is_any_digit c = false) k;
  gazetteer_plain :
    forall c p, gazetteer_key data (c :: p) -> is_any_digit c = false /\ c <> 45%N;
  year_formal_table : measure_unit_year_formal data = [(u "yr", u "वर्ष")];
  small_below : reads (cardinal_small cardinal) (fun p => (value p < 1000)%N);
  large_extends :
    forall p r o w, path (cardinal_large cardinal) (p ++ r) o w r -> (value p < 1000)%N ->
                    path (cardinal_small cardinal) (p ++ r) o w r
}.

(** *** Addresses *)

(** The tag of an address. *)
Definition address_tag (body : str) : str := address_open ++ body ++ address_close.

(** A character the contextual grammar converts: a digit of either glyph
    set, the hyphen, the slash, or a letter of the letter table. *)
Definition is_convertible (data : Data) (c : char) : bool :=
  accepts (convertible_char data) [c].

(** A character of a plain word of the contextual grammar: one that the
    window takes as part of a word and that the token processors copy. *)
Definition is_plain_char (data : Data) (c : char) : bool :=
  accepts (non_space_char data) [c] && accepts non_boundary_char [c].

Definition plain_word (data : Data) (p : str) : Prop :=
  p <> [] /\ Forall (fun c => is_plain_char data c = true) p.

(** A digit token and its spoken form: a row of the digit table, of the
    zero table or of the telephone digits. *)
Definition digit_token (data : Data) (k v : str) : Prop :=
  In (k, v) (numbers_digit data) \/ In (k, v) (numbers_zero data)
  \/ In (k, v) (telephone_number data).

(** [digit_run data n ks vs]: [ks] is [n] digit tokens one after the
    other, [vs] their spoken forms with one space between two. *)
Inductive digit_run (data : Data) : nat -> str -> str -> Prop :=
| run_one k v : digit_token data k v -> digit_run data 1 k v
| run_more n k v ks vs :
    digit_token data k v -> digit_run data n ks vs ->
    digit_run data (S n) (k ++ ks) (v ++ u " " ++ vs).

(** A character of a free-text word: no white space, no digit, no comma,
    period or danda. *)
Definition is_word_char (c : char) : bool :=
  negb (is_white_space c) && negb (is_any_digit c) && negb (existsb (N.eqb c) [44; 46; 2404]%N).

(** A space, with a comma before it or not. *)
Definition separator (sp : str) : Prop := sp = u " " \/ sp = u ", ".

(** [words n t]: [t] is [n] words, each with its separator. *)
Inductive words : nat -> str -> Prop :=
| words_nil : words 0 []
| words_cons n w sp rest :
    w <> [] -> Forall (fun c => is_word_char c = true) w -> separator sp ->
    words n rest -> words (S n) (w ++ sp ++ rest).

(** The numeric prefix: nothing, or one to four digit tokens and a
    separator. *)
Definition house_number (data : Data) (i o : str) : Prop :=
  (i = [] /\ o = []) \/
  exists n ks vs sp, (1 <= n <= 4)%nat /\ digit_run data n ks vs /\ separator sp
                     /\ i = ks ++ sp /\ o = vs ++ sp.

Definition free_text (t : str) : Prop := exists n, (n <= 5)%nat /\ words n t.

(** A place name of the gazetteer and what is written for it. *)
Definition place (data : Data) (i o : str) : Prop :=
  In (i, o) (address_states data) \/ In (i, o) (address_cities data).

(** The postal code: nothing, or a space and exactly six digit tokens. *)
Definition postal_code (data : Data) (i o : str) : Prop :=
  (i = [] /\ o = []) \/
  exists ks vs, digit_run data 6 ks vs /\ i = u " " ++ ks /\ o = u " " ++ vs.

(** The shape of a structured address and the tag written for it. *)
Definition structured_address (data : Data) (s o : str) : Prop :=
  exists hn hn' t p p' pc pc',
    house_number data hn hn' /\ free_text t /\ place data p p' /\ postal_code data pc pc'
    /\ s = hn ++ t ++ p ++ pc /\ o = address_tag (hn' ++ t ++ p' ++ pc').

End MeasureSpec.

(** ** What the graphs keep, whatever the path

    Properties of the outputs and of the inputs of the two grammars, for
    the theorems on all their paths. *)

Module Properties.
Import Pynini GraphUtils PostProcessingSpec MeasureFst MeasureSpec.

(** [deletes_spaces s o]: [o] is [s] with some of its spaces taken out,
    every other character kept in its place. *)
Inductive deletes_spaces : str -> str -> Prop :=
| ds_nil : deletes_spaces [] []
| ds_keep : forall c s o, deletes_spaces s o -> deletes_spaces (c :: s) (c :: o)
| ds_drop : forall s o, deletes_spaces s o -> deletes_spaces (space :: s) o.

(** The string starts with a space. *)
Definition head_space (s : str) : bool :=
  match s with
  | c :: _ => N.eqb c space
  | [] => false
  end.

(** A space right after an opening bracket. *)
Fixpoint space_after_bracket (s : str) : bool :=
  match s with
  | a :: s' => (is_open_bracket a && head_space s') || space_after_bracket s'
  | [] => false
  end.

(** No digit, ASCII or Devanagari. *)
Definition digit_free (o : str) : Prop := Forall (fun c => is_any_digit c = false) o.

Definition digit_free_values (t : table) : Prop :=
  forall k v, In (k, v) t -> digit_free v.

(** The tables whose values the address grammars write for digits,
    special characters, letters and place names. *)
Definition spoken_tables (data : Data) : list table :=
  [ numbers_digit data; numbers_zero data; telephone_number data;
    address_special_characters data; address_letters data;
    address_states data; address_cities data ].

(** [writes t Q]: the output of every path of [t] satisfies [Q]. *)
Definition writes (t : wfst) (Q : str -> Prop) : Prop :=
  forall i o w r, path t i o w r -> Q o.

(** [holds K s]: a string of [K] occurs in [s]. *)
Definition holds (K : str -> Prop) (s : str) : Prop :=
  exists pre k post, s = pre ++ k ++ post /\ K k.

(** A keyword of the contextual address grammar: a key of the context
    table, or an English keyword, [E] being what the English keyword map
    reads. *)
Definition address_keyword (data : Data) (E : str -> Prop) (k : str) : Prop :=
  (exists v, In (k, v) (address_context data)) \/ E k.

(** What the contextual address grammar converts: one digit, the hyphen
    or the slash, or a key of the letter table. *)
Definition convertible_key (data : Data) (k : str) : Prop :=
  (exists c, k = [c] /\ (is_any_digit c = true \/ c = 45%N \/ c = 47%N))
  \/ exists v, In (k, v) (address_letters data).

(** The rows of [char_to_word]: digits, zero, special characters and
    telephone digits. *)
Definition char_words (data : Data) : table :=
  numbers_digit data ++ numbers_zero data ++ address_special_characters data
  ++ telephone_number data.

Definition white (ws : str) : Prop := Forall (fun c => is_white_space c = true) ws.

(** A word boundary of the contextual address grammar, as a test. *)
Definition is_boundary_char (c : char) : bool :=
  is_white_space c || existsb (N.eqb c) [44; 2404; 46]%N.

(** The number of words of a string: its maximal runs of characters that
    are no word boundary.  [inside] tells that the character before was
    part of a word. *)
Fixpoint word_count_from (inside : bool) (s : str) : nat :=
  match s with
  | [] => 0
  | c :: s' =>
      if is_boundary_char c then word_count_from false s'
      else (if inside then 0 else 1) + word_count_from true s'
  end.

Definition word_count (s : str) : nat := word_count_from false s.

(** The alternatives of the union that read a decimal point. *)
Definition point_alternatives (data : Data) (cardinal : Cardinal.t) (decimal : Decimal.t)
  : list wfst :=
  [ graph_decimal data cardinal decimal;
    graph_decimal_year_formal data cardinal decimal;
    graph_dedh_dhai data;
    graph_savva data cardinal;
    graph_sadhe data cardinal;
    graph_paune data ].

End Properties.
(** * Proofs *)

(** ** Paths of the combinators *)

Module PyniniFacts.
Import Pynini.

Lemma is_prefix_spec (p i r : str) : is_prefix p i = Some r <-> i = p ++ r.
Proof.
  revert i; induction p as [|c p IH]; intros i; simpl.
  - split; intro H; [injection H as <- | subst]; reflexivity.
  - destruct i as [|d i]; [split; discriminate|].
    destruct (N.eqb_spec c d) as [->|Hne].
    + rewrite IH. split; intro H; [subst | injection H as ->]; reflexivity.
    + split; [discriminate | intro H; injection H as -> _; contradiction].
Qed.

Lemma is_prefix_app (p r : str) : is_prefix p (p ++ r) = Some r.
Proof. apply is_prefix_spec; reflexivity. Qed.

Lemma path_cross_str a b i o w r :
  path (cross_str a b) i o w r <-> i = a ++ r /\ o = b /\ w = 0%Z.
Proof.
  unfold path, cross_str. destruct (is_prefix a i) as [r'|] eqn:E.
  - apply is_prefix_spec in E. subst i. simpl. split.
    + intros [H|[]]. injection H as <- <- <-. auto.
    + intros (H & -> & ->). apply app_inv_head in H. subst. auto.
  - simpl. split; [tauto|]. intros (H & _). subst i.
    rewrite is_prefix_app in E. discriminate.
Qed.

Lemma path_accep s i o w r : path (accep s) i o w r <-> i = s ++ r /\ o = s /\ w = 0%Z.
Proof. apply path_cross_str. Qed.

Lemma path_insert s i o w r : path (insert s) i o w r <-> r = i /\ o = s /\ w = 0%Z.
Proof.
  unfold insert. rewrite path_cross_str. simpl. intuition congruence.
Qed.

Lemma path_epsilon i o w r : path epsilon i o w r <-> r = i /\ o = [] /\ w = 0%Z.
Proof.
  unfold path, epsilon. simpl. split.
  - intros [H|[]]. injection H as <- <- <-. auto.
  - intros (-> & -> & ->). auto.
Qed.

Lemma path_null i o w r : path null i o w r <-> False.
Proof. unfold path, null. simpl. tauto. Qed.

Lemma path_char_class p i o w r :
  path (char_class p) i o w r <-> exists c, i = c :: r /\ p c = true /\ o = [c] /\ w = 0%Z.
Proof.
  unfold path, char_class. destruct i as [|c i']; simpl.
  - split; [tauto | intros (c & H & _); discriminate].
  - destruct (p c) eqn:E; simpl.
    + split.
      * intros [H|[]]. injection H as <- <- <-. eauto.
      * intros (c' & H & _ & -> & ->). injection H as <- <-. auto.
    + split; [tauto|]. intros (c' & H & Hp & _). injection H as <- <-. congruence.
Qed.

Lemma path_union a b i o w r : path (union a b) i o w r <-> path a i o w r \/ path b i o w r.
Proof. unfold path, union. apply in_app_iff. Qed.

Lemma path_union_list l i o w r :
  path (union_list l) i o w r <-> exists t, In t l /\ path t i o w r.
Proof.
  induction l as [|t l IH]; simpl.
  - rewrite path_null. split; [tauto | intros (t & [] & _)].
  - rewrite path_union, IH. split.
    + intros [H|(t' & Hin & H)]; eauto.
    + intros (t' & [->|Hin] & H); eauto.
Qed.

Lemma path_concat a b i o w r :
  path (concat a b) i o w r <->
  exists o1 w1 r1 o2 w2,
    path a i o1 w1 r1 /\ path b r1 o2 w2 r /\ o = o1 ++ o2 /\ w = (w1 + w2)%Z.
Proof.
  unfold path, concat, extend. rewrite in_flat_map. split.
  - intros ([[o1 w1] r1] & Ha & Hx). apply in_map_iff in Hx.
    destruct Hx as ([[o2 w2] r2] & Heq & Hb). cbn in *.
    injection Heq as <- <- <-. exists o1, w1, r1, o2, w2. auto.
  - intros (o1 & w1 & r1 & o2 & w2 & Ha & Hb & -> & ->).
    exists (o1, w1, r1). split; [assumption|]. apply in_map_iff.
    exists (o2, w2, r). auto.
Qed.

Lemma path_delete t i o w r : path (delete t) i o w r <-> o = [] /\ exists o', path t i o' w r.
Proof.
  unfold path, delete. rewrite in_map_iff. split.
  - intros ([[o' w'] r'] & Heq & H). cbn in Heq. injection Heq as <- <- <-. eauto.
  - intros (-> & o' & H). exists (o', w, r). auto.
Qed.

Lemma path_add_weight t k i o w r :
  path (add_weight t k) i o w r <-> exists w', path t i o w' r /\ w = (w' + k)%Z.
Proof.
  unfold path, add_weight. rewrite in_map_iff. split.
  - intros ([[o' w'] r'] & Heq & H). cbn in Heq. injection Heq as <- <- <-. eauto.
  - intros (w' & H & ->). exists (o, w', r). auto.
Qed.

Lemma path_cross t s i o w r : path (cross t s) i o w r <-> o = s /\ exists o', path t i o' w r.
Proof.
  unfold path, cross. rewrite in_map_iff. split.
  - intros ([[o' w'] r'] & Heq & H). cbn in Heq. injection Heq as <- <- <-. eauto.
  - intros (-> & o' & H). exists (o', w, r). auto.
Qed.

Lemma path_project_input t i o w r :
  path (project_input t) i o w r <-> o = consumed i r /\ exists o', path t i o' w r.
Proof.
  unfold path, project_input. rewrite in_map_iff. split.
  - intros ([[o' w'] r'] & Heq & H). cbn in Heq. injection Heq as <- <- <-. eauto.
  - intros (-> & o' & H). exists (o', w, r). auto.
Qed.

Lemma path_string_map t i o w r :
  path (string_map t) i o w r <-> exists k, In (k, o) t /\ i = k ++ r /\ w = 0%Z.
Proof.
  unfold path, string_map. rewrite in_flat_map. split.
  - intros ([k v] & Hin & H). apply path_cross_str in H. cbn in H.
    destruct H as (-> & -> & ->). eauto.
  - intros (k & Hin & -> & ->). exists (k, o). split; [assumption|].
    apply path_cross_str. auto.
Qed.

Lemma in_full t i o w : In (o, w) (full t i) <-> path t i o w [].
Proof.
  unfold full, path. rewrite in_flat_map. split.
  - intros ([[o' w'] r'] & Hin & H). cbn in H. destruct r'; [|contradiction].
    destruct H as [H|[]]. injection H as <- <-. assumption.
  - intro H. exists (o, w, []). split; [assumption | left; reflexivity].
Qed.

Lemma accepts_true t i : accepts t i = true <-> exists o w, path t i o w [].
Proof.
  unfold accepts. destruct (full t i) as [|[o w] l] eqn:E.
  - split; [discriminate|]. intros (o & w & H). apply in_full in H.
    rewrite E in H. contradiction.
  - split; [|reflexivity]. intros _. exists o, w. apply in_full. rewrite E. left. reflexivity.
Qed.

Lemma accepts_false t i : accepts t i = false <-> forall o w, ~ path t i o w [].
Proof.
  split.
  - intros H o w Hp. assert (accepts t i = true) by (apply accepts_true; eauto). congruence.
  - intro H. destruct (accepts t i) eqn:E; [|reflexivity].
    apply accepts_true in E. destruct E as (o & w & Hp). elim (H o w Hp).
Qed.

Lemma path_compose a b i o w r :
  path (compose a b) i o w r <->
  exists o1 w1 w2, path a i o1 w1 r /\ path b o1 o w2 [] /\ w = (w1 + w2)%Z.
Proof.
  unfold compose. unfold path at 1. rewrite in_flat_map. split.
  - intros ([[o1 w1] r1] & Ha & H). apply in_map_iff in H.
    destruct H as ([o2 w2] & Heq & Hb). cbn in *. injection Heq as <- <- <-.
    apply in_full in Hb. exists o1, w1, w2. auto.
  - intros (o1 & w1 & w2 & Ha & Hb & ->). exists (o1, w1, r). split; [assumption|].
    apply in_map_iff. exists (o, w2). split; [reflexivity|]. apply in_full. assumption.
Qed.

Lemma path_difference a b i o w r :
  path (difference a b) i o w r <-> path a i o w r /\ accepts b (consumed i r) = false.
Proof.
  unfold difference. unfold path at 1. rewrite filter_In. cbn.
  rewrite negb_true_iff. reflexivity.
Qed.

Lemma consumed_app (p r : str) : consumed (p ++ r) r = p.
Proof.
  unfold consumed. rewrite length_app.
  replace (List.length p + List.length r - List.length r)%nat with (List.length p) by lia.
  rewrite firstn_app, Nat.sub_diag, firstn_all. simpl. apply app_nil_r.
Qed.

(** *** Closure *)

Lemma star_fuel_inv t n i x :
  In x (star_fuel t n i) ->
  x = ([], 0%Z, i) \/
  exists n' y z, n = S n' /\ In y (t i) /\ (List.length (a_rest y) < List.length i)%nat /\
                 In z (star_fuel t n' (a_rest y)) /\
                 x = (a_out y ++ a_out z, (a_w y + a_w z)%Z, a_rest z).
Proof.
  destruct n as [|n]; simpl.
  - intros [H|[]]; auto.
  - intros [H|H]; [auto|]. right. apply in_flat_map in H.
    destruct H as (y & Hy & H).
    destruct (Nat.ltb_spec (List.length (a_rest y)) (List.length i)) as [Hlt|]; [|contradiction].
    apply in_map_iff in H. destruct H as (z & <- & Hz). exists n, y, z. auto.
Qed.

Lemma star_fuel_step t n i y z :
  In y (t i) -> (List.length (a_rest y) < List.length i)%nat ->
  In z (star_fuel t n (a_rest y)) ->
  In (a_out y ++ a_out z, (a_w y + a_w z)%Z, a_rest z) (star_fuel t (S n) i).
Proof.
  intros Hy Hlt Hz. simpl. right. apply in_flat_map. exists y. split; [assumption|].
  destruct (Nat.ltb_spec (List.length (a_rest y)) (List.length i)); [|lia].
  apply in_map_iff. exists z. auto.
Qed.

Lemma star_fuel_mono t n : forall m i x,
  (n <= m)%nat -> In x (star_fuel t n i) -> In x (star_fuel t m i).
Proof.
  induction n as [|n IH]; intros m i x Hle H.
  - simpl in H. destruct H as [<-|[]]. destruct m; simpl; auto.
  - destruct m as [|m]; [lia|].
    apply star_fuel_inv in H. destruct H as [->|(n' & y & z & E & Hy & Hlt & Hz & ->)].
    + simpl. auto.
    + injection E as <-. apply star_fuel_step; auto. apply IH; [lia | assumption].
Qed.

Lemma closure_nil t i : path (closure t) i [] 0%Z i.
Proof. unfold path, closure. destruct (List.length i); simpl; auto. Qed.

Lemma closure_step t i o1 w1 r1 o2 w2 r :
  path t i o1 w1 r1 -> (List.length r1 < List.length i)%nat ->
  path (closure t) r1 o2 w2 r ->
  path (closure t) i (o1 ++ o2) (w1 + w2)%Z r.
Proof.
  unfold path, closure. intros H1 Hlt H2.
  destruct (List.length i) as [|n] eqn:E; [lia|].
  rewrite <- E in Hlt.
  apply (star_fuel_step t n i (o1, w1, r1) (o2, w2, r)); [assumption | assumption |].
  cbn. apply star_fuel_mono with (n := List.length r1); [lia | assumption].
Qed.

(** Induction over the copies of a closure. *)
Lemma closure_ind t (Q : str -> str -> weight -> str -> Prop) :
  (forall i, Q i [] 0%Z i) ->
  (forall i o1 w1 r1 o2 w2 r,
      path t i o1 w1 r1 -> (List.length r1 < List.length i)%nat ->
      Q r1 o2 w2 r -> Q i (o1 ++ o2) (w1 + w2)%Z r) ->
  forall i o w r, path (closure t) i o w r -> Q i o w r.
Proof.
  intros Hnil Hstep. unfold path, closure.
  assert (G : forall n i x, In x (star_fuel t n i) -> Q i (a_out x) (a_w x) (a_rest x)).
  { induction n as [|n IH]; intros i x H; apply star_fuel_inv in H;
      destruct H as [->|(n' & y & z & E & Hy & Hlt & Hz & ->)]; try apply Hnil.
    - discriminate.
    - injection E as <-. destruct y as [[o1 w1] r1]. cbn in *.
      apply Hstep with (r1 := r1); auto. }
  intros i o w r H. apply (G _ _ _ H).
Qed.

(** *** Bounded repetition *)

Lemma path_upto t e i o w r :
  path (upto t e) i o w r <-> exists n, (n <= e)%nat /\ path (power t n) i o w r.
Proof.
  revert i o w r. induction e as [|e IH]; intros i o w r; simpl.
  - split.
    + intro H. exists 0%nat. split; [lia | exact H].
    + intros (n & Hn & H). assert (n = 0%nat) by lia. subst n. exact H.
  - rewrite path_union. split.
    + intros [H|H].
      * exists 0%nat. split; [lia | exact H].
      * apply path_concat in H. destruct H as (o1 & w1 & r1 & o2 & w2 & H1 & H2 & -> & ->).
        apply IH in H2. destruct H2 as (n & Hn & H2). exists (S n). split; [lia|].
        simpl. apply path_concat. exists o1, w1, r1, o2, w2. auto.
    + intros (n & Hn & H). destruct n as [|n]; [left; exact H | right].
      simpl in H. apply path_concat in H.
      destruct H as (o1 & w1 & r1 & o2 & w2 & H1 & H2 & -> & ->).
      apply path_concat. exists o1, w1, r1, o2, w2. repeat split; auto.
      apply IH. exists n. split; [lia | exact H2].
Qed.

Lemma path_power_add t n m i o w r :
  path (concat (power t n) (power t m)) i o w r <-> path (power t (n + m)) i o w r.
Proof.
  revert i o w r. induction n as [|n IH]; intros i o w r; simpl.
  - rewrite path_concat. split.
    + intros (o1 & w1 & r1 & o2 & w2 & H1 & H2 & -> & ->).
      apply path_epsilon in H1. destruct H1 as (-> & -> & ->). exact H2.
    + intro H. exists [], 0%Z, i, o, w. repeat split; auto. apply path_epsilon. auto.
  - rewrite !path_concat. split.
    + intros (o1 & w1 & r1 & o2 & w2 & H1 & H2 & -> & ->).
      apply path_concat in H1. destruct H1 as (o3 & w3 & r3 & o4 & w4 & H3 & H4 & -> & ->).
      exists o3, w3, r3, (o4 ++ o2), (w4 + w2)%Z. repeat split; auto.
      * apply IH. apply path_concat. exists o4, w4, r1, o2, w2. auto.
      * symmetry. apply app_assoc.
      * lia.
    + intros (o1 & w1 & r1 & o2 & w2 & H1 & H2 & -> & ->).
      apply IH in H2. apply path_concat in H2.
      destruct H2 as (o3 & w3 & r3 & o4 & w4 & H3 & H4 & -> & ->).
      exists (o1 ++ o3), (w1 + w3)%Z, r3, o4, w4. repeat split; auto.
      * apply path_concat. exists o1, w1, r1, o3, w3. auto.
      * apply app_assoc.
      * lia.
Qed.

Lemma path_closure_range t lo hi i o w r :
  path (closure_range t lo hi) i o w r <->
  exists n, (lo <= n <= lo + (hi - lo))%nat /\ path (power t n) i o w r.
Proof.
  unfold closure_range. rewrite path_concat. split.
  - intros (o1 & w1 & r1 & o2 & w2 & H1 & H2 & -> & ->).
    apply path_upto in H2. destruct H2 as (m & Hm & H2). exists (lo + m)%nat.
    split; [lia|]. apply path_power_add. apply path_concat. exists o1, w1, r1, o2, w2. auto.
  - intros (n & Hn & H). replace n with (lo + (n - lo))%nat in H by lia.
    apply path_power_add in H. apply path_concat in H.
    destruct H as (o1 & w1 & r1 & o2 & w2 & H1 & H2 & -> & ->).
    exists o1, w1, r1, o2, w2. repeat split; auto.
    apply path_upto. exists (n - lo)%nat. split; [lia | exact H2].
Qed.

(** *** Closures of single characters *)

Lemma closure_reads_word t w r :
  (forall c r', In c w -> path t (c :: r') [c] 0%Z r') ->
  path (closure t) (w ++ r) w 0%Z r.
Proof.
  induction w as [|c w IH]; intro H; simpl.
  - apply closure_nil.
  - change (path (closure t) (c :: w ++ r) ([c] ++ w) (0 + 0)%Z r).
    apply closure_step with (r1 := w ++ r).
    + apply H. left. reflexivity.
    + simpl. lia.
    + apply IH. intros c' r' Hin. apply H. right. exact Hin.
Qed.

Lemma closure_from_reads_word t w r :
  w <> [] -> (forall c r', In c w -> path t (c :: r') [c] 0%Z r') ->
  path (closure_from t 1) (w ++ r) w 0%Z r.
Proof.
  intros Hne H. destruct w as [|c w]; [congruence|]. unfold closure_from. simpl.
  apply path_concat. exists [c], 0%Z, (w ++ r), w, 0%Z. repeat split.
  - apply path_concat. exists [c], 0%Z, (w ++ r), [], 0%Z. repeat split.
    + apply H. left. reflexivity.
    + apply path_epsilon. auto.
  - apply closure_reads_word. intros c' r' Hin. apply H. right. exact Hin.
Qed.

Lemma difference_class_char p X c :
  accepts (difference (char_class p) X) [c] = true ->
  forall r, path (difference (char_class p) X) (c :: r) [c] 0%Z r.
Proof.
  intros H r. apply accepts_true in H. destruct H as (o & w & H).
  apply path_difference in H. destruct H as [H1 H2].
  apply path_char_class in H1. destruct H1 as (c' & E & Hp & _ & _). injection E as <-.
  change [c] with ([c] ++ []) in H2 at 1. rewrite consumed_app in H2.
  apply path_difference. split.
  - apply path_char_class. exists c. auto.
  - change (c :: r) with ([c] ++ r). rewrite consumed_app. exact H2.
Qed.

(** *** Shortest paths *)

Lemma shortest_selected t i o : In o (shortest t i) -> selected t i o.
Proof.
  unfold shortest, selected. destruct (full t i) as [|[o0 w0] l] eqn:E; [contradiction|].
  cbn [min_weight]. set (m := fold_left Z.min (List.map snd l) (snd (o0, w0))).
  intro H. apply in_map_iff in H. destruct H as ([o' w'] & <- & H).
  apply filter_In in H. destruct H as [Hin Hm]. cbn in Hm. apply Z.eqb_eq in Hm.
  exists w'. split; [assumption|]. intros o2 w2 H2. rewrite Hm.
  assert (G : forall l a x, In x l -> (fold_left Z.min l a <= x)%Z).
  { clear. induction l as [|y l IH]; intros a x; [contradiction|]. simpl.
    assert (A : forall l a, (fold_left Z.min l a <= a)%Z).
    { clear. induction l as [|y l IH]; intro a; simpl; [lia|].
      specialize (IH (Z.min a y)). lia. }
    intros [->|Hx]; [|apply IH; assumption].
    specialize (A l (Z.min a x)). lia. }
  assert (A : forall l a, (fold_left Z.min l a <= a)%Z).
  { clear. induction l as [|y l IH]; intro a; simpl; [lia|].
    specialize (IH (Z.min a y)). lia. }
  destruct H2 as [H2|H2].
  - injection H2 as <- <-. apply A.
  - apply G. apply in_map_iff. exists (o2, w2). auto.
Qed.

Lemma selected_exists t i o w : path t i o w [] -> exists o', selected t i o'.
Proof.
  intro H. apply in_full in H. unfold path.
  destruct (shortest t i) as [|o' l] eqn:E.
  - exfalso. unfold shortest in E. destruct (full t i) as [|x l] eqn:F; [contradiction|].
    cbn [min_weight] in E.
    set (m := fold_left Z.min (List.map snd l) (snd x)) in E.
    assert (M : exists y, In y (x :: l) /\ snd y = m).
    { subst m. clear. revert x. induction l as [|y l IH]; intro x; simpl.
      - exists x. auto.
      - destruct (IH (if Z.leb (snd x) (snd y) then x else y)) as (z & Hz & Ez).
        exists z. split.
        + destruct Hz as [<-|Hz]; [destruct (Z.leb (snd x) (snd y)); auto | auto].
        + rewrite Ez. f_equal.
          destruct (Z.leb_spec (snd x) (snd y)); lia. }
    destruct M as (y & Hy & Ey).
    assert (In (fst y) (List.map fst (filter (fun x0 => Z.eqb (snd x0) m) (x :: l)))).
    { apply in_map. apply filter_In. split; [assumption | apply Z.eqb_eq; assumption]. }
    rewrite E in H0. contradiction.
  - exists o'. apply shortest_selected. rewrite E. left. reflexivity.
Qed.

(** *** Paths found by evaluation *)

Lemma str_eqb_true a b : str_eqb a b = true -> a = b.
Proof. unfold str_eqb. destruct (list_eq_dec N.eq_dec a b); congruence. Qed.

Lemma path_found t i o w :
  existsb (fun x => str_eqb (fst x) o && Z.eqb (snd x) w) (full t i) = true ->
  path t i o w [].
Proof.
  intro H. apply existsb_exists in H. destruct H as ([o' w'] & Hin & H).
  apply andb_prop in H. destruct H as [Ho Hw]. cbn in Ho, Hw.
  apply str_eqb_true in Ho. apply Z.eqb_eq in Hw. subst. apply in_full. exact Hin.
Qed.

Lemma selected_found t i o : existsb (str_eqb o) (shortest t i) = true -> selected t i o.
Proof.
  intro H. apply existsb_exists in H. destruct H as (o' & Hin & H).
  apply str_eqb_true in H. subst. apply shortest_selected. exact Hin.
Qed.

(** An output is not selected when a lighter path writes something else. *)
Lemma not_selected t i o m :
  existsb (fun x => Z.eqb (snd x) m) (full t i) = true ->
  forallb (fun x => negb (str_eqb (fst x) o) || Z.ltb m (snd x)) (full t i) = true ->
  ~ selected t i o.
Proof.
  intros Hm Hall (w & Hin & Hmin). rewrite forallb_forall in Hall.
  specialize (Hall _ Hin). cbn in Hall.
  apply existsb_exists in Hm. destruct Hm as ([o' m'] & Hm & E). cbn in E.
  apply Z.eqb_eq in E. subst m'. specialize (Hmin _ _ Hm).
  unfold str_eqb in Hall. destruct (list_eq_dec N.eq_dec o o); [|congruence].
  cbn in Hall. apply Z.ltb_lt in Hall. lia.
Qed.

End PyniniFacts.

(** ** What a transducer reads *)

Module Reads.
Import Pynini PyniniFacts.

Lemma reads_weaken t (R R' : str -> Prop) :
  reads t R -> (forall p, R p -> R' p) -> reads t R'.
Proof.
  intros H HR i o w r Hp. destruct (H _ _ _ _ Hp) as (p & -> & Hr). eauto.
Qed.

Lemma reads_wf t R : reads t R -> wf t.
Proof. intro H. apply reads_weaken with (R := R); auto. Qed.

Lemma reads_full t R i o w : reads t R -> path t i o w [] -> R i.
Proof.
  intros H Hp. destruct (H _ _ _ _ Hp) as (p & -> & Hr). rewrite app_nil_r. assumption.
Qed.

Lemma reads_cross_str a b (R : str -> Prop) : R a -> reads (cross_str a b) R.
Proof. intros Ha i o w r H. apply path_cross_str in H. destruct H as (-> & _). eauto. Qed.

Lemma reads_accep s (R : str -> Prop) : R s -> reads (accep s) R.
Proof. apply reads_cross_str. Qed.

Lemma reads_insert s (R : str -> Prop) : R [] -> reads (insert s) R.
Proof. apply reads_cross_str. Qed.

Lemma reads_epsilon (R : str -> Prop) : R [] -> reads epsilon R.
Proof. intros H0 i o w r H. apply path_epsilon in H. destruct H as (-> & _). exists []. auto. Qed.

Lemma reads_null R : reads null R.
Proof. intros i o w r H. apply path_null in H. contradiction. Qed.

Lemma reads_char_class p (R : str -> Prop) :
  (forall c, p c = true -> R [c]) -> reads (char_class p) R.
Proof.
  intros Hc i o w r H. apply path_char_class in H.
  destruct H as (c & -> & Hp & _). exists [c]. auto.
Qed.

Lemma reads_union a b R : reads a R -> reads b R -> reads (union a b) R.
Proof. intros Ha Hb i o w r H. apply path_union in H. destruct H; eauto. Qed.

Lemma reads_union_list l R : (forall t, In t l -> reads t R) -> reads (union_list l) R.
Proof.
  intros Hl i o w r H. apply path_union_list in H. destruct H as (t & Hin & H).
  exact (Hl t Hin _ _ _ _ H).
Qed.

Lemma reads_concat a b (Ra Rb R : str -> Prop) :
  reads a Ra -> reads b Rb -> (forall p q, Ra p -> Rb q -> R (p ++ q)) ->
  reads (concat a b) R.
Proof.
  intros Ha Hb HR i o w r H. apply path_concat in H.
  destruct H as (o1 & w1 & r1 & o2 & w2 & H1 & H2 & _).
  destruct (Ha _ _ _ _ H1) as (p & -> & Hp). destruct (Hb _ _ _ _ H2) as (p' & -> & Hq).
  exists (p ++ p'). split; [apply app_assoc | auto].
Qed.

Lemma reads_delete t R : reads t R -> reads (delete t) R.
Proof. intros Ht i o w r H. apply path_delete in H. destruct H as (_ & o' & H). eauto. Qed.

Lemma reads_add_weight t k R : reads t R -> reads (add_weight t k) R.
Proof. intros Ht i o w r H. apply path_add_weight in H. destruct H as (w' & H & _). eauto. Qed.

Lemma reads_cross t s R : reads t R -> reads (cross t s) R.
Proof. intros Ht i o w r H. apply path_cross in H. destruct H as (_ & o' & H). eauto. Qed.

Lemma reads_project_input t R : reads t R -> reads (project_input t) R.
Proof.
  intros Ht i o w r H. apply path_project_input in H. destruct H as (_ & o' & H). eauto.
Qed.

Lemma reads_string_map t (R : str -> Prop) :
  (forall k v, In (k, v) t -> R k) -> reads (string_map t) R.
Proof.
  intros Ht i o w r H. apply path_string_map in H. destruct H as (k & Hin & -> & _). eauto.
Qed.

Lemma reads_compose a b R : reads a R -> reads (compose a b) R.
Proof.
  intros Ha i o w r H. apply path_compose in H. destruct H as (o1 & w1 & w2 & H & _). eauto.
Qed.

Lemma reads_difference a b R : reads a R -> reads (difference a b) R.
Proof. intros Ha i o w r H. apply path_difference in H. destruct H as (H & _). eauto. Qed.

Lemma reads_optimize t R : reads t R -> reads (optimize t) R.
Proof. auto. Qed.

Lemma reads_closure t (R : str -> Prop) :
  reads t R -> R [] -> (forall p q, R p -> R q -> R (p ++ q)) -> reads (closure t) R.
Proof.
  intros Ht H0 Happ i o w r H. revert i o w r H. apply closure_ind.
  - intro i. exists []. auto.
  - intros i o1 w1 r1 o2 w2 r H1 _ (q & -> & Hq).
    destruct (Ht _ _ _ _ H1) as (p & -> & Hp). exists (p ++ q). split; [apply app_assoc | auto].
Qed.

Lemma reads_power t (R : str -> Prop) n :
  reads t R -> R [] -> (forall p q, R p -> R q -> R (p ++ q)) -> reads (power t n) R.
Proof.
  intros Ht H0 Happ. induction n as [|n IH]; simpl.
  - apply reads_epsilon. assumption.
  - apply reads_concat with (Ra := R) (Rb := R); auto.
Qed.

Lemma reads_upto t (R : str -> Prop) n :
  reads t R -> R [] -> (forall p q, R p -> R q -> R (p ++ q)) -> reads (upto t n) R.
Proof.
  intros Ht H0 Happ. induction n as [|n IH]; simpl.
  - apply reads_epsilon. assumption.
  - apply reads_union; [apply reads_epsilon; assumption|].
    apply reads_concat with (Ra := R) (Rb := R); auto.
Qed.

Lemma reads_closure_range t (R : str -> Prop) lo hi :
  reads t R -> R [] -> (forall p q, R p -> R q -> R (p ++ q)) ->
  reads (closure_range t lo hi) R.
Proof.
  intros Ht H0 Happ. unfold closure_range.
  apply reads_concat with (Ra := R) (Rb := R); auto using reads_power, reads_upto.
Qed.

Lemma reads_closure_from t (R : str -> Prop) lo :
  reads t R -> R [] -> (forall p q, R p -> R q -> R (p ++ q)) ->
  reads (closure_from t lo) R.
Proof.
  intros Ht H0 Happ. unfold closure_from.
  apply reads_concat with (Ra := R) (Rb := R); auto using reads_power, reads_closure.
Qed.

(** *** Well-formedness, by structure *)

Lemma wf_concat a b : wf a -> wf b -> wf (concat a b).
Proof. intros Ha Hb. apply reads_concat with (Ra := fun _ => True) (Rb := fun _ => True); auto. Qed.

Lemma wf_union a b : wf a -> wf b -> wf (union a b).
Proof. apply reads_union. Qed.

Lemma wf_cross_str a b : wf (cross_str a b).
Proof. apply reads_cross_str. exact I. Qed.

Lemma wf_accep s : wf (accep s).
Proof. apply wf_cross_str. Qed.

Lemma wf_insert s : wf (insert s).
Proof. apply wf_cross_str. Qed.

Lemma wf_epsilon : wf epsilon.
Proof. apply reads_epsilon. exact I. Qed.

Lemma wf_null : wf null.
Proof. apply reads_null. Qed.

Lemma wf_char_class p : wf (char_class p).
Proof. apply reads_char_class. auto. Qed.

Lemma wf_string_map t : wf (string_map t).
Proof. apply reads_string_map. auto. Qed.

Lemma wf_delete t : wf t -> wf (delete t).
Proof. apply reads_delete. Qed.

Lemma wf_add_weight t k : wf t -> wf (add_weight t k).
Proof. apply reads_add_weight. Qed.

Lemma wf_cross t s : wf t -> wf (cross t s).
Proof. apply reads_cross. Qed.

Lemma wf_project_input t : wf t -> wf (project_input t).
Proof. apply reads_project_input. Qed.

Lemma wf_compose a b : wf a -> wf (compose a b).
Proof. apply reads_compose. Qed.

Lemma wf_difference a b : wf a -> wf (difference a b).
Proof. apply reads_difference. Qed.

Lemma wf_closure t : wf t -> wf (closure t).
Proof. intro H. apply reads_closure; auto. Qed.

Lemma wf_closure_range t lo hi : wf t -> wf (closure_range t lo hi).
Proof. intro H. apply reads_closure_range; auto. Qed.

Lemma wf_closure_from t lo : wf t -> wf (closure_from t lo).
Proof. intro H. apply reads_closure_from; auto. Qed.

Lemma wf_optimize t : wf t -> wf (optimize t).
Proof. auto. Qed.

Create HintDb wf.
#[export] Hint Resolve wf_concat wf_union wf_cross_str wf_accep wf_insert wf_epsilon wf_null
  wf_char_class wf_string_map wf_delete wf_add_weight wf_cross wf_project_input
  wf_compose wf_difference wf_closure wf_closure_range wf_closure_from wf_optimize : wf.

(** *** Reading a given character somewhere *)

Lemma somewhere_left Q p q : somewhere Q p -> somewhere Q (p ++ q).
Proof. unfold somewhere. rewrite Exists_app. auto. Qed.

Lemma somewhere_right Q p q : somewhere Q q -> somewhere Q (p ++ q).
Proof. unfold somewhere. rewrite Exists_app. auto. Qed.

Lemma reads_somewhere_left a b Q :
  reads a (somewhere Q) -> wf b -> reads (concat a b) (somewhere Q).
Proof.
  intros Ha Hb. apply reads_concat with (Ra := somewhere Q) (Rb := fun _ => True); auto.
  intros. apply somewhere_left. assumption.
Qed.

Lemma reads_somewhere_right a b Q :
  wf a -> reads b (somewhere Q) -> reads (concat a b) (somewhere Q).
Proof.
  intros Ha Hb. apply reads_concat with (Ra := fun _ => True) (Rb := somewhere Q); auto.
  intros. apply somewhere_right. assumption.
Qed.

Lemma nowhere_no_path t Q s o w :
  reads t (somewhere Q) -> Forall (fun c => ~ Q c) s -> ~ path t s o w [].
Proof.
  intros Ht Hs Hp. destruct (Ht _ _ _ _ Hp) as (p & E & Hq).
  rewrite app_nil_r in E. subst p. unfold somewhere in Hq. clear Hp. rename Hq into Hp.
  apply Exists_exists in Hp. destruct Hp as (c & Hin & Hq).
  rewrite Forall_forall in Hs. exact (Hs c Hin Hq).
Qed.

End Reads.

(** ** What a transducer weighs *)

Module Weights.
Import Pynini PyniniFacts.

Section Bound.

(** A set of weights that holds zero and is closed under the sum. *)
Variable P : weight -> Prop.
Hypothesis P_zero : P 0%Z.
Hypothesis P_plus : forall x y, P x -> P y -> P (x + y)%Z.

Lemma weighs_cross_str a b : weighs_in (cross_str a b) P.
Proof. intros i o w r H. apply path_cross_str in H. destruct H as (_ & _ & ->). exact P_zero. Qed.

Lemma weighs_accep s : weighs_in (accep s) P.
Proof. apply weighs_cross_str. Qed.

Lemma weighs_insert s : weighs_in (insert s) P.
Proof. apply weighs_cross_str. Qed.

Lemma weighs_epsilon : weighs_in epsilon P.
Proof. intros i o w r H. apply path_epsilon in H. destruct H as (_ & _ & ->). exact P_zero. Qed.

Lemma weighs_null : weighs_in null P.
Proof. intros i o w r H. apply path_null in H. contradiction. Qed.

Lemma weighs_char_class p : weighs_in (char_class p) P.
Proof.
  intros i o w r H. apply path_char_class in H. destruct H as (c & _ & _ & _ & ->).
  exact P_zero.
Qed.

Lemma weighs_string_map t : weighs_in (string_map t) P.
Proof.
  intros i o w r H. apply path_string_map in H. destruct H as (k & _ & _ & ->). exact P_zero.
Qed.

Lemma weighs_union a b : weighs_in a P -> weighs_in b P -> weighs_in (union a b) P.
Proof. intros Ha Hb i o w r H. apply path_union in H. destruct H; eauto. Qed.

Lemma weighs_concat a b : weighs_in a P -> weighs_in b P -> weighs_in (concat a b) P.
Proof.
  intros Ha Hb i o w r H. apply path_concat in H.
  destruct H as (o1 & w1 & r1 & o2 & w2 & H1 & H2 & _ & ->). eauto.
Qed.

Lemma weighs_delete t : weighs_in t P -> weighs_in (delete t) P.
Proof. intros Ht i o w r H. apply path_delete in H. destruct H as (_ & o' & H). eauto. Qed.

Lemma weighs_cross t s : weighs_in t P -> weighs_in (cross t s) P.
Proof. intros Ht i o w r H. apply path_cross in H. destruct H as (_ & o' & H). eauto. Qed.

Lemma weighs_project_input t : weighs_in t P -> weighs_in (project_input t) P.
Proof.
  intros Ht i o w r H. apply path_project_input in H. destruct H as (_ & o' & H). eauto.
Qed.

Lemma weighs_difference a b : weighs_in a P -> weighs_in (difference a b) P.
Proof. intros Ha i o w r H. apply path_difference in H. destruct H as (H & _). eauto. Qed.

Lemma weighs_compose a b : weighs_in a P -> weighs_in b P -> weighs_in (compose a b) P.
Proof.
  intros Ha Hb i o w r H. apply path_compose in H.
  destruct H as (o1 & w1 & w2 & H1 & H2 & ->). eauto.
Qed.

Lemma weighs_add_weight t k : weighs_in t P -> P k -> weighs_in (add_weight t k) P.
Proof.
  intros Ht Hk i o w r H. apply path_add_weight in H. destruct H as (w' & H & ->). eauto.
Qed.

Lemma weighs_optimize t : weighs_in t P -> weighs_in (optimize t) P.
Proof. auto. Qed.

Lemma weighs_closure t : weighs_in t P -> weighs_in (closure t) P.
Proof.
  intros Ht i o w r H. revert i o w r H.
  apply closure_ind with (Q := fun (_ _ : str) w (_ : str) => P w); eauto.
Qed.

Lemma weighs_power t n : weighs_in t P -> weighs_in (power t n) P.
Proof.
  intro Ht. induction n as [|n IH]; simpl;
    [apply weighs_epsilon | apply weighs_concat; assumption].
Qed.

Lemma weighs_upto t n : weighs_in t P -> weighs_in (upto t n) P.
Proof.
  intro Ht. induction n as [|n IH]; simpl; [apply weighs_epsilon|].
  apply weighs_union; [apply weighs_epsilon | apply weighs_concat; assumption].
Qed.

Lemma weighs_closure_range t lo hi : weighs_in t P -> weighs_in (closure_range t lo hi) P.
Proof.
  intro Ht. unfold closure_range. apply weighs_concat; [apply weighs_power | apply weighs_upto];
    assumption.
Qed.

Lemma weighs_closure_from t lo : weighs_in t P -> weighs_in (closure_from t lo) P.
Proof.
  intro Ht. unfold closure_from. apply weighs_concat; [apply weighs_power | apply weighs_closure];
    assumption.
Qed.

End Bound.

(** Structural proof search, on the syntax of the graph only. *)
Ltac side := try solve [cbv beta; intros; subst; lia].

Ltac weigh :=
  repeat
    lazymatch goal with
    | |- weightless _ => unfold weightless
    | |- nonnegative _ => unfold nonnegative
    | |- weighs_in (concat _ _) _ => apply weighs_concat; side
    | |- weighs_in (union _ _) _ => apply weighs_union; side
    | |- weighs_in (insert _) _ => apply weighs_insert; side
    | |- weighs_in (accep _) _ => apply weighs_accep; side
    | |- weighs_in (cross_str _ _) _ => apply weighs_cross_str; side
    | |- weighs_in epsilon _ => apply weighs_epsilon; side
    | |- weighs_in null _ => apply weighs_null
    | |- weighs_in (char_class _) _ => apply weighs_char_class; side
    | |- weighs_in (string_map _) _ => apply weighs_string_map; side
    | |- weighs_in (delete _) _ => apply weighs_delete
    | |- weighs_in (cross _ _) _ => apply weighs_cross
    | |- weighs_in (project_input _) _ => apply weighs_project_input
    | |- weighs_in (difference _ _) _ => apply weighs_difference
    | |- weighs_in (compose _ _) _ => apply weighs_compose; side
    | |- weighs_in (optimize _) _ => unfold optimize
    | |- weighs_in (closure _) _ => apply weighs_closure; side
    | |- weighs_in (closure_range _ _ _) _ => apply weighs_closure_range; side
    | |- weighs_in (closure_from _ _) _ => apply weighs_closure_from; side
    | |- weighs_in (add_weight _ _) _ => apply weighs_add_weight; side
    | |- _ => fail
    end.

Lemma weighs_empty t P : empty t -> weighs_in t P.
Proof. intros He i o w r H. destruct (He _ _ _ _ H). Qed.

Lemma empty_concat_right a b : empty b -> empty (concat a b).
Proof.
  intros He i o w r H. apply path_concat in H.
  destruct H as (o1 & w1 & r1 & o2 & w2 & _ & H & _). exact (He _ _ _ _ H).
Qed.

Lemma empty_add_weight t k : empty t -> empty (add_weight t k).
Proof.
  intros He i o w r H. apply path_add_weight in H. destruct H as (w' & H & _).
  exact (He _ _ _ _ H).
Qed.

End Weights.

(** ** The punctuation post-processor *)

Module PostProcessingFacts.
Import Pynini PyniniFacts PostProcessingFst PostProcessingSpec.

Lemma str_eqb_eq a b : str_eqb a b = true <-> a = b.
Proof. unfold str_eqb. destruct (list_eq_dec N.eq_dec a b); split; congruence. Qed.

Lemma py_in_In m l : py_in m l = true <-> In m l.
Proof.
  unfold py_in. rewrite existsb_exists. split.
  - intros (x & Hin & E). apply str_eqb_eq in E. subst. assumption.
  - intro H. exists m. split; [assumption | apply str_eqb_eq; reflexivity].
Qed.

Lemma existsb_eqb_In c l : existsb (N.eqb c) l = true <-> In c l.
Proof.
  rewrite existsb_exists. split.
  - intros (x & Hin & E). apply N.eqb_eq in E. subst. assumption.
  - intro H. exists c. split; [assumption | apply N.eqb_refl].
Qed.

Section Graph.

Variable punct_marks_all : list str.
Variable MIN_NEG_WEIGHT : weight.

(** What the source relies on: the marks are single characters, the space
    is not one of them, and neither is the raw opening square bracket
    (pynini would not compile it). *)
Hypothesis marks_single : forall m, In m punct_marks_all -> exists c, m = [c].
Hypothesis marks_no_space : ~ In [space] punct_marks_all.
Hypothesis marks_no_bracket : ~ In [91%N] punct_marks_all.
Hypothesis weight_negative : (MIN_NEG_WEIGHT < 0)%Z.

#[local] Abbreviation P := (closes_up punct_marks_all).
#[local] Abbreviation marks := (no_space_before_punct_list punct_marks_all).

Lemma allow_list :
  allow_space_before_punct
  = [[39]; [34]; [171]; [45]; [8212]; [60]; [123]; [40]; [92; 91]]%N.
Proof. reflexivity. Qed.

Lemma in_marks c : In [c] marks <-> P c = true.
Proof.
  unfold no_space_before_punct_list, closes_up.
  rewrite nodup_In, in_app_iff, filter_In, negb_true_iff, andb_true_iff, orb_true_iff.
  rewrite py_in_In, negb_true_iff.
  assert (A : py_in [c] allow_space_before_punct = true <->
              In c [39; 34; 171; 45; 8212; 60; 123; 40]%N).
  { rewrite py_in_In, allow_list. simpl.
    split; intro H; repeat (destruct H as [H|H]; [try injection H as H; try discriminate; subst; tauto|]);
      try contradiction. }
  assert (B : (is_quote c || is_dash c || is_open_bracket c) = true <->
              In c [39; 34; 171; 45; 8212; 60; 123; 40; 91]%N).
  { unfold is_quote, is_dash, is_open_bracket.
    rewrite <- !existsb_app. apply existsb_eqb_In. }
  assert (C : In [c] [u "।"; u ","; u "."; u ";"; u ":"; u "!"; u "?"] <-> is_sentence_mark c = true).
  { unfold is_sentence_mark. rewrite existsb_eqb_In.
    change [u "।"; u ","; u "."; u ";"; u ":"; u "!"; u "?"]
      with [[2404]; [44]; [46]; [59]; [58]; [33]; [63]]%N.
    simpl. split; intro H;
      repeat (destruct H as [H|H]; [try injection H as H; subst; tauto|]); contradiction. }
  rewrite C. clear C.
  destruct (py_in [c] allow_space_before_punct) eqn:Ea.
  - assert (Hc : In c [39; 34; 171; 45; 8212; 60; 123; 40]%N) by (apply A; reflexivity).
    assert (Hex : (is_quote c || is_dash c || is_open_bracket c) = true).
    { apply B.
      change [39; 34; 171; 45; 8212; 60; 123; 40; 91]%N
        with ([39; 34; 171; 45; 8212; 60; 123; 40] ++ [91])%N.
      apply in_or_app. left. exact Hc. }
    rewrite Hex. split.
    + intros [[_ H]|H]; [discriminate|].
      exfalso. unfold is_sentence_mark in H. apply existsb_eqb_In in H.
      simpl in Hc, H.
      repeat (destruct Hc as [Hc|Hc]; [subst c; repeat (destruct H as [H|H]; [discriminate|]); contradiction|]).
      contradiction.
    + intros [_ H]. discriminate.
  - destruct (is_quote c || is_dash c || is_open_bracket c) eqn:Ex.
    + assert (Hc : In c [39; 34; 171; 45; 8212; 60; 123; 40; 91]%N) by (apply B; reflexivity).
      assert (c = 91%N).
      { simpl in Hc.
        repeat (destruct Hc as [Hc|Hc];
                [try (symmetry; exact Hc);
                 exfalso;
                 assert (false = true) by (apply A; subst c; simpl; tauto);
                 discriminate|]).
        contradiction. }
      subst c. split.
      * intros [[H _]|H]; [contradiction | discriminate].
      * intros [_ H]. discriminate.
    + split.
      * intros [[H _]|H]; split; auto.
      * intros [[H|H] _]; auto.
Qed.

Lemma marks_are_single m : In m marks -> exists c, m = [c].
Proof.
  unfold no_space_before_punct_list. rewrite nodup_In, in_app_iff, filter_In.
  intros [[H _]|H]; [apply marks_single; assumption|].
  change [u "।"; u ","; u "."; u ";"; u ":"; u "!"; u "?"]
    with [[2404]; [44]; [46]; [59]; [58]; [33]; [63]]%N in H.
  simpl in H. repeat (destruct H as [<-|H]; [eauto|]). contradiction.
Qed.

Lemma not_space_mark : P space = false.
Proof.
  unfold closes_up. destruct (py_in [space] punct_marks_all) eqn:E.
  - apply py_in_In in E. contradiction.
  - reflexivity.
Qed.

Lemma pynini_str_single c : pynini_str [c] = [c].
Proof. simpl. destruct (N.eqb c 92); reflexivity. Qed.

Lemma path_union_strs l i o w r :
  (forall m, In m l -> exists c, m = [c]) ->
  path (union_strs l) i o w r <-> exists c, In [c] l /\ i = c :: r /\ o = [c] /\ w = 0%Z.
Proof.
  intro Hs. unfold union_strs. rewrite path_union_list. split.
  - intros (t & Hin & Hp). apply in_map_iff in Hin. destruct Hin as (m & <- & Hm).
    destruct (Hs m Hm) as (c & ->). rewrite pynini_str_single in Hp. apply path_accep in Hp.
    destruct Hp as (-> & -> & ->). exists c. auto.
  - intros (c & Hin & -> & -> & ->). exists (accep (pynini_str [c])). split.
    + apply in_map_iff. exists [c]. auto.
    + rewrite pynini_str_single. apply path_accep. auto.
Qed.

Lemma path_mark i o w r :
  path (no_space_before_punct punct_marks_all) i o w r
  <-> exists c, i = c :: r /\ P c = true /\ o = [c] /\ w = 0%Z.
Proof.
  unfold no_space_before_punct. rewrite path_union_strs by apply marks_are_single.
  split; intros (c & H); exists c; rewrite in_marks in *; tauto.
Qed.

Lemma accepts_mark c : accepts (no_space_before_punct punct_marks_all) [c] = P c.
Proof.
  destruct (P c) eqn:E.
  - apply accepts_true. exists [c], 0%Z. apply path_mark. exists c. auto.
  - apply accepts_false. intros o w H. apply path_mark in H.
    destruct H as (c' & Heq & Hc & _). injection Heq as <-. congruence.
Qed.

Lemma path_non_punct i o w r :
  path (non_punct punct_marks_all) i o w r
  <-> exists c, i = c :: r /\ P c = false /\ o = [c] /\ w = 0%Z.
Proof.
  unfold non_punct, optimize, GraphUtils.NEMO_CHAR.
  rewrite path_difference, path_char_class. split.
  - intros ((c & -> & _ & -> & ->) & H).
    change (c :: r) with ([c] ++ r) in H. rewrite consumed_app, accepts_mark in H.
    exists c. auto.
  - intros (c & -> & H & -> & ->). split; [exists c; auto|].
    change (c :: r) with ([c] ++ r). rewrite consumed_app, accepts_mark. assumption.
Qed.

Lemma path_delete_one_space i o w r :
  path delete_space i o w r <-> i = space :: r /\ o = [] /\ w = 0%Z.
Proof.
  unfold delete_space. rewrite path_delete. split.
  - intros (-> & o' & H). apply path_accep in H. destruct H as (-> & _ & ->). auto.
  - intros (-> & -> & ->). split; [reflexivity|]. exists (u " "). apply path_accep. auto.
Qed.


(** *** The first pass: every path is a removal, and the removal of every
    space that stands before a mark is the lightest. *)

Lemma removal_trans i o1 k1 r1 o2 k2 r2 :
  removal P i o1 k1 r1 -> removal P r1 o2 k2 r2 ->
  removal P i (o1 ++ o2) (k1 + k2) r2.
Proof.
  intros H1 H2. induction H1; simpl; [assumption | |];
    constructor; auto.
Qed.

#[local] Abbreviation weighs := (PostProcessingSpec.weighs P MIN_NEG_WEIGHT).

Lemma weighs_nil i : weighs i [] 0%Z i.
Proof. exists 0%nat. split; [constructor | reflexivity]. Qed.

Lemma weighs_trans i o1 w1 r1 o2 w2 r2 :
  weighs i o1 w1 r1 -> weighs r1 o2 w2 r2 -> weighs i (o1 ++ o2) (w1 + w2)%Z r2.
Proof.
  intros (k1 & H1 & ->) (k2 & H2 & ->). exists (k1 + k2)%nat. split.
  - apply removal_trans with (r1 := r1); assumption.
  - lia.
Qed.

Lemma weighs_keep c r : weighs (c :: r) [c] 0%Z r.
Proof. exists 0%nat. split; [repeat constructor | reflexivity]. Qed.

Lemma weighs_drop p r : P p = true -> weighs (space :: p :: r) [p] MIN_NEG_WEIGHT r.
Proof.
  intro Hp. exists 1%nat. split; [repeat constructor; assumption | lia].
Qed.

#[local] Abbreviation mark_or_spaced :=
  (union (no_space_before_punct punct_marks_all)
     (add_weight (concat delete_space (no_space_before_punct punct_marks_all)) MIN_NEG_WEIGHT)).

#[local] Abbreviation block :=
  (concat (closure (non_punct punct_marks_all))
     (concat (closure mark_or_spaced) (closure (non_punct punct_marks_all)))).

Lemma path_mark_or_spaced i o w r :
  path mark_or_spaced i o w r <->
  (exists c, i = c :: r /\ P c = true /\ o = [c] /\ w = 0%Z) \/
  (exists p, i = space :: p :: r /\ P p = true /\ o = [p] /\ w = MIN_NEG_WEIGHT).
Proof.
  rewrite path_union, path_mark, path_add_weight. split.
  - intros [H|(w' & H & ->)]; [left; assumption | right].
    apply path_concat in H. destruct H as (o1 & w1 & r1 & o2 & w2 & H1 & H2 & -> & ->).
    apply path_delete_one_space in H1. destruct H1 as (-> & -> & ->).
    apply path_mark in H2. destruct H2 as (p & -> & Hp & -> & ->).
    exists p. auto.
  - intros [H|(p & -> & Hp & -> & ->)]; [left; assumption | right].
    exists 0%Z. split; [|reflexivity]. apply path_concat.
    exists [], 0%Z, (p :: r), [p], 0%Z. repeat split.
    + apply path_delete_one_space. auto.
    + apply path_mark. exists p. auto.
Qed.

Lemma sound_non_punct_star i o w r :
  path (closure (non_punct punct_marks_all)) i o w r -> weighs i o w r.
Proof.
  apply closure_ind; [apply weighs_nil|].
  intros j o1 w1 r1 o2 w2 r' H _ IH. apply path_non_punct in H.
  destruct H as (c & -> & _ & -> & ->).
  apply weighs_trans with (r1 := r1); [apply weighs_keep | assumption].
Qed.

Lemma sound_mark_star i o w r : path (closure mark_or_spaced) i o w r -> weighs i o w r.
Proof.
  apply closure_ind; [apply weighs_nil|].
  intros j o1 w1 r1 o2 w2 r' H _ IH. apply path_mark_or_spaced in H.
  destruct H as [(c & -> & _ & -> & ->)|(p & -> & Hp & -> & ->)];
    (apply weighs_trans with (r1 := r1); [|assumption]).
  - apply weighs_keep.
  - apply weighs_drop. assumption.
Qed.

Lemma sound_block i o w r : path block i o w r -> weighs i o w r.
Proof.
  intro H. apply path_concat in H.
  destruct H as (o1 & w1 & r1 & o2 & w2 & H1 & H2 & -> & ->).
  apply path_concat in H2.
  destruct H2 as (o3 & w3 & r3 & o4 & w4 & H3 & H4 & -> & ->).
  apply weighs_trans with (r1 := r1); [apply sound_non_punct_star; assumption|].
  apply weighs_trans with (r1 := r3); [apply sound_mark_star; assumption|].
  apply sound_non_punct_star; assumption.
Qed.

Lemma sound_graph_before i o w r :
  path (graph_before punct_marks_all MIN_NEG_WEIGHT) i o w r -> weighs i o w r.
Proof.
  unfold graph_before, optimize. apply closure_ind; [apply weighs_nil|].
  intros j o1 w1 r1 o2 w2 r' H _ IH.
  apply weighs_trans with (r1 := r1); [apply sound_block; assumption | assumption].
Qed.

Lemma block_keep c r : path block (c :: r) [c] 0%Z r.
Proof.
  destruct (P c) eqn:Hc.
  - apply path_concat. exists [], 0%Z, (c :: r), [c], 0%Z.
    repeat split; [apply closure_nil|].
    apply path_concat. exists [c], 0%Z, r, [], 0%Z.
    repeat split; [|apply closure_nil].
    change [c] with ([c] ++ []). change 0%Z with (0 + 0)%Z.
    apply closure_step with (r1 := r); [|simpl; lia|apply closure_nil].
    apply path_mark_or_spaced. left. exists c. auto.
  - apply path_concat. exists [c], 0%Z, r, [], 0%Z. repeat split.
    + change [c] with ([c] ++ []). change 0%Z with (0 + 0)%Z.
      apply closure_step with (r1 := r); [|simpl; lia|apply closure_nil].
      apply path_non_punct. exists c. auto.
    + apply path_concat. exists [], 0%Z, r, [], 0%Z.
      repeat split; apply closure_nil.
Qed.

Lemma block_drop p r : P p = true -> path block (space :: p :: r) [p] MIN_NEG_WEIGHT r.
Proof.
  intro Hp. apply path_concat.
  exists [], 0%Z, (space :: p :: r), [p], MIN_NEG_WEIGHT. repeat split; [apply closure_nil|].
  apply path_concat. exists [p], MIN_NEG_WEIGHT, r, [], 0%Z.
  repeat split; [|apply closure_nil|lia].
  change [p] with ([p] ++ []).
  replace MIN_NEG_WEIGHT with (MIN_NEG_WEIGHT + 0)%Z at 2 by lia.
  apply closure_step with (r1 := r); [|simpl; lia|apply closure_nil].
  apply path_mark_or_spaced. right. exists p. auto.
Qed.

(** Induction two characters at a time, as the first pass proceeds. *)
Lemma pairs_ind (Q : str -> Prop) :
  Q [] -> (forall c, Q [c]) ->
  (forall c p s, Q s -> Q (p :: s) -> Q (c :: p :: s)) ->
  forall s, Q s.
Proof.
  intros H0 H1 H2 s.
  assert (G : Q s /\ forall c, Q (c :: s)); [|apply G].
  induction s as [|p s [IH1 IH2]]; split; auto.
Qed.

Lemma no_space_before_pair c p s :
  no_space_before P (c :: p :: s)
  = if N.eqb c space && P p then p :: no_space_before P s
    else c :: no_space_before P (p :: s).
Proof. reflexivity. Qed.

Lemma spaces_before_pair c p s :
  spaces_before P (c :: p :: s)
  = if N.eqb c space && P p then S (spaces_before P s) else spaces_before P (p :: s).
Proof. reflexivity. Qed.

Lemma complete_graph_before s :
  path (graph_before punct_marks_all MIN_NEG_WEIGHT) s
       (no_space_before P s) (Z.of_nat (spaces_before P s) * MIN_NEG_WEIGHT)%Z [].
Proof.
  unfold graph_before, optimize. induction s as [|c|c p s IHs IHps] using pairs_ind.
  - apply closure_nil.
  - change (no_space_before P [c]) with ([c] ++ []).
    change (Z.of_nat (spaces_before P [c]) * MIN_NEG_WEIGHT)%Z with (0 + 0)%Z.
    apply closure_step with (r1 := []); [apply block_keep | simpl; lia | apply closure_nil].
  - rewrite no_space_before_pair, spaces_before_pair.
    destruct (N.eqb_spec c space) as [->|Hc]; cbn [andb].
    + destruct (P p) eqn:Hp.
      * change (p :: no_space_before P s) with ([p] ++ no_space_before P s).
        replace (Z.of_nat (S (spaces_before P s)) * MIN_NEG_WEIGHT)%Z
          with (MIN_NEG_WEIGHT + Z.of_nat (spaces_before P s) * MIN_NEG_WEIGHT)%Z by lia.
        apply closure_step with (r1 := s); [apply block_drop; assumption | simpl; lia | assumption].
      * change (space :: no_space_before P (p :: s)) with ([space] ++ no_space_before P (p :: s)).
        replace (Z.of_nat (spaces_before P (p :: s)) * MIN_NEG_WEIGHT)%Z
          with (0 + Z.of_nat (spaces_before P (p :: s)) * MIN_NEG_WEIGHT)%Z by lia.
        apply closure_step with (r1 := p :: s); [apply block_keep | simpl; lia | assumption].
    + change (c :: no_space_before P (p :: s)) with ([c] ++ no_space_before P (p :: s)).
      replace (Z.of_nat (spaces_before P (p :: s)) * MIN_NEG_WEIGHT)%Z
        with (0 + Z.of_nat (spaces_before P (p :: s)) * MIN_NEG_WEIGHT)%Z by lia.
      apply closure_step with (r1 := p :: s); [apply block_keep | simpl; lia | assumption].
Qed.

Lemma spaces_before_mark p s :
  P p = true -> spaces_before P (p :: s) = spaces_before P s.
Proof.
  intro Hp. destruct s as [|d s]; [reflexivity|]. rewrite spaces_before_pair.
  destruct (N.eqb_spec p space) as [->|_]; [|reflexivity].
  rewrite not_space_mark in Hp. discriminate.
Qed.

Lemma removal_optimal i o k r :
  removal P i o k r -> r = [] ->
  (k <= spaces_before P i)%nat /\ (k = spaces_before P i -> o = no_space_before P i).
Proof.
  induction 1 as [i|c i o k r H IH|p i o k r Hp H IH]; intros ->.
  - simpl. auto.
  - destruct (IH eq_refl) as [Hle Heq]. destruct i as [|p i].
    + inversion H; subst. simpl. auto.
    + rewrite no_space_before_pair, spaces_before_pair.
      destruct (N.eqb c space && P p) eqn:E.
      * apply andb_true_iff in E. destruct E as [_ Hp].
        rewrite spaces_before_mark in Hle by assumption. split; [lia | intro; lia].
      * split; [assumption|]. intro Hk. rewrite (Heq Hk). reflexivity.
  - destruct (IH eq_refl) as [Hle Heq]. rewrite no_space_before_pair, spaces_before_pair.
    rewrite N.eqb_refl, Hp. cbn [andb]. split; [lia|].
    intro Hk. rewrite Heq by lia. reflexivity.
Qed.

Lemma selected_graph_before s o :
  selected (graph_before punct_marks_all MIN_NEG_WEIGHT) s o <-> o = no_space_before P s.
Proof.
  unfold selected. split.
  - intros (w & Hin & Hmin). apply in_full in Hin.
    destruct (sound_graph_before _ _ _ _ Hin) as (k & Hrem & ->).
    destruct (removal_optimal Hrem eq_refl) as [Hle Heq].
    specialize (Hmin _ _ (proj2 (in_full _ _ _ _) (complete_graph_before s))).
    apply Heq. nia.
  - intros ->. exists (Z.of_nat (spaces_before P s) * MIN_NEG_WEIGHT)%Z. split.
    + apply in_full. apply complete_graph_before.
    + intros o' w' Hin. apply in_full in Hin.
      destruct (sound_graph_before _ _ _ _ Hin) as (k & Hrem & ->).
      destruct (removal_optimal Hrem eq_refl) as [Hle _]. nia.
Qed.


(** *** The second pass and the composed graph *)

Lemma accepts_brackets p : accepts (union_strs brackets) [p] = is_open_bracket p.
Proof.
  apply eq_true_iff_eq. rewrite accepts_true. unfold is_open_bracket.
  rewrite existsb_eqb_In. unfold union_strs. split.
  - intros (o & w & H). apply path_union_list in H. destruct H as (t & Hin & H).
    apply in_map_iff in Hin. destruct Hin as (m & <- & Hm).
    change brackets with [[60]; [123]; [40]; [92; 91]]%N in Hm.
    simpl in Hm.
    repeat (destruct Hm as [<-|Hm];
            [apply path_accep in H; destruct H as (H & _); cbn in H;
             injection H as <-; simpl; tauto|]).
    contradiction.
  - intro H. exists [p], 0%Z. apply path_union_list.
    change brackets with [[60]; [123]; [40]; [92; 91]]%N.
    simpl in H.
    destruct H as [<-|[<-|[<-|[<-|[]]]]].
    + exists (accep [60%N]). split; [simpl; tauto | apply path_accep; auto].
    + exists (accep [123%N]). split; [simpl; tauto | apply path_accep; auto].
    + exists (accep [40%N]). split; [simpl; tauto | apply path_accep; auto].
    + exists (accep [91%N]). split; [simpl; tauto | apply path_accep; auto].
Qed.

Lemma rewrite_delete_after_spec prev s :
  rewrite_delete_after space (union_strs brackets) prev s
  = no_space_after (match prev with Some p => is_open_bracket p | None => false end) s.
Proof.
  revert prev. induction s as [|d s IH]; intro prev; [reflexivity|].
  cbn [rewrite_delete_after no_space_after].
  assert (E : match prev with
              | Some p => accepts (union_strs brackets) [p]
              | None => false
              end = match prev with Some p => is_open_bracket p | None => false end).
  { destruct prev; [apply accepts_brackets | reflexivity]. }
  rewrite E. destruct (N.eqb d space && _).
  - apply IH.
  - rewrite IH. reflexivity.
Qed.

Lemma path_no_space_after_punct i o w :
  path no_space_after_punct i o w [] <-> o = no_space_after false i /\ w = 0%Z.
Proof.
  unfold no_space_after_punct, optimize, cdrewrite_delete, path.
  change 32%N with space. rewrite rewrite_delete_after_spec. simpl. split.
  - intros [H|[]]. injection H as <- <-. auto.
  - intros (-> & ->). auto.
Qed.

(** The lightest path of the composed graph writes what the two passes of
    the specification write, one after the other. *)
Lemma selected_postprocess s o :
  selected (get_punct_postprocess_graph punct_marks_all MIN_NEG_WEIGHT) s o
  <-> o = postprocess punct_marks_all s.
Proof.
  unfold get_punct_postprocess_graph, optimize, postprocess.
  set (G := graph_before punct_marks_all MIN_NEG_WEIGHT).
  assert (Full : forall o' w', In (o', w') (full (compose G no_space_after_punct) s)
                   <-> exists o1, path G s o1 w' [] /\ o' = no_space_after false o1).
  { intros o' w'. rewrite in_full, path_compose. split.
    - intros (o1 & w1 & w2 & H1 & H2 & ->). apply path_no_space_after_punct in H2.
      destruct H2 as (-> & ->). exists o1. split; [|reflexivity].
      replace (w1 + 0)%Z with w1 by lia. assumption.
    - intros (o1 & H1 & ->). exists o1, w', 0%Z. split; [assumption|]. split; [|lia].
      apply path_no_space_after_punct. auto. }
  split.
  - intros (w & Hin & Hmin). apply Full in Hin. destruct Hin as (o1 & H1 & ->).
    f_equal. apply selected_graph_before. exists w. split; [apply in_full; assumption|].
    intros o' w' Hin'. apply in_full in Hin'.
    apply (Hmin (no_space_after false o') w'). apply Full. eauto.
  - intros ->.
    destruct (proj2 (selected_graph_before s _) eq_refl) as (w & Hin & Hmin).
    exists w. split.
    + apply Full. exists (no_space_before P s). split; [apply in_full; assumption | reflexivity].
    + intros o' w' Hin'. apply Full in Hin'. destruct Hin' as (o1 & H1 & _).
      apply (Hmin o1 w'). apply in_full. assumption.
Qed.

(** *** Applying the post-processor to its own output *)

Lemma no_space_before_fixed t : space_before_mark P t = false -> no_space_before P t = t.
Proof.
  induction t as [|c t IH]; [reflexivity|]. destruct t as [|p t]; [reflexivity|].
  rewrite no_space_before_pair. cbn [space_before_mark starts_with].
  intro H. apply orb_false_iff in H. destruct H as [H1 H2].
  rewrite H1, (IH H2). reflexivity.
Qed.

Lemma no_space_before_head p s :
  no_space_before P (p :: s) = p :: no_space_before P s \/
  (p = space /\ exists p' s', s = p' :: s' /\ P p' = true /\
                              no_space_before P (p :: s) = p' :: no_space_before P s').
Proof.
  destruct s as [|p' s']; [left; reflexivity|]. rewrite no_space_before_pair.
  destruct (N.eqb_spec p space) as [->|Hne]; cbn [andb]; [|left; reflexivity].
  destruct (P p') eqn:Hp; [|left; reflexivity].
  right. split; [reflexivity|]. exists p', s'. auto.
Qed.

Lemma two_spaces_before_tail a s :
  two_spaces_before P (a :: s) = false -> two_spaces_before P s = false.
Proof.
  destruct s as [|b [|p s]]; try reflexivity.
  cbn [two_spaces_before]. intro H. apply orb_false_iff in H. apply H.
Qed.

Lemma no_space_before_clean s :
  two_spaces_before P s = false -> space_before_mark P (no_space_before P s) = false.
Proof.
  induction s as [|c|c p s IHs IHps] using pairs_ind; intro H.
  - reflexivity.
  - simpl. rewrite andb_false_r. reflexivity.
  - pose proof (two_spaces_before_tail _ _ H) as Hps.
    pose proof (two_spaces_before_tail _ _ Hps) as Hs.
    rewrite no_space_before_pair. destruct (N.eqb c space && P p) eqn:E.
    + apply andb_true_iff in E. destruct E as [_ Hp].
      cbn [space_before_mark]. rewrite (IHs Hs).
      destruct (N.eqb_spec p space) as [->|_]; [|reflexivity].
      rewrite not_space_mark in Hp. discriminate.
    + cbn [space_before_mark]. rewrite (IHps Hps), orb_false_r.
      destruct (N.eqb_spec c space) as [->|_]; [|reflexivity]. cbn [andb] in *.
      destruct (no_space_before_head p s) as [->|(-> & p' & s' & -> & Hp' & ->)].
      * exact E.
      * cbn [starts_with]. cbn [two_spaces_before] in H.
        apply orb_false_iff in H. destruct H as [H _].
        rewrite Hp' in H. discriminate H.
Qed.

Lemma no_space_after_head t : starts_with P (no_space_after false t) = starts_with P t.
Proof. destruct t as [|d t]; [reflexivity|]. simpl. rewrite andb_false_r. reflexivity. Qed.

Lemma space_before_mark_tail c t :
  space_before_mark P (c :: t) = false -> space_before_mark P t = false.
Proof. cbn [space_before_mark]. intro H. apply orb_false_iff in H. apply H. Qed.

Lemma no_space_after_clean b t :
  space_before_mark P t = false -> space_before_mark P (no_space_after b t) = false.
Proof.
  revert b. induction t as [|c t IH]; intros b H; [reflexivity|].
  pose proof (space_before_mark_tail _ _ H) as Ht.
  cbn [no_space_after]. destruct (N.eqb c space && b) eqn:E.
  - apply IH. assumption.
  - cbn [space_before_mark]. rewrite (IH _ Ht), orb_false_r.
    destruct (N.eqb_spec c space) as [->|_]; [|reflexivity]. cbn [andb].
    change (is_open_bracket space) with false. rewrite no_space_after_head.
    cbn [space_before_mark] in H. apply orb_false_iff in H. destruct H as [H _].
    rewrite N.eqb_refl in H. exact H.
Qed.

Lemma no_space_after_twice b t : no_space_after b (no_space_after b t) = no_space_after b t.
Proof.
  revert b. induction t as [|c t IH]; intro b; [reflexivity|].
  cbn [no_space_after]. destruct (N.eqb c space && b) eqn:E.
  - apply IH.
  - cbn [no_space_after]. rewrite E, IH. reflexivity.
Qed.

Lemma postprocess_twice s :
  two_spaces_before P s = false ->
  postprocess punct_marks_all (postprocess punct_marks_all s) = postprocess punct_marks_all s.
Proof.
  intro H. unfold postprocess.
  rewrite (no_space_before_fixed (no_space_after false (no_space_before P s))).
  - apply no_space_after_twice.
  - apply no_space_after_clean. apply no_space_before_clean. assumption.
Qed.

End Graph.

End PostProcessingFacts.

(** ** The measure tagger: its parts *)

Module MeasureFacts.
Import Pynini PyniniFacts Reads GraphUtils MeasureFst MeasureSpec.

Local Open Scope fst_scope.

Lemma path_concat_intro a b i o1 w1 r1 o2 w2 r :
  path a i o1 w1 r1 -> path b r1 o2 w2 r -> path (a :+ b) i (o1 ++ o2) (w1 + w2)%Z r.
Proof. intros H1 H2. apply path_concat. exists o1, w1, r1, o2, w2. auto. Qed.

Lemma path_conv t i o w r o' w' : path t i o w r -> o = o' -> w = w' -> path t i o' w' r.
Proof. intros H -> ->. exact H. Qed.

Lemma path_epsilon_intro i : path epsilon i [] 0%Z i.
Proof. apply path_epsilon. auto. Qed.

Lemma path_add_weight_intro t k i o w r : path t i o w r -> path (add_weight t k) i o (w + k)%Z r.
Proof. intro H. apply path_add_weight. eauto. Qed.

Lemma path_insert_intro s i : path (insert s) i s 0%Z i.
Proof. apply path_insert. auto. Qed.

Lemma path_accep_intro s r : path (accep s) (s ++ r) s 0%Z r.
Proof. apply path_accep. auto. Qed.

Lemma path_cross_str_intro a b r : path (cross_str a b) (a ++ r) b 0%Z r.
Proof. apply path_cross_str. auto. Qed.

Lemma path_string_map_intro t k v r : In (k, v) t -> path (string_map t) (k ++ r) v 0%Z r.
Proof. intro H. apply path_string_map. exists k. auto. Qed.

(** Taking the paths of a built graph apart, down to its parts. *)
Ltac inv_paths :=
  repeat
    match goal with
    | H : path (_ :+ _) _ _ _ _ |- _ =>
        apply path_concat in H; destruct H as (? & ? & ? & ? & ? & ? & ? & ? & ?); subst
    | H : path (insert _) _ _ _ _ |- _ =>
        apply path_insert in H; destruct H as (? & ? & ?); subst
    | H : path insert_space _ _ _ _ |- _ => unfold insert_space in H
    | H : path epsilon _ _ _ _ |- _ =>
        apply path_epsilon in H; destruct H as (? & ? & ?); subst
    | H : path null _ _ _ _ |- _ => apply path_null in H; contradiction
    | H : path (cross_str _ _) _ _ _ _ |- _ =>
        apply path_cross_str in H; destruct H as (? & ? & ?); subst
    | H : path (accep _) _ _ _ _ |- _ =>
        apply path_accep in H; destruct H as (? & ? & ?); subst
    | H : path (_ :| _) _ _ _ _ |- _ => apply path_union in H; destruct H as [H|H]
    | H : path (add_weight _ _) _ _ _ _ |- _ =>
        apply path_add_weight in H; destruct H as (? & H & ?); subst
    | H : path (optimize _) _ _ _ _ |- _ => unfold optimize in H
    end.

(** Building a path of a concatenation from paths of its parts. *)
Ltac build :=
  lazymatch goal with
  | |- path (_ :+ _) _ _ _ _ => eapply path_concat_intro; [build | build]
  | |- path (insert _) _ _ _ _ => apply path_insert_intro
  | |- path insert_space _ _ _ _ => apply path_insert_intro
  | |- path epsilon _ _ _ _ => apply path_epsilon_intro
  | |- path (accep _) _ _ _ _ => apply path_accep_intro
  | |- path (cross_str _ _) _ _ _ _ => apply path_cross_str_intro
  | |- path (add_weight _ _) _ _ _ _ => apply path_add_weight_intro; build
  | |- path (optimize _) _ _ _ _ => unfold optimize; build
  | |- path _ _ _ _ _ => eassumption
  end.

Lemma path_delete_space i o w r :
  path GraphUtils.delete_space i o w r ->
  o = [] /\ w = 0%Z /\ exists p, i = p ++ r /\ Forall (fun c => is_white_space c = true) p.
Proof.
  unfold GraphUtils.delete_space. intro H. apply path_delete in H.
  destruct H as (-> & o' & H). split; [reflexivity|]. revert i o' w r H.
  apply closure_ind
    with (Q := fun i (_ : str) w r =>
                 w = 0%Z /\ exists p, i = p ++ r /\
                                      Forall (fun c => is_white_space c = true) p).
  - intro i. split; [reflexivity|]. exists []. auto.
  - intros i o1 w1 r1 o2 w2 r H _ (-> & p & -> & Hp).
    apply path_char_class in H. destruct H as (c & -> & Hc & _ & ->).
    split; [reflexivity|]. exists (c :: p). auto.
Qed.

Lemma path_delete_space_nil i : path GraphUtils.delete_space i [] 0%Z i.
Proof.
  unfold GraphUtils.delete_space. apply path_delete. split; [reflexivity|].
  exists []. apply closure_nil.
Qed.

Lemma path_optional_graph_negative i o w r :
  path optional_graph_negative i o w r <->
  w = 0%Z /\ ((r = i /\ o = []) \/ (i = u "-" ++ r /\ o = negative_tag)).
Proof.
  unfold optional_graph_negative, closure_range. cbn [power upto Nat.sub]. split.
  - intro H. inv_paths.
    + auto.
    + split; [reflexivity|]. right. split; [reflexivity|].
      unfold negative_tag. cbn [app]. rewrite !app_nil_r. reflexivity.
  - intros (-> & [(-> & ->)|(-> & ->)]).
    + eapply path_conv; [eapply path_concat_intro; [build|]| |].
      * apply path_union. left. build.
      * reflexivity.
      * reflexivity.
    + eapply path_conv; [eapply path_concat_intro; [build|]| |].
      * apply path_union. right. build.
      * unfold negative_tag. cbn [app]. rewrite !app_nil_r. reflexivity.
      * reflexivity.
Qed.

Lemma wf_optional_graph_negative : wf optional_graph_negative.
Proof. unfold optional_graph_negative, insert_space. auto 10 with wf. Qed.

Lemma wf_delete_space : wf GraphUtils.delete_space.
Proof. unfold GraphUtils.delete_space, NEMO_WHITE_SPACE. auto with wf. Qed.

Lemma path_wrap_units g i o w r :
  path (wrap_units g) i o w r <->
  exists o', path g i o' w r /\ o = NEMO_SPACE ++ (u "units: " ++ q) ++ o' ++ q ++ NEMO_SPACE.
Proof.
  unfold wrap_units. split.
  - intro H. inv_paths.
    match goal with H : path g _ ?o ?w _ |- _ => exists o; split; [|reflexivity];
      replace (0 + (0 + (w + (0 + 0))))%Z with w by lia; assumption end.
  - intros (o' & H & ->). eapply path_conv; [build|reflexivity|lia].
Qed.

Lemma wf_wrap_units g : wf g -> wf (wrap_units g).
Proof. intro H. unfold wrap_units. auto 10 with wf. Qed.


(** *** What each alternative of the union reads *)

Lemma somewhere_dot_literal s : In 46%N s -> somewhere is_dot s.
Proof. intro H. apply Exists_exists. exists 46%N. split; [assumption | reflexivity]. Qed.

Lemma reads_dot_union a b : In 46%N a -> In 46%N b ->
  reads (accep a :| accep b) (somewhere is_dot).
Proof.
  intros Ha Hb. apply reads_union; apply reads_accep; apply somewhere_dot_literal; assumption.
Qed.

Lemma reads_POINT_FIVE : reads POINT_FIVE (somewhere is_dot).
Proof. apply reads_dot_union; vm_compute; auto. Qed.
Lemma reads_ONE_POINT_FIVE : reads ONE_POINT_FIVE (somewhere is_dot).
Proof. apply reads_dot_union; vm_compute; auto. Qed.
Lemma reads_TWO_POINT_FIVE : reads TWO_POINT_FIVE (somewhere is_dot).
Proof. apply reads_dot_union; vm_compute; auto. Qed.
Lemma reads_DECIMAL_25 : reads DECIMAL_25 (somewhere is_dot).
Proof. apply reads_dot_union; vm_compute; auto. Qed.
Lemma reads_DECIMAL_75 : reads DECIMAL_75 (somewhere is_dot).
Proof. apply reads_dot_union; vm_compute; auto. Qed.

Lemma reads_point : reads point (somewhere is_dot).
Proof.
  unfold point. apply reads_delete, reads_accep, somewhere_dot_literal. vm_compute. auto.
Qed.

#[export] Hint Resolve wf_optional_graph_negative wf_delete_space wf_wrap_units : wf.

Section Tagger.

Variable data : Data.
Variable cardinal : Cardinal.t.
Variable decimal : Decimal.t.
Variable ordinal : Ordinal.t.
Variable input_case : str.

(** What the tagger expects of its collaborators. *)
Hypothesis cardinal_reads : reads (cardinal_graph cardinal) numeral.
Hypothesis large_reads : reads (cardinal_large cardinal) numeral.
Hypothesis fractional_wf : wf (Decimal.graph_fractional decimal).
Hypothesis en_to_hi_wf : wf (en_to_hi_map data input_case).

Lemma wf_cardinal_graph : wf (cardinal_graph cardinal).
Proof. exact (reads_wf cardinal_reads). Qed.

Lemma wf_cardinal_large : wf (cardinal_large cardinal).
Proof. exact (reads_wf large_reads). Qed.

Lemma path_small_graph i o w r :
  path (cardinal_small cardinal) i o w r -> path (cardinal_graph cardinal) i o w r.
Proof.
  unfold cardinal_small, cardinal_graph. rewrite !path_union. tauto.
Qed.

Lemma small_reads : reads (cardinal_small cardinal) numeral.
Proof. intros i o w r H. apply cardinal_reads with (o := o) (w := w). apply path_small_graph. exact H. Qed.

Lemma wf_cardinal_small : wf (cardinal_small cardinal).
Proof. exact (reads_wf small_reads). Qed.

Hint Resolve wf_cardinal_graph wf_cardinal_large wf_cardinal_small fractional_wf en_to_hi_wf : wf.

Lemma wf_unit_ : wf (unit_ data).
Proof. unfold unit_, unit_graph_no_year, unit_inputs_except_yr, unit_graph. auto 10 with wf. Qed.

Lemma wf_units : wf (units data).
Proof. unfold units, quarterly_units_graph, quarterly_units_map, quarterly_units_list. auto 10 with wf. Qed.

Lemma wf_unit_year_formal : wf (unit_year_formal data).
Proof. unfold unit_year_formal, year_formal. auto 10 with wf. Qed.

Hint Resolve wf_unit_ wf_units wf_unit_year_formal : wf.

Lemma reads_decimal_graph : reads (decimal_graph cardinal decimal) (somewhere is_dot).
Proof.
  unfold decimal_graph, decimal_integers, insert_space.
  apply reads_somewhere_right; [auto 10 with wf|].
  apply reads_somewhere_left; [apply reads_point | auto 10 with wf].
Qed.

Lemma reads_graph_decimal : reads (graph_decimal data cardinal decimal) (somewhere is_dot).
Proof.
  unfold graph_decimal.
  apply reads_somewhere_right; [auto with wf|].
  apply reads_somewhere_right; [auto with wf|].
  apply reads_somewhere_left; [apply reads_decimal_graph | auto 10 with wf].
Qed.

Lemma reads_graph_decimal_year_formal :
  reads (graph_decimal_year_formal data cardinal decimal) (somewhere is_dot).
Proof.
  unfold graph_decimal_year_formal.
  apply reads_somewhere_right; [auto with wf|].
  apply reads_somewhere_right; [auto with wf|].
  apply reads_somewhere_left; [apply reads_decimal_graph | auto 10 with wf].
Qed.

Lemma reads_graph_dedh_dhai : reads (graph_dedh_dhai data) (somewhere is_dot).
Proof.
  unfold graph_dedh_dhai, dedh_dhai_graph, dedh_dhai.
  apply reads_somewhere_right; [auto with wf|].
  apply reads_somewhere_right; [auto with wf|].
  apply reads_somewhere_left; [|auto 10 with wf].
  apply reads_somewhere_right; [auto with wf|].
  apply reads_somewhere_left; [|auto with wf].
  apply reads_union; apply reads_cross;
    [apply reads_ONE_POINT_FIVE | apply reads_TWO_POINT_FIVE].
Qed.

Lemma reads_idiom (number : wfst) (close : str) :
  reads number (somewhere is_dot) ->
  reads (insert (u "cardinal { ")
         :+ optional_graph_negative
         :+ (insert (u "integer: " ++ q) :+ insert close :+ insert NEMO_SPACE
             :+ number :+ insert q)
         :+ insert NEMO_SPACE :+ insert (u "}") :+ GraphUtils.delete_space :+ units data)
        (somewhere is_dot).
Proof.
  intro H.
  apply reads_somewhere_right; [auto with wf|].
  apply reads_somewhere_right; [auto with wf|].
  apply reads_somewhere_left; [|auto 10 with wf].
  do 3 (apply reads_somewhere_right; [auto with wf|]).
  apply reads_somewhere_left; [exact H | auto with wf].
Qed.

Lemma reads_graph_savva : reads (graph_savva data cardinal) (somewhere is_dot).
Proof.
  unfold graph_savva, savva_graph. apply reads_idiom. unfold savva_numbers.
  apply reads_somewhere_right; [auto with wf|]. apply reads_cross, reads_DECIMAL_25.
Qed.

Lemma reads_graph_sadhe : reads (graph_sadhe data cardinal) (somewhere is_dot).
Proof.
  unfold graph_sadhe, sadhe_graph. apply reads_idiom. unfold sadhe_numbers.
  apply reads_somewhere_right; [auto with wf|]. apply reads_cross, reads_POINT_FIVE.
Qed.

Lemma reads_graph_paune : reads (graph_paune data) (somewhere is_dot).
Proof.
  unfold graph_paune, paune_graph, paune_numbers, paune.
  apply reads_somewhere_right; [auto with wf|].
  apply reads_somewhere_right; [auto with wf|].
  apply reads_somewhere_left; [|auto 10 with wf].
  do 3 (apply reads_somewhere_right; [auto with wf|]).
  apply reads_somewhere_left; [|auto with wf].
  apply reads_somewhere_right; [auto with wf|]. apply reads_cross, reads_DECIMAL_75.
Qed.


Lemma reads_word_boundary : reads word_boundary (somewhere is_boundary).
Proof.
  unfold word_boundary, optimize, NEMO_WHITE_SPACE.
  repeat apply reads_union.
  - apply reads_char_class. intros c Hc. apply Exists_cons_hd. left. exact Hc.
  - apply reads_accep. apply Exists_cons_hd. right. left. reflexivity.
  - apply reads_accep. apply Exists_cons_hd. right. right. left. reflexivity.
  - apply reads_accep. apply Exists_cons_hd. right. right. right. reflexivity.
Qed.

Lemma wf_word_boundary : wf word_boundary.
Proof. exact (reads_wf reads_word_boundary). Qed.

Hint Resolve wf_word_boundary : wf.

Lemma reads_boundary : reads boundary (somewhere is_boundary).
Proof.
  unfold boundary, optimize, closure_from. cbn [power].
  apply reads_somewhere_left; [|auto with wf].
  apply reads_somewhere_left; [apply reads_word_boundary | auto with wf].
Qed.

Lemma wf_window : wf window.
Proof.
  unfold window, word_with_boundary, c_word, non_boundary_char, NEMO_CHAR. auto 10 with wf.
Qed.

Lemma wf_address_keywords : wf (address_keywords data input_case).
Proof.
  unfold address_keywords, address_keywords_hi, address_keywords_en. auto with wf.
Qed.

Hint Resolve wf_window wf_address_keywords : wf.

Lemma reads_input_pattern : reads (input_pattern data input_case) (somewhere is_boundary).
Proof.
  unfold input_pattern, optimize. apply reads_union.
  - apply reads_somewhere_right; [auto with wf|].
    apply reads_somewhere_left; [apply reads_boundary | auto with wf].
  - apply reads_somewhere_right; [auto with wf|].
    apply reads_somewhere_left; [apply reads_boundary | auto 10 with wf].
    apply wf_concat; [auto with wf|]. apply wf_closure_range.
    apply wf_concat; [exact (reads_wf reads_boundary) | auto with wf].
Qed.

(** The contextual address grammar reads a word boundary somewhere. *)
Lemma reads_get_address_graph :
  reads (get_address_graph data ordinal input_case) (somewhere is_boundary).
Proof.
  unfold get_address_graph, address_graph, optimize.
  apply reads_add_weight.
  apply reads_somewhere_right; [auto with wf|].
  apply reads_somewhere_left; [|auto with wf].
  apply reads_compose, reads_input_pattern.
Qed.

(** The two-cardinal alternative ends on a digit. *)
Lemma reads_graph_exceptions : reads (graph_exceptions cardinal) ends_in_digit.
Proof.
  assert (Last : reads (cardinal_graph cardinal :+ insert q) ends_in_digit).
  { apply reads_concat with (Ra := numeral) (Rb := fun p => p = []).
    - exact cardinal_reads.
    - apply reads_insert. reflexivity.
    - intros p ? [Hne Hd] ->. rewrite app_nil_r.
      destruct (exists_last Hne) as (p' & c & ->). exists p', c. split; [reflexivity|].
      apply Forall_app in Hd. destruct Hd as [_ Hd]. inversion Hd. assumption. }
  assert (Right : forall a b, wf a -> reads b ends_in_digit -> reads (a :+ b) ends_in_digit).
  { intros a b Ha Hb. apply reads_concat with (Ra := fun _ => True) (Rb := ends_in_digit); auto.
    intros p ? _ (p' & c & -> & Hc). exists (p ++ p'), c. rewrite app_assoc. auto. }
  unfold graph_exceptions, insert_space, symbol_graph.
  do 16 (apply Right; [auto with wf|]). exact Last.
Qed.

(** *** The structured address grammar reads a place name, and a space
    as soon as it reads anything else. *)

#[local] Abbreviation gazetteer_key := (MeasureSpec.gazetteer_key data).

Lemma space_or_nothing_app p q :
  space_or_nothing p -> space_or_nothing q -> space_or_nothing (p ++ q).
Proof.
  intros [->|Hp] [->|Hq]; simpl.
  - left. reflexivity.
  - right. assumption.
  - right. apply somewhere_left. assumption.
  - right. apply somewhere_left. assumption.
Qed.

Lemma reads_sep : reads sep (somewhere is_space).
Proof.
  unfold sep. apply reads_somewhere_right; [auto with wf|].
  apply reads_accep. apply Exists_cons_hd. reflexivity.
Qed.

Lemma wf_num_token : wf (num_token data).
Proof. unfold num_token, digit_graph. auto with wf. Qed.

Hint Resolve wf_num_token : wf.

Lemma reads_optional_spaced t :
  reads t (somewhere is_space) -> forall n, reads (closure_range t 0 n) space_or_nothing.
Proof.
  intros Ht n. apply reads_closure_range.
  - apply reads_weaken with (R := somewhere is_space); [assumption|]. intros; right; assumption.
  - left. reflexivity.
  - apply space_or_nothing_app.
Qed.

Lemma reads_pattern :
  reads (pattern data) (fun p => somewhere is_space p \/ gazetteer_key p).
Proof.
  unfold pattern, optimize.
  assert (A : reads (closure_range (street_num data :+ sep) 0 1) space_or_nothing).
  { apply reads_optional_spaced. apply reads_somewhere_right; [|apply reads_sep].
    unfold street_num, insert_space. auto 10 with wf. }
  assert (T : reads text space_or_nothing).
  { unfold text, optimize. apply reads_optional_spaced. unfold word_with_sep.
    apply reads_somewhere_right; [|apply reads_sep].
    unfold s_word, word_char, NEMO_NOT_SPACE, NEMO_CHAR. auto 10 with wf. }
  assert (S : reads (state_city_names data) gazetteer_key).
  { unfold state_city_names, optimize. apply reads_union; apply reads_string_map;
      intros k v H; exists v; auto. }
  assert (B : reads (closure_range (accep NEMO_SPACE :+ pincode data) 0 1) space_or_nothing).
  { apply reads_optional_spaced. apply reads_somewhere_left.
    - apply reads_accep. apply Exists_cons_hd. reflexivity.
    - unfold pincode, insert_space. auto 10 with wf. }
  apply reads_concat with (Ra := space_or_nothing)
                          (Rb := fun p => somewhere is_space p \/ gazetteer_key p); [exact A| |].
  - apply reads_concat with (Ra := space_or_nothing)
                            (Rb := fun p => somewhere is_space p \/ gazetteer_key p); [exact T| |].
    + apply reads_concat with (Ra := gazetteer_key) (Rb := space_or_nothing); [exact S|exact B|].
      intros p r Hp [->|Hr].
      * rewrite app_nil_r. right. assumption.
      * left. apply somewhere_right. assumption.
    + intros p r [->|Hp] Hr; [exact Hr|]. left. apply somewhere_left. assumption.
  - intros p r [->|Hp] Hr; [exact Hr|]. left. apply somewhere_left. assumption.
Qed.

Lemma reads_get_structured_address_graph :
  reads (get_structured_address_graph data)
        (fun p => somewhere is_space p \/ gazetteer_key p).
Proof.
  unfold get_structured_address_graph, optimize. apply reads_add_weight.
  apply reads_concat with (Ra := fun p => p = [])
                          (Rb := fun p => somewhere is_space p \/ gazetteer_key p).
  - apply reads_insert. reflexivity.
  - apply reads_concat with (Ra := fun p => somewhere is_space p \/ gazetteer_key p)
                            (Rb := fun p => p = []).
    + apply reads_pattern.
    + apply reads_insert. reflexivity.
    + intros p ? Hp ->. rewrite app_nil_r. exact Hp.
  - intros ? r -> Hr. exact Hr.
Qed.


(** *** Inputs made of a sign, a numeral and a unit *)

Lemma digit_facts c :
  is_any_digit c = true ->
  is_white_space c = false /\ c <> 46%N /\ c <> 44%N /\ c <> 2404%N /\ c <> 45%N /\ c <> 32%N.
Proof.
  unfold is_any_digit, is_digit, is_hi_digit, is_white_space. cbn [existsb].
  rewrite orb_true_iff, !andb_true_iff, !N.leb_le. intro H.
  repeat split; try (intros ->; lia).
  repeat (apply orb_false_iff; split); try reflexivity; apply N.eqb_neq; lia.
Qed.

Lemma unit_letter_facts c :
  is_unit_letter c = true ->
  is_any_digit c = false /\ is_white_space c = false /\ c <> 46%N /\ c <> 44%N /\ c <> 2404%N.
Proof.
  unfold is_unit_letter. cbn [existsb]. rewrite negb_true_iff, !orb_false_iff.
  intros ((Hd & Hw) & (H1 & H2 & H3 & _)). rewrite N.eqb_neq in H1, H2, H3. auto.
Qed.

Lemma white_space_32 : is_white_space 32%N = true.
Proof. reflexivity. Qed.

Lemma plain_digit c : is_any_digit c = true -> plain c.
Proof.
  intro H. destruct (digit_facts c H) as (Hw & H1 & H2 & H3 & H4 & H5).
  unfold plain, is_dot, is_boundary, is_space. repeat split; try assumption.
  intros [E|[E|[E|E]]]; congruence.
Qed.

Lemma plain_unit_letter c : is_unit_letter c = true -> plain c.
Proof.
  intro H. destruct (unit_letter_facts c H) as (Hd & Hw & H1 & H2 & H3).
  unfold plain, is_dot, is_boundary, is_space. repeat split; try assumption.
  - intros [E|[E|[E|E]]]; congruence.
  - intros ->. discriminate Hw.
Qed.

Lemma plain_input sg d k :
  sign sg -> numeral d -> unit_word k -> Forall plain (sg ++ d ++ k).
Proof.
  intros Hs [_ Hd] [_ Hk]. apply Forall_app. split; [|apply Forall_app; split].
  - destruct Hs as [->| ->]; [constructor|]. repeat constructor; intro H.
    + discriminate H.
    + destruct H as [H|[H|[H|H]]]; discriminate H.
    + discriminate H.
  - eapply Forall_impl; [|exact Hd]. apply plain_digit.
  - eapply Forall_impl; [|exact Hk]. apply plain_unit_letter.
Qed.

Lemma not_ends_in_digit p k : unit_word k -> ~ ends_in_digit (p ++ k).
Proof.
  intros [Hne Hk] (p' & c & E & Hc). destruct (exists_last Hne) as (k' & c' & ->).
  rewrite app_assoc in E. apply app_inj_tail in E. destruct E as [_ <-].
  apply Forall_app in Hk. destruct Hk as [_ Hk]. inversion Hk as [|? ? Hc' _]. subst.
  destruct (unit_letter_facts _ Hc') as (Hd & _). congruence.
Qed.

Lemma unit_word_starts_nondigit k : unit_word k -> starts_nondigit k.
Proof.
  intros [Hne Hk]. destruct k as [|c k]; [congruence|]. inversion Hk as [|? ? Hc _].
  exists c, k. split; [reflexivity|]. apply (unit_letter_facts c Hc).
Qed.

(** A numeral read from the front of a numeral followed by something
    else than a digit. *)
Lemma numeral_prefix p : forall d k r,
  Forall (fun c => is_any_digit c = true) p ->
  Forall (fun c => is_any_digit c = true) d ->
  starts_nondigit k -> p ++ r = d ++ k ->
  exists d', d = p ++ d' /\ r = d' ++ k.
Proof.
  induction p as [|c p IH]; intros d k r Hp Hd Hk E.
  - exists d. auto.
  - inversion Hp as [|? ? Hc Hp']. subst. destruct d as [|c' d].
    + exfalso. destruct Hk as (c0 & k' & -> & Hc0).
      simpl in E. injection E as <- _. congruence.
    + simpl in E. injection E as <- E. inversion Hd as [|? ? _ Hd']. subst.
      destruct (IH d k r Hp' Hd' Hk E) as (d' & -> & ->). exists d'. auto.
Qed.

Lemma keyed_string_map t : keyed (string_map t) (fun k v => In (k, v) t).
Proof.
  intros i o w r H. apply path_string_map in H. destruct H as (k & Hin & -> & ->). eauto.
Qed.

Lemma path_cardinal_with n uw i o w r :
  path (cardinal_with n uw) i o w r ->
  exists on i1 oc wc r1 r2 ou wu,
    path optional_graph_negative i on 0%Z i1 /\ path n i1 oc wc r1 /\
    path GraphUtils.delete_space r1 [] 0%Z r2 /\ path uw r2 ou wu r /\
    o = u "cardinal { " ++ on ++ (u "integer: " ++ q) ++ oc ++ q ++ NEMO_SPACE ++ u "}" ++ ou /\
    w = (wc + wu)%Z.
Proof.
  unfold cardinal_with. intro H. inv_paths.
  match goal with
  | Hn : path optional_graph_negative _ ?on ?wn ?i1,
    Hc : path n ?i1 ?oc ?wc ?r1,
    Hd : path GraphUtils.delete_space ?r1 ?od ?wd ?r2,
    Hu : path uw ?r2 ?ou ?wu _ |- _ =>
      destruct (proj1 (path_optional_graph_negative _ _ _ _) Hn) as [-> _];
      destruct (path_delete_space _ _ _ _ Hd) as (-> & -> & _);
      exists on, i1, oc, wc, r1, r2, ou, wu
  end.
  repeat (split; [assumption|]). split; [reflexivity | lia].
Qed.

Lemma cardinal_with_on_unit_input n g K sg d k o w :
  reads n numeral -> keyed g K ->
  (forall key v, K key v -> Forall (fun c => is_any_digit c = false) key) ->
  sign sg -> numeral d -> unit_word k ->
  path (cardinal_with n (wrap_units g)) (sg ++ d ++ k) o w [] ->
  exists oc v, path n (d ++ k) oc w k /\ K k v /\ o = cardinal_tag sg oc v.
Proof.
  intros Hn Hg HK Hs Hd Hk H. apply path_cardinal_with in H.
  destruct H as (on & i1 & oc & wc & r1 & r2 & ou & wu & H1 & H2 & H3 & H4 & -> & ->).
  apply path_optional_graph_negative in H1. destruct H1 as [_ H1].
  destruct (Hn _ _ _ _ H2) as (p & -> & Hpne & Hp).
  destruct p as [|c p]; [congruence|]. inversion Hp as [|? ? Hc Hp']. subst.
  destruct (digit_facts c Hc) as (_ & _ & _ & _ & Hc45 & _).
  assert (E : (c :: p) ++ r1 = d ++ k /\ on = sign_tag sg).
  { destruct Hd as [Hdne Hd]. destruct d as [|c' d]; [congruence|].
    inversion Hd as [|? ? Hc' _]. subst.
    destruct (digit_facts c' Hc') as (_ & _ & _ & _ & Hc'45 & _).
    destruct Hs as [->| ->]; destruct H1 as [(E & ->)|(E & ->)]; simpl in E.
    - split; [first [exact E | symmetry; exact E] | reflexivity].
    - exfalso. change (u "-") with [45%N] in E. injection E as E _. congruence.
    - exfalso. change (u "-") with [45%N] in E. simpl in E. injection E as E _. congruence.
    - split; [|reflexivity]. change (u "-") with [45%N] in E. simpl in E.
      injection E as E E'. simpl. congruence. }
  destruct E as [E ->].
  destruct (@numeral_prefix (c :: p) d k r1 Hp (proj2 Hd)
              (unit_word_starts_nondigit Hk) E) as (d' & -> & ->).
  clear E.
  assert (Hd' : Forall (fun c => is_any_digit c = true) d').
  { destruct Hd as [_ Hd]. apply Forall_app in Hd. apply Hd. }
  apply path_delete_space in H3. destruct H3 as (_ & _ & ws & Ews & Hws).
  apply path_wrap_units in H4. destruct H4 as (v & H4 & ->).
  destruct (Hg _ _ _ _ H4) as (-> & key & Hkey & Ekey). rewrite app_nil_r in Ekey. subst r2.
  assert (Hws0 : ws = []).
  { destruct ws as [|c0 ws]; [reflexivity|]. exfalso.
    inversion Hws as [|? ? Hc0 _]. destruct d' as [|c1 d'].
    - destruct Hk as [Hkne Hk]. destruct k as [|c1 k]; [congruence|].
      simpl in Ews. injection Ews as Ec _. inversion Hk as [|? ? Hc1 _].
      destruct (unit_letter_facts _ Hc1) as (_ & Hw & _). congruence.
    - simpl in Ews. injection Ews as Ec _. inversion Hd' as [|? ? Hc1 _].
      destruct (digit_facts _ Hc1) as (Hw & _). congruence. }
  subst ws. simpl in Ews. subst key.
  assert (Hd0 : d' = []).
  { destruct d' as [|c1 d']; [reflexivity|]. exfalso.
    specialize (HK _ _ Hkey). inversion HK as [|? ? Hc1 _].
    inversion Hd' as [|? ? Hc1' _]. congruence. }
  subst d'. rewrite app_nil_r in *. simpl in Hkey.
  exists oc, v. split; [|split; [assumption|]].
  - replace (wc + 0)%Z with wc by lia. exact H2.
  - unfold cardinal_tag. reflexivity.
Qed.


(** *** The union on a sign, a numeral and a unit *)

Hypothesis unit_keys_plain :
  forall k v, In (k, v) (measure_unit data) -> Forall (fun c => is_any_digit c = false) k.
Hypothesis year_keys_plain :
  forall k v, In (k, v) (measure_unit_year_formal data) ->
              Forall (fun c => is_any_digit c = false) k.
Hypothesis gazetteer_plain :
  forall c p, gazetteer_key (c :: p) -> is_any_digit c = false /\ c <> 45%N.

Lemma accepts_accep s i : accepts (accep s) i = true <-> i = s.
Proof.
  rewrite accepts_true. split.
  - intros (o & w & H). apply path_accep in H. destruct H as (-> & _). apply app_nil_r.
  - intros ->. exists s, 0%Z. apply path_accep. rewrite app_nil_r. auto.
Qed.

Lemma path_unit_graph_no_year i o w r :
  path (unit_graph_no_year data) i o w r <->
  exists k, In (k, o) (measure_unit data) /\ k <> u "yr" /\ i = k ++ r /\ w = 0%Z.
Proof.
  unfold unit_graph_no_year, unit_inputs_except_yr, unit_graph.
  rewrite path_compose. split.
  - intros (o1 & w1 & w2 & H1 & H2 & ->).
    apply path_difference in H1. destruct H1 as [H1 Hyr].
    apply path_project_input in H1. destruct H1 as (-> & o' & H1).
    apply path_string_map in H1. destruct H1 as (k & Hin & -> & ->).
    rewrite consumed_app in *.
    apply path_string_map in H2. destruct H2 as (k2 & Hin2 & E & ->).
    rewrite app_nil_r in E. subst k2. exists k. repeat split; auto.
    intros ->. assert (accepts (accep (u "yr")) (u "yr") = true) by (apply accepts_accep; reflexivity).
    congruence.
  - intros (k & Hin & Hyr & -> & ->). exists k, 0%Z, 0%Z. repeat split.
    + apply path_difference. split.
      * apply path_project_input. rewrite consumed_app. split; [reflexivity|].
        exists o. apply path_string_map. eauto.
      * rewrite consumed_app. destruct (accepts (accep (u "yr")) k) eqn:E; [|reflexivity].
        apply accepts_accep in E. contradiction.
    + apply path_string_map. exists k. rewrite app_nil_r. auto.
Qed.

Lemma keyed_unit_graph_no_year :
  keyed (unit_graph_no_year data) (fun k v => In (k, v) (measure_unit data) /\ k <> u "yr").
Proof.
  intros i o w r H. apply path_unit_graph_no_year in H.
  destruct H as (k & Hin & Hyr & -> & ->). eauto.
Qed.

Lemma path_optional_sign sg r : sign sg -> path optional_graph_negative (sg ++ r) (sign_tag sg) 0%Z r.
Proof.
  intros [->| ->]; apply path_optional_graph_negative; (split; [reflexivity|]).
  - left. auto.
  - right. auto.
Qed.

Lemma cardinal_with_intro n g sg d k oc wc v :
  sign sg -> path n (d ++ k) oc wc k -> path g k v 0%Z [] ->
  path (cardinal_with n (wrap_units g)) (sg ++ d ++ k) (cardinal_tag sg oc v) wc [].
Proof.
  intros Hs Hn Hg. unfold cardinal_with, wrap_units.
  pose proof (@path_optional_sign sg (d ++ k) Hs) as Hneg.
  pose proof (path_delete_space_nil k) as Hds.
  eapply path_conv; [build| |].
  - unfold cardinal_tag. reflexivity.
  - lia.
Qed.

#[local] Abbreviation G := (graph data cardinal decimal ordinal input_case).

Lemma path_graph_alternative t w0 i o w r :
  In (add_weight t w0) (alternatives data cardinal decimal ordinal input_case) ->
  path t i o w r -> path G i o (w + w0)%Z r.
Proof.
  intros Hin H. unfold graph, optimize. apply path_union_list.
  exists (add_weight t w0). split; [assumption|]. apply path_add_weight_intro. exact H.
Qed.

Lemma graph_on_unit_input sg d k o w :
  sign sg -> numeral d -> unit_word k ->
  path G (sg ++ d ++ k) o w [] ->
  (exists oc wc v,
      path (cardinal_graph cardinal) (d ++ k) oc wc k /\
      In (k, v) (measure_unit data) /\ k <> u "yr" /\
      o = cardinal_tag sg oc v /\ w = (wc + 1000)%Z) \/
  (exists oc wc v,
      path (cardinal_large cardinal) (d ++ k) oc wc k /\
      In (k, v) (measure_unit_year_formal data) /\
      o = cardinal_tag sg oc v /\ w = (wc + 1000)%Z) \/
  (exists oc wc,
      path (cardinal_small cardinal) (d ++ k) oc wc k /\ k = u "yr" /\
      o = cardinal_tag sg oc (u "साल") /\ w = (wc - 1000)%Z).
Proof.
  intros Hs Hd Hk H.
  pose proof (@plain_input sg d k Hs Hd Hk) as Hplain.
  assert (Hdot : Forall (fun c => ~ is_dot c) (sg ++ d ++ k))
    by (eapply Forall_impl; [|exact Hplain]; intros c Hc; apply Hc).
  assert (Hbd : Forall (fun c => ~ is_boundary c) (sg ++ d ++ k))
    by (eapply Forall_impl; [|exact Hplain]; intros c Hc; apply Hc).
  assert (Hsp : Forall (fun c => ~ is_space c) (sg ++ d ++ k))
    by (eapply Forall_impl; [|exact Hplain]; intros c Hc; apply Hc).
  unfold graph, optimize in H. apply path_union_list in H. destruct H as (t & Hin & H).
  unfold alternatives in Hin. simpl in Hin.
  repeat (destruct Hin as [<-|Hin]); try contradiction.
  - exfalso. revert H. apply nowhere_no_path with (Q := is_dot); [|exact Hdot].
    apply reads_add_weight, reads_graph_decimal.
  - exfalso. revert H. apply nowhere_no_path with (Q := is_dot); [|exact Hdot].
    apply reads_add_weight, reads_graph_decimal_year_formal.
  - left. apply path_add_weight in H. destruct H as (w' & H & ->).
    unfold graph_cardinal, unit_ in H.
    assert (HK : forall key v, In (key, v) (measure_unit data) /\ key <> u "yr" ->
                             Forall (fun c => is_any_digit c = false) key)
      by (intros key v [Hin _]; exact (unit_keys_plain _ _ Hin)).
    destruct (@cardinal_with_on_unit_input _ _ _ sg d k o w' cardinal_reads
                keyed_unit_graph_no_year HK Hs Hd Hk H)
      as (oc & v & H' & (Hin & Hyr) & ->).
    exists oc, w', v. auto.
  - right. left. apply path_add_weight in H. destruct H as (w' & H & ->).
    unfold graph_cardinal_year_formal, unit_year_formal, year_formal in H.
    destruct (@cardinal_with_on_unit_input _ _ _ sg d k o w' large_reads
                (keyed_string_map (measure_unit_year_formal data)) year_keys_plain
                Hs Hd Hk H)
      as (oc & v & H' & Hin & ->).
    exists oc, w', v. auto.
  - right. right. apply path_add_weight in H. destruct H as (w' & H & ->).
    unfold graph_cardinal_year_informal, unit_year_informal, year_informal in H.
    assert (HK : forall key v, In (key, v) [(u "yr", u "साल")] ->
                             Forall (fun c => is_any_digit c = false) key)
      by (intros key v [Hin|[]]; injection Hin as <- _; repeat constructor).
    destruct (@cardinal_with_on_unit_input _ _ _ sg d k o w' small_reads
                (keyed_string_map [(u "yr", u "साल")]) HK Hs Hd Hk H)
      as (oc & v & H' & [Hin|[]] & ->).
    injection Hin as <- <-. exists oc, w'. repeat split; auto.
  - exfalso. apply path_add_weight in H. destruct H as (w' & H & _).
    destruct (reads_graph_exceptions _ _ _ _ H) as (p & E & Hp).
    rewrite app_nil_r in E. subst p. rewrite app_assoc in Hp.
    exact (@not_ends_in_digit (sg ++ d) k Hk Hp).
  - exfalso. revert H. apply nowhere_no_path with (Q := is_dot); [|exact Hdot].
    apply reads_add_weight, reads_graph_dedh_dhai.
  - exfalso. revert H. apply nowhere_no_path with (Q := is_dot); [|exact Hdot].
    apply reads_add_weight, reads_graph_savva.
  - exfalso. revert H. apply nowhere_no_path with (Q := is_dot); [|exact Hdot].
    apply reads_add_weight, reads_graph_sadhe.
  - exfalso. revert H. apply nowhere_no_path with (Q := is_dot); [|exact Hdot].
    apply reads_add_weight, reads_graph_paune.
  - exfalso. revert H. apply nowhere_no_path with (Q := is_boundary); [|exact Hbd].
    apply reads_get_address_graph.
  - exfalso. destruct (reads_get_structured_address_graph _ _ _ _ H) as (p & E & [Hp|Hp]).
    + rewrite app_nil_r in E. subst p. unfold somewhere in Hp. apply Exists_exists in Hp.
      destruct Hp as (c & Hc & Hq). rewrite Forall_forall in Hsp. exact (Hsp c Hc Hq).
    + rewrite app_nil_r in E. subst p.
      destruct Hd as [Hdne Hd]. destruct d as [|c d]; [congruence|].
      inversion Hd as [|? ? Hc _]. subst.
      destruct Hs as [->| ->].
      * simpl in Hp. destruct (@gazetteer_plain _ _ Hp) as [Hg _]. congruence.
      * change (u "-") with [45%N] in Hp. simpl in Hp.
        destruct (@gazetteer_plain _ _ Hp) as [_ Hg]. congruence.
Qed.


(** *** The year unit *)

Hypothesis year_formal_table : measure_unit_year_formal data = [(u "yr", u "वर्ष")].
Hypothesis small_below :
  reads (cardinal_small cardinal) (fun p => (value p < 1000)%N).
Hypothesis large_extends :
  forall p r o w, path (cardinal_large cardinal) (p ++ r) o w r -> (value p < 1000)%N ->
                  path (cardinal_small cardinal) (p ++ r) o w r.

Lemma unit_word_yr : unit_word (u "yr").
Proof. split; [discriminate | repeat constructor]. Qed.

Lemma informal_path sg d oc wc :
  sign sg -> path (cardinal_small cardinal) (d ++ u "yr") oc wc (u "yr") ->
  path G (sg ++ d ++ u "yr") (cardinal_tag sg oc (u "साल")) (wc + -1000)%Z [].
Proof.
  intros Hs H.
  apply path_graph_alternative with (t := graph_cardinal_year_informal cardinal).
  - unfold alternatives. simpl. tauto.
  - unfold graph_cardinal_year_informal, unit_year_informal, year_informal.
    apply cardinal_with_intro; [assumption | assumption |].
    apply path_string_map. exists (u "yr"). simpl. auto.
Qed.

Lemma formal_path sg d oc wc :
  sign sg -> path (cardinal_large cardinal) (d ++ u "yr") oc wc (u "yr") ->
  path G (sg ++ d ++ u "yr") (cardinal_tag sg oc (u "वर्ष")) (wc + 1000)%Z [].
Proof.
  intros Hs H.
  apply path_graph_alternative with (t := graph_cardinal_year_formal data cardinal).
  - unfold alternatives. simpl. tauto.
  - unfold graph_cardinal_year_formal, unit_year_formal, year_formal.
    apply cardinal_with_intro; [assumption | assumption |].
    apply path_string_map. exists (u "yr"). rewrite year_formal_table. simpl. auto.
Qed.

Lemma year_unit_selected sg d o :
  sign sg -> numeral d ->
  selected G (sg ++ d ++ u "yr") o ->
  ((value d < 1000)%N /\ exists oc, o = cardinal_tag sg oc (u "साल")) \/
  ((1000 <= value d)%N /\ exists oc, o = cardinal_tag sg oc (u "वर्ष")).
Proof.
  intros Hs Hd (w & Hin & Hmin). apply in_full in Hin.
  destruct (@graph_on_unit_input sg d (u "yr") o w Hs Hd unit_word_yr Hin)
    as [(oc & wc & v & _ & _ & Hyr & _)|[(oc & wc & v & H & Hv & -> & ->)|
        (oc & wc & H & _ & -> & ->)]].
  - congruence.
  - rewrite year_formal_table in Hv. destruct Hv as [Hv|[]]. injection Hv as <-.
    destruct (N.ltb_spec (value d) 1000) as [Hlt|Hge].
    + exfalso. pose proof (@large_extends d (u "yr") oc wc H Hlt) as Hsmall.
      pose proof (@informal_path sg d oc wc Hs Hsmall) as Hp. apply in_full in Hp.
      specialize (Hmin _ _ Hp). lia.
    + right. eauto.
  - left. split; [|eauto]. destruct (small_below _ _ _ _ H) as (p & E & Hp).
    apply app_inv_tail in E. subst p. exact Hp.
Qed.

(** *** A cardinal with a unit of the table *)

Lemma unit_selected sg d k v oc o :
  sign sg -> numeral d -> unit_word k -> k <> u "yr" ->
  (forall v', In (k, v') (measure_unit data) -> v' = v) ->
  (forall oc' wc', path (cardinal_graph cardinal) (d ++ k) oc' wc' k -> oc' = oc) ->
  selected G (sg ++ d ++ k) o -> o = cardinal_tag sg oc v.
Proof.
  intros Hs Hd Hk Hyr Hv Hoc (w & Hin & _). apply in_full in Hin.
  destruct (@graph_on_unit_input sg d k o w Hs Hd Hk Hin)
    as [(oc' & wc & v' & H & Hin' & _ & -> & _)|[(oc' & wc & v' & _ & Hv' & _)|
        (oc' & wc & _ & E & _)]].
  - rewrite (Hv _ Hin'), (Hoc _ _ H). reflexivity.
  - rewrite year_formal_table in Hv'. destruct Hv' as [Hv'|[]]. injection Hv' as E _.
    congruence.
  - contradiction.
Qed.

Lemma unit_path sg d k v oc wc :
  sign sg -> k <> u "yr" -> In (k, v) (measure_unit data) ->
  path (cardinal_graph cardinal) (d ++ k) oc wc k ->
  path G (sg ++ d ++ k) (cardinal_tag sg oc v) (wc + 1000)%Z [].
Proof.
  intros Hs Hyr Hin H.
  apply path_graph_alternative with (t := graph_cardinal data cardinal).
  - unfold alternatives. simpl. tauto.
  - unfold graph_cardinal, unit_.
    apply cardinal_with_intro; [assumption | assumption |].
    apply path_unit_graph_no_year. exists k. rewrite app_nil_r. auto.
Qed.


(** *** A cardinal, a multiplication symbol and a cardinal *)

Lemma digits_split p : forall d a b,
  Forall (fun c => is_any_digit c = true) p ->
  Forall (fun c => is_any_digit c = true) d ->
  starts_nondigit a -> starts_nondigit b ->
  p ++ a = d ++ b -> p = d /\ a = b.
Proof.
  induction p as [|c p IH]; intros d a b Hp Hd Ha Hb E.
  - destruct d as [|c' d]; [auto|]. exfalso.
    destruct Ha as (c0 & a' & -> & Hc0). simpl in E. injection E as -> _.
    inversion Hd. congruence.
  - inversion Hp as [|? ? Hc Hp']. subst. destruct d as [|c' d].
    + exfalso. destruct Hb as (c0 & b' & -> & Hc0). simpl in E. injection E as -> _.
      congruence.
    + simpl in E. injection E as <- E. inversion Hd as [|? ? _ Hd']. subst.
      destruct (IH d a b Hp' Hd' Ha Hb E) as [-> ->]. auto.
Qed.

Lemma symbol_nondigit sym r : symbol sym -> starts_nondigit (sym ++ r).
Proof.
  intros [->|[->| ->]]; eexists; eexists; (split; [reflexivity|reflexivity]).
Qed.

Lemma numeral_starts_digit d r :
  numeral d -> exists c r', d ++ r = c :: r' /\ is_any_digit c = true.
Proof.
  intros [Hne Hd]. destruct d as [|c d]; [congruence|]. inversion Hd.
  exists c, (d ++ r). auto.
Qed.

Lemma optional_negative_before_digit i c r' on w i1 :
  i = c :: r' -> is_any_digit c = true ->
  path optional_graph_negative i on w i1 -> i1 = i /\ on = [] /\ w = 0%Z.
Proof.
  intros -> Hc H. apply path_optional_graph_negative in H.
  destruct H as [-> [(-> & ->)|(E & _)]]; [auto|].
  exfalso. change (u "-") with [45%N] in E. simpl in E. injection E as -> _.
  discriminate Hc.
Qed.

Lemma path_symbol_graph i o w r :
  path symbol_graph i o w r <-> exists sym, symbol sym /\ i = sym ++ r /\ o = HI_BY /\ w = 0%Z.
Proof.
  unfold symbol_graph. rewrite path_string_map. split.
  - intros (k & Hin & -> & ->). simpl in Hin.
    destruct Hin as [H|[H|[H|[]]]]; injection H as <- <-.
    + exists LOWERCASE_X. unfold symbol. auto.
    + exists UPPERCASE_X. unfold symbol. auto.
    + exists ASTERISK. unfold symbol. auto.
  - intros (sym & Hs & -> & -> & ->). exists sym. split; [|auto].
    destruct Hs as [->|[->| ->]]; simpl; auto.
Qed.

Lemma path_graph_exceptions i o w r :
  path (graph_exceptions cardinal) i o w r <->
  exists n1 i1 o1 w1 r1 ov r2 n2 i2 o2 w2,
    path optional_graph_negative i n1 0%Z i1 /\
    path (cardinal_graph cardinal) i1 o1 w1 r1 /\
    path symbol_graph r1 ov 0%Z r2 /\
    path optional_graph_negative r2 n2 0%Z i2 /\
    path (cardinal_graph cardinal) i2 o2 w2 r /\
    o = u "cardinal { " ++ n1 ++ (u "integer: " ++ q) ++ o1 ++ q ++ u " }" ++ NEMO_SPACE
        ++ (u "units: " ++ q) ++ ov ++ q ++ NEMO_SPACE ++ u "} }" ++ u " "
        ++ u "tokens { cardinal { " ++ n2 ++ (u "integer: " ++ q) ++ o2 ++ q /\
    w = (w1 + w2)%Z.
Proof.
  unfold graph_exceptions. split.
  - intro H. inv_paths.
    match goal with
    | Ha : path optional_graph_negative i ?n1 ?wa ?i1,
      Hb : path (cardinal_graph cardinal) ?i1 ?o1 ?w1 ?r1,
      Hc : path symbol_graph ?r1 ?ov ?wc ?r2,
      Hd : path optional_graph_negative ?r2 ?n2 ?wd ?i2,
      He : path (cardinal_graph cardinal) ?i2 ?o2 ?w2 _ |- _ =>
        destruct (proj1 (path_optional_graph_negative _ _ _ _) Ha) as [-> _];
        destruct (proj1 (path_optional_graph_negative _ _ _ _) Hd) as [-> _];
        destruct (proj1 (path_symbol_graph _ _ _ _) Hc) as (? & _ & _ & _ & ->);
        exists n1, i1, o1, w1, r1, ov, r2, n2, i2, o2, w2
    end.
    repeat (split; [assumption|]). split; [reflexivity | lia].
  - intros (n1 & i1 & o1 & w1 & r1 & ov & r2 & n2 & i2 & o2 & w2 &
            Ha & Hb & Hc & Hd & He & -> & ->).
    eapply path_conv; [build|reflexivity|lia].
Qed.

Lemma product_path d1 sym d2 o1 w1 o2 w2 :
  numeral d1 -> symbol sym -> numeral d2 ->
  path (cardinal_graph cardinal) (d1 ++ sym ++ d2) o1 w1 (sym ++ d2) ->
  path (cardinal_graph cardinal) d2 o2 w2 [] ->
  path G (d1 ++ sym ++ d2) (product_tag o1 o2) (w1 + w2 + 1000)%Z [].
Proof.
  intros Hd1 Hs Hd2 H1 H2.
  apply path_graph_alternative with (t := graph_exceptions cardinal).
  - unfold alternatives. simpl. tauto.
  - apply path_graph_exceptions.
    exists [], (d1 ++ sym ++ d2), o1, w1, (sym ++ d2), HI_BY, d2, [], d2, o2, w2.
    repeat split; try assumption.
    + apply path_optional_graph_negative. auto.
    + apply path_symbol_graph. exists sym. auto.
    + apply path_optional_graph_negative. auto.
Qed.

Lemma exceptions_on_product d1 sym d2 o w :
  numeral d1 -> symbol sym -> numeral d2 ->
  path (graph_exceptions cardinal) (d1 ++ sym ++ d2) o w [] ->
  exists o1 w1 o2 w2,
    path (cardinal_graph cardinal) (d1 ++ sym ++ d2) o1 w1 (sym ++ d2) /\
    path (cardinal_graph cardinal) d2 o2 w2 [] /\
    o = product_tag o1 o2 /\ w = (w1 + w2)%Z.
Proof.
  intros Hd1 Hs Hd2 H. apply path_graph_exceptions in H.
  destruct H as (n1 & i1 & o1 & w1 & r1 & ov & r2 & n2 & i2 & o2 & w2 &
                 Ha & Hb & Hc & Hd & He & -> & ->).
  destruct (numeral_starts_digit (sym ++ d2) Hd1) as (c & r' & E & Hc').
  destruct (optional_negative_before_digit E Hc' Ha) as (-> & -> & _).
  destruct (cardinal_reads _ _ _ _ Hb) as (p & Ep & _ & Hp).
  apply path_symbol_graph in Hc. destruct Hc as (sym' & Hs' & -> & -> & _).
  destruct (@digits_split p d1 (sym' ++ r2) (sym ++ d2) Hp (proj2 Hd1)
              (symbol_nondigit r2 Hs') (symbol_nondigit d2 Hs) (eq_sym Ep)) as [-> E2].
  assert (sym' = sym /\ r2 = d2).
  { destruct Hs as [->|[->| ->]]; destruct Hs' as [->|[->| ->]];
      vm_compute in E2; injection E2 as E2; try discriminate; subst; auto;
      try (injection E2 as <-; auto). }
  destruct H as [-> ->].
  destruct (numeral_starts_digit [] Hd2) as (c2 & r2' & E2' & Hc2).
  rewrite app_nil_r in E2'.
  destruct (optional_negative_before_digit E2' Hc2 Hd) as (-> & -> & _).
  exists o1, w1, o2, w2. repeat split; auto.
Qed.

Lemma symbol_facts sym :
  symbol sym -> exists c, sym = [c] /\ is_any_digit c = false /\ is_white_space c = false
                          /\ plain c.
Proof.
  intros [->|[->| ->]]; eexists; (split; [reflexivity|]);
    (split; [reflexivity|]); (split; [reflexivity|]);
    unfold plain, is_dot, is_boundary, is_space; repeat split;
    try discriminate; intros [E|[E|[E|E]]]; discriminate E.
Qed.

Lemma plain_product d1 sym d2 :
  numeral d1 -> symbol sym -> numeral d2 -> Forall plain (d1 ++ sym ++ d2).
Proof.
  intros [_ H1] Hs [_ H2]. destruct (symbol_facts Hs) as (c & -> & _ & _ & Hc).
  apply Forall_app. split; [|apply Forall_app; split].
  - eapply Forall_impl; [|exact H1]. apply plain_digit.
  - constructor; [exact Hc | constructor].
  - eapply Forall_impl; [|exact H2]. apply plain_digit.
Qed.

Lemma cardinal_with_rejects_product n g K d1 sym d2 o w :
  reads n numeral -> keyed g K ->
  (forall key v, K key v -> Forall (fun c => is_any_digit c = false) key) ->
  numeral d1 -> symbol sym -> numeral d2 ->
  ~ path (cardinal_with n (wrap_units g)) (d1 ++ sym ++ d2) o w [].
Proof.
  intros Hn Hg HK Hd1 Hs Hd2 H. apply path_cardinal_with in H.
  destruct H as (on & i1 & oc & wc & r1 & r2 & ou & wu & H1 & H2 & H3 & H4 & _ & _).
  destruct (numeral_starts_digit (sym ++ d2) Hd1) as (c & r' & E & Hc).
  destruct (optional_negative_before_digit E Hc H1) as (-> & _ & _). clear E.
  destruct (Hn _ _ _ _ H2) as (p & Ep & _ & Hp).
  destruct (@numeral_prefix p d1 (sym ++ d2) r1 Hp (proj2 Hd1)
              (symbol_nondigit d2 Hs) (eq_sym Ep)) as (d' & Ed & ->).
  assert (Hd' : Forall (fun c => is_any_digit c = true) d').
  { destruct Hd1 as [_ Hd1]. rewrite Ed in Hd1. apply Forall_app in Hd1. apply Hd1. }
  apply path_delete_space in H3. destruct H3 as (_ & _ & ws & Ews & Hws).
  apply path_wrap_units in H4. destruct H4 as (v & H4 & _).
  destruct (Hg _ _ _ _ H4) as (_ & key & Hkey & Ekey). rewrite app_nil_r in Ekey. subst r2.
  destruct (symbol_facts Hs) as (cs & -> & Hcs & Hcsw & _).
  assert (Hws0 : ws = []).
  { destruct ws as [|c0 ws]; [reflexivity|]. exfalso.
    inversion Hws as [|? ? Hc0 _]. destruct d' as [|c1 d'].
    - simpl in Ews. injection Ews as Ec _. congruence.
    - simpl in Ews. injection Ews as Ec _. inversion Hd' as [|? ? Hc1 _].
      destruct (digit_facts _ Hc1) as (Hw & _). congruence. }
  subst ws. simpl in Ews. subst key.
  specialize (HK _ _ Hkey). apply Forall_app in HK. destruct HK as [_ HK].
  simpl in HK. inversion HK as [|? ? _ HK2].
  destruct Hd2 as [Hne Hd2]. destruct d2 as [|c2 d2]; [congruence|].
  inversion HK2. inversion Hd2. congruence.
Qed.

Lemma graph_on_product d1 sym d2 o w :
  numeral d1 -> symbol sym -> numeral d2 ->
  path G (d1 ++ sym ++ d2) o w [] ->
  exists o1 w1 o2 w2,
    path (cardinal_graph cardinal) (d1 ++ sym ++ d2) o1 w1 (sym ++ d2) /\
    path (cardinal_graph cardinal) d2 o2 w2 [] /\
    o = product_tag o1 o2 /\ w = (w1 + w2 + 1000)%Z.
Proof.
  intros Hd1 Hs Hd2 H.
  pose proof (@plain_product d1 sym d2 Hd1 Hs Hd2) as Hplain.
  assert (Hdot : Forall (fun c => ~ is_dot c) (d1 ++ sym ++ d2))
    by (eapply Forall_impl; [|exact Hplain]; intros c Hc; apply Hc).
  assert (Hbd : Forall (fun c => ~ is_boundary c) (d1 ++ sym ++ d2))
    by (eapply Forall_impl; [|exact Hplain]; intros c Hc; apply Hc).
  assert (Hsp : Forall (fun c => ~ is_space c) (d1 ++ sym ++ d2))
    by (eapply Forall_impl; [|exact Hplain]; intros c Hc; apply Hc).
  unfold graph, optimize in H. apply path_union_list in H. destruct H as (t & Hin & H).
  unfold alternatives in Hin. simpl in Hin.
  repeat (destruct Hin as [<-|Hin]); try contradiction.
  - exfalso. revert H. apply nowhere_no_path with (Q := is_dot); [|exact Hdot].
    apply reads_add_weight, reads_graph_decimal.
  - exfalso. revert H. apply nowhere_no_path with (Q := is_dot); [|exact Hdot].
    apply reads_add_weight, reads_graph_decimal_year_formal.
  - exfalso. apply path_add_weight in H. destruct H as (w' & H & _).
    unfold graph_cardinal, unit_ in H. revert H.
    apply (@cardinal_with_rejects_product _ _ _ d1 sym d2 o w' cardinal_reads
             keyed_unit_graph_no_year); auto.
    intros key v [Hin _]. exact (unit_keys_plain _ _ Hin).
  - exfalso. apply path_add_weight in H. destruct H as (w' & H & _).
    unfold graph_cardinal_year_formal, unit_year_formal, year_formal in H. revert H.
    apply (@cardinal_with_rejects_product _ _ _ d1 sym d2 o w' large_reads
             (keyed_string_map (measure_unit_year_formal data))); auto.
  - exfalso. apply path_add_weight in H. destruct H as (w' & H & _).
    unfold graph_cardinal_year_informal, unit_year_informal, year_informal in H. revert H.
    apply (@cardinal_with_rejects_product _ _ _ d1 sym d2 o w' small_reads
             (keyed_string_map [(u "yr", u "साल")])); auto.
    intros key v [Hin|[]]. injection Hin as <- _. repeat constructor.
  - apply path_add_weight in H. destruct H as (w' & H & ->).
    destruct (@exceptions_on_product d1 sym d2 o w' Hd1 Hs Hd2 H)
      as (o1 & w1 & o2 & w2 & H1 & H2 & -> & ->).
    exists o1, w1, o2, w2. auto.
  - exfalso. revert H. apply nowhere_no_path with (Q := is_dot); [|exact Hdot].
    apply reads_add_weight, reads_graph_dedh_dhai.
  - exfalso. revert H. apply nowhere_no_path with (Q := is_dot); [|exact Hdot].
    apply reads_add_weight, reads_graph_savva.
  - exfalso. revert H. apply nowhere_no_path with (Q := is_dot); [|exact Hdot].
    apply reads_add_weight, reads_graph_sadhe.
  - exfalso. revert H. apply nowhere_no_path with (Q := is_dot); [|exact Hdot].
    apply reads_add_weight, reads_graph_paune.
  - exfalso. revert H. apply nowhere_no_path with (Q := is_boundary); [|exact Hbd].
    apply reads_get_address_graph.
  - exfalso. destruct (reads_get_structured_address_graph _ _ _ _ H) as (p & E & [Hp|Hp]).
    + rewrite app_nil_r in E. subst p. unfold somewhere in Hp. apply Exists_exists in Hp.
      destruct Hp as (c & Hc & Hq). rewrite Forall_forall in Hsp. exact (Hsp c Hc Hq).
    + rewrite app_nil_r in E. subst p.
      destruct (numeral_starts_digit (sym ++ d2) Hd1) as (c & r' & E & Hc).
      rewrite E in Hp. destruct (@gazetteer_plain _ _ Hp) as [Hg _]. congruence.
Qed.


(** *** The fractional idioms against the generic decimal *)

Hypothesis fractional_nonneg :
  forall i o w r, path (Decimal.graph_fractional decimal) i o w r -> (0 <= w)%Z.

Lemma path_units k v : quarterly_unit data k v ->
  path (units data) k (NEMO_SPACE ++ (u "units: " ++ q) ++ v ++ q ++ NEMO_SPACE) 0%Z [].
Proof.
  intro H. unfold units. apply path_wrap_units. exists v. split; [|reflexivity].
  unfold quarterly_units_graph, quarterly_units_map, quarterly_units_list.
  apply path_union. destruct H as [H|H]; [left|right];
    apply path_string_map; exists k; rewrite app_nil_r; repeat split; assumption.
Qed.

(** A path of the generic decimal on an integer and a fraction: the
    cardinal graph reads the integer, and the path weighs no less. *)
Lemma decimal_on_fraction d rest o w :
  numeral d -> (exists rest', rest = dot_char :: rest') ->
  path (graph_decimal data cardinal decimal) (d ++ rest) o w [] ->
  exists oc wc, path (cardinal_graph cardinal) (d ++ rest) oc wc rest /\ (wc <= w)%Z.
Proof.
  intros Hd (rest' & ->) H. unfold graph_decimal, decimal_graph, decimal_integers, point in H.
  inv_paths.
  match goal with H : path optional_graph_negative _ _ _ _ |- _ => rename H into Ha end.
  match goal with H : path (cardinal_graph cardinal) _ _ _ _ |- _ => rename H into Hb end.
  match goal with H : path (delete _) _ _ _ _ |- _ => rename H into Hc end.
  match goal with H : path (Decimal.graph_fractional decimal) _ _ _ _ |- _ =>
    pose proof (fractional_nonneg _ _ _ _ H) as Hnn end.
  match goal with H : path GraphUtils.delete_space _ _ _ _ |- _ =>
    destruct (path_delete_space _ _ _ _ H) as (_ & Hw0 & _) end.
  match goal with H : path (unit_ data) _ _ _ _ |- _ =>
    unfold unit_ in H; apply path_wrap_units in H; destruct H as (v & Hu & _);
    destruct (keyed_unit_graph_no_year _ _ _ _ Hu) as (Hu0 & _) end.
  destruct (numeral_starts_digit (dot_char :: rest') Hd) as (c & r' & E & Hc').
  destruct (optional_negative_before_digit E Hc' Ha) as (Ei & _ & Hwa). clear E.
  apply path_delete in Hc. destruct Hc as (_ & o' & Hc).
  apply path_accep in Hc. destruct Hc as (Er1 & _ & Hwp).
  destruct (cardinal_reads _ _ _ _ Hb) as (p & Ep & _ & Hp).
  match type of Hb with
  | path _ ?i1 ?oc ?wc ?r1 =>
      exists oc, wc;
      assert (Hsplit : p = d /\ r1 = dot_char :: rest')
  end.
  { apply digits_split; try assumption.
    - apply Hd.
    - rewrite Er1. eexists. eexists. split; reflexivity.
    - exists dot_char, rest'. auto.
    - rewrite <- Ep. exact Ei. }
  destruct Hsplit as [-> Er]. split; [|subst; lia].
  rewrite Ei, Er in Hb. exact Hb.
Qed.


Ltac same_text :=
  unfold cardinal_tag, sign_tag; change (str_eqb [] (u "-")) with false;
  cbn [app]; rewrite ?app_nil_r; repeat rewrite <- app_assoc; reflexivity.

Lemma path_no_sign i : path optional_graph_negative i [] 0%Z i.
Proof. apply path_optional_graph_negative. auto. Qed.

Lemma path_cross_literal a b lit r :
  lit = a \/ lit = b -> path (cross (accep a :| accep b) []) (lit ++ r) [] 0%Z r.
Proof.
  intro H. apply path_cross. split; [reflexivity|]. exists lit. apply path_union.
  destruct H as [->| ->]; [left|right]; apply path_accep; auto.
Qed.

Lemma savva_path frac d k v oc wc :
  frac = u ".२५" \/ frac = u ".25" -> quarterly_unit data k v ->
  path (cardinal_graph cardinal) (d ++ frac ++ k) oc wc (frac ++ k) ->
  path (graph_savva data cardinal) (d ++ frac ++ k)
       (cardinal_tag [] (HI_SAVVA ++ NEMO_SPACE ++ oc) v) wc [].
Proof.
  intros Hf Hk Hc.
  pose proof (path_no_sign (d ++ frac ++ k)) as Hn.
  pose proof (@path_cross_literal (u ".२५") (u ".25") frac k Hf) as Hx.
  pose proof (path_delete_space_nil k) as Hs.
  pose proof (@path_units k v Hk) as Hu.
  unfold graph_savva, savva_graph, savva_numbers, DECIMAL_25.
  eapply path_conv; [build| |lia]. same_text.
Qed.

Lemma sadhe_path frac d k v oc wc :
  frac = u ".५" \/ frac = u ".5" -> quarterly_unit data k v ->
  path (cardinal_graph cardinal) (d ++ frac ++ k) oc wc (frac ++ k) ->
  path (graph_sadhe data cardinal) (d ++ frac ++ k)
       (cardinal_tag [] (HI_SADHE ++ NEMO_SPACE ++ oc) v) wc [].
Proof.
  intros Hf Hk Hc.
  pose proof (path_no_sign (d ++ frac ++ k)) as Hn.
  pose proof (@path_cross_literal (u ".५") (u ".5") frac k Hf) as Hx.
  pose proof (path_delete_space_nil k) as Hs.
  pose proof (@path_units k v Hk) as Hu.
  unfold graph_sadhe, sadhe_graph, sadhe_numbers, POINT_FIVE.
  eapply path_conv; [build| |lia]. same_text.
Qed.

Lemma paune_path frac x xv k v :
  frac = u ".७५" \/ frac = u ".75" -> quarterly_unit data k v ->
  In (x, xv) (whitelist_paune_mappings data) ->
  path (graph_paune data) (x ++ frac ++ k)
       (cardinal_tag [] (HI_PAUNE ++ NEMO_SPACE ++ xv) v) 0%Z [].
Proof.
  intros Hf Hk Hx0.
  pose proof (path_no_sign (x ++ frac ++ k)) as Hn.
  pose proof (@path_string_map_intro (whitelist_paune_mappings data) x xv (frac ++ k) Hx0) as Hp.
  pose proof (@path_cross_literal (u ".७५") (u ".75") frac k Hf) as Hx.
  pose proof (path_delete_space_nil k) as Hs.
  pose proof (@path_units k v Hk) as Hu.
  unfold graph_paune, paune_graph, paune_numbers, paune, DECIMAL_75.
  eapply path_conv; [build| |lia].
  change (u " }") with (NEMO_SPACE ++ u "}"). same_text.
Qed.

Lemma dedh_dhai_path lit word k v :
  ((lit = u "१.५" \/ lit = u "1.5") /\ word = HI_DEDH) \/
  ((lit = u "२.५" \/ lit = u "2.5") /\ word = HI_DHAI) ->
  quarterly_unit data k v ->
  path (graph_dedh_dhai data) (lit ++ k) (cardinal_tag [] word v) 0%Z [].
Proof.
  intros Hl Hk.
  pose proof (path_no_sign (lit ++ k)) as Hn.
  assert (Hx : path dedh_dhai (lit ++ k) word 0%Z k).
  { unfold dedh_dhai. apply path_union.
    destruct Hl as [(Hl & ->)|(Hl & ->)]; [left|right]; apply path_cross;
      (split; [reflexivity|]); exists lit; apply path_union;
      (destruct Hl as [->| ->]; [left|right]; apply path_accep; auto). }
  pose proof (path_delete_space_nil k) as Hs.
  pose proof (@path_units k v Hk) as Hu.
  unfold graph_dedh_dhai, dedh_dhai_graph.
  eapply path_conv; [build| |lia]. same_text.
Qed.

Lemma quarter_beats_decimal frac word d k v od wd :
  quarter_idiom frac word -> numeral d -> quarterly_unit data k v ->
  path (add_weight (graph_decimal data cardinal decimal) 1000) (d ++ frac ++ k) od wd [] ->
  exists oc wc,
    path G (d ++ frac ++ k) (cardinal_tag [] (word ++ NEMO_SPACE ++ oc) v) wc [] /\
    (wc < wd)%Z.
Proof.
  intros Hq Hd Hk H. apply path_add_weight in H. destruct H as (w' & H & ->).
  assert (Hdot : exists rest', frac ++ k = dot_char :: rest').
  { destruct Hq as [([->| ->] & _)|([->| ->] & _)]; eexists; reflexivity. }
  destruct (@decimal_on_fraction d (frac ++ k) od w' Hd Hdot H) as (oc & wc & Hc & Hle).
  exists oc, (wc + -1000)%Z. split; [|lia].
  destruct Hq as [(Hf & ->)|(Hf & ->)].
  - apply path_graph_alternative with (t := graph_savva data cardinal).
    + unfold alternatives. simpl. tauto.
    + apply savva_path; [tauto | assumption | assumption].
  - apply path_graph_alternative with (t := graph_sadhe data cardinal).
    + unfold alternatives. simpl. tauto.
    + apply sadhe_path; [tauto | assumption | assumption].
Qed.

Hypothesis cardinal_floor :
  forall i o w r, path (cardinal_graph cardinal) i o w r -> (-3000 < w)%Z.

Lemma fixed_idiom_beats_decimal pre alt k v od wd :
  fixed_idiom data cardinal pre alt -> quarterly_unit data k v ->
  path (add_weight (graph_decimal data cardinal decimal) 1000) (pre ++ k) od wd [] ->
  exists oi wi, path alt (pre ++ k) oi wi [] /\ (wi < wd)%Z.
Proof.
  intros Hi Hk H. apply path_add_weight in H. destruct H as (w' & H & ->).
  destruct Hi as [(Hl & ->)|[((zero & half & -> & Hz & Hh) & ->)|
                             ((x & xv & frac & -> & Hx & Hin & Hf) & ->)]].
  - assert (Hsplit : exists d rest', numeral d /\ pre ++ k = d ++ dot_char :: rest').
    { destruct Hl as [->|[->|[->| ->]]];
        [exists (u "1"), (u "5" ++ k) | exists (u "१"), (u "५" ++ k)
        |exists (u "2"), (u "5" ++ k) | exists (u "२"), (u "५" ++ k)];
        (split; [split; [discriminate | repeat constructor] | vm_compute; reflexivity]). }
    destruct Hsplit as (d & rest' & Hd & E). rewrite E in H.
    destruct (@decimal_on_fraction d (dot_char :: rest') od w' Hd
                (ex_intro _ rest' eq_refl) H) as (oc & wc & Hc & Hle).
    pose proof (cardinal_floor _ _ _ _ Hc) as Hfl.
    assert (Hw : exists word,
               ((pre = u "१.५" \/ pre = u "1.5") /\ word = HI_DEDH) \/
               ((pre = u "२.५" \/ pre = u "2.5") /\ word = HI_DHAI)).
    { destruct Hl as [->|[->|[->| ->]]]; eexists; eauto. }
    destruct Hw as (word & Hw).
    exists (cardinal_tag [] word v), (0 + -2000)%Z. split; [|lia].
    apply path_add_weight_intro. apply dedh_dhai_path; assumption.
  - assert (Hd : numeral zero)
      by (destruct Hz as [->| ->]; (split; [discriminate | repeat constructor])).
    rewrite <- app_assoc in H.
    assert (Hdot : exists rest', half ++ k = dot_char :: rest')
      by (destruct Hh as [->| ->]; eexists; reflexivity).
    destruct (@decimal_on_fraction zero (half ++ k) od w' Hd Hdot H)
      as (oc & wc & Hc & Hle).
    exists (cardinal_tag [] (HI_SADHE ++ NEMO_SPACE ++ oc) v), (wc + -1000)%Z.
    split; [|lia]. rewrite <- app_assoc.
    apply path_add_weight_intro. apply sadhe_path; [tauto | assumption | assumption].
  - rewrite <- app_assoc in H.
    assert (Hdot : exists rest', frac ++ k = dot_char :: rest')
      by (destruct Hf as [->| ->]; eexists; reflexivity).
    destruct (@decimal_on_fraction x (frac ++ k) od w' Hx Hdot H)
      as (oc & wc & Hc & Hle).
    pose proof (cardinal_floor _ _ _ _ Hc) as Hfl.
    exists (cardinal_tag [] (HI_PAUNE ++ NEMO_SPACE ++ xv) v), (0 + -5000)%Z.
    split; [|lia]. rewrite <- app_assoc.
    apply path_add_weight_intro. apply paune_path; [tauto | assumption | assumption].
Qed.

End Tagger.

End MeasureFacts.
(** ** The address grammars *)

Module AddressFacts.
Import Pynini PyniniFacts Reads GraphUtils MeasureFst MeasureSpec MeasureFacts.

Local Open Scope fst_scope.

Section Contextual.

Variable data : Data.
Variable ordinal : Ordinal.t.
Variable input_case : str.

Lemma plain_char_copied c r :
  is_plain_char data c = true -> path (non_space_char data) (c :: r) [c] 0%Z r.
Proof.
  unfold is_plain_char. intro H. apply andb_prop in H. destruct H as [H _].
  revert r. apply difference_class_char. exact H.
Qed.

Lemma plain_char_in_word c r :
  is_plain_char data c = true -> path non_boundary_char (c :: r) [c] 0%Z r.
Proof.
  unfold is_plain_char. intro H. apply andb_prop in H. destruct H as [_ H].
  revert r. apply difference_class_char. exact H.
Qed.

Lemma space_is_boundary r : path word_boundary (u " " ++ r) (u " ") 0%Z r.
Proof.
  unfold word_boundary, optimize. apply path_union. left.
  apply path_char_class. exists 32%N. auto.
Qed.

(** The other-word processor copies a plain word behind a space. *)
Lemma other_word_copies p r :
  plain_word data p ->
  path (token_processor data ordinal input_case) (p ++ r) (u " " ++ p) 1000%Z r.
Proof.
  intros [Hne Hp]. unfold token_processor, optimize.
  do 6 (apply path_union; right). unfold other_word_processor.
  eapply path_conv.
  - apply path_add_weight_intro. eapply path_concat_intro.
    + apply path_insert_intro.
    + apply closure_from_reads_word; [exact Hne|].
      intros c r' Hin. apply plain_char_copied.
      rewrite Forall_forall in Hp. apply Hp. exact Hin.
  - reflexivity.
  - reflexivity.
Qed.

Lemma space_token r :
  path (token_processor data ordinal input_case) (u " " ++ r) (u " ") 0%Z r.
Proof.
  unfold token_processor, optimize. do 4 (apply path_union; right).
  apply path_union. left. apply path_accep_intro.
Qed.

(** The token processors on a plain word, a space and another plain word. *)
Lemma two_words_processed p k :
  plain_word data p -> plain_word data k ->
  path (full_string_processor data ordinal input_case) (p ++ u " " ++ k)
       (u " " ++ p ++ u " " ++ u " " ++ k) 2000%Z [].
Proof.
  intros Hp Hk. unfold full_string_processor, optimize, closure_from.
  cbn [power]. 
  eapply path_conv.
  - eapply path_concat_intro.
    + eapply path_concat_intro; [apply other_word_copies; exact Hp | apply path_epsilon_intro].
    + eapply closure_step; [apply space_token | simpl; lia |].
      eapply closure_step with (r1 := []).
      * rewrite <- (app_nil_r k) at 1. apply other_word_copies. exact Hk.
      * destruct Hk as [Hne _]. destruct k; [congruence | simpl; lia].
      * apply closure_nil.
  - rewrite !app_nil_r. rewrite <- !app_assoc. reflexivity.
  - reflexivity.
Qed.

Lemma word_in_window p r : plain_word data p -> path window (p ++ r) p 0%Z r.
Proof.
  intros [Hne Hp]. unfold window, optimize. apply path_closure_range.
  exists 1%nat. split; [lia|]. cbn [power]. unfold word_with_boundary.
  eapply path_conv.
  - eapply path_concat_intro; [eapply path_concat_intro | apply path_epsilon_intro].
    + unfold c_word, optimize. apply closure_from_reads_word; [exact Hne|].
      intros c r' Hin. apply plain_char_in_word.
      rewrite Forall_forall in Hp. apply Hp. exact Hin.
    + apply closure_nil.
  - rewrite !app_nil_r. reflexivity.
  - reflexivity.
Qed.

Lemma one_space_boundary r : path boundary (u " " ++ r) (u " ") 0%Z r.
Proof.
  unfold boundary, optimize, closure_from. cbn [power].
  eapply path_conv.
  - eapply path_concat_intro; [eapply path_concat_intro | apply closure_nil].
    + apply space_is_boundary.
    + apply path_epsilon_intro.
  - reflexivity.
  - reflexivity.
Qed.

(** A plain word, a space and a keyword of the context table match the
    input pattern. *)
Lemma keyword_after_word p k kv :
  plain_word data p -> In (k, kv) (address_context data) ->
  path (input_pattern data input_case) (p ++ u " " ++ k) (p ++ u " " ++ kv) 0%Z [].
Proof.
  intros Hp Hk. unfold input_pattern, optimize. apply path_union. right.
  eapply path_conv.
  - eapply path_concat_intro; [apply word_in_window; exact Hp|].
    eapply path_concat_intro; [apply one_space_boundary|].
    eapply path_concat_intro.
    + unfold address_keywords. apply path_union. left. unfold address_keywords_hi.
      rewrite <- (app_nil_r k). apply path_string_map_intro. exact Hk.
    + apply path_closure_range. exists 0%nat. split; [lia|]. apply path_epsilon_intro.
  - rewrite !app_nil_r. reflexivity.
  - reflexivity.
Qed.

(** The contextual grammar tags a plain word followed by a keyword. *)
Lemma address_of_word_and_keyword p k kv :
  plain_word data p -> In (k, kv) (address_context data) -> plain_word data kv ->
  path (get_address_graph data ordinal input_case) (p ++ u " " ++ k)
       (address_tag (u " " ++ p ++ u " " ++ u " " ++ kv)) 12500%Z [].
Proof.
  intros Hp Hk Hkv. unfold get_address_graph, address_graph, optimize, address_tag.
  eapply path_conv.
  - apply path_add_weight_intro. eapply path_concat_intro; [apply path_insert_intro|].
    eapply path_concat_intro; [|apply path_insert_intro].
    apply path_compose. exists (p ++ u " " ++ kv), 0%Z, 2000%Z. split; [|split].
    + apply keyword_after_word; assumption.
    + apply two_words_processed; assumption.
    + reflexivity.
  - reflexivity.
  - reflexivity.
Qed.

End Contextual.

(** *** What the address grammars weigh *)

Section AddressWeights.

Variable data : Data.
Variable ordinal : Ordinal.t.
Variable input_case : str.

Lemma weightless_pattern : weightless (pattern data).
Proof.
  unfold pattern, text, word_with_sep, sep, s_word, word_char, punctuation, any_digit,
    street_num, pincode, num_token, state_city_names, digit_graph, insert_space,
    NEMO_NOT_SPACE, NEMO_HI_DIGIT, NEMO_DIGIT, NEMO_CHAR.
  Weights.weigh.
Qed.

(** Every path of the structured address grammar weighs 1.0. *)
Lemma structured_weight i o w r :
  path (get_structured_address_graph data) i o w r -> w = 10000%Z.
Proof.
  unfold get_structured_address_graph, optimize. intro H.
  apply path_add_weight in H. destruct H as (w' & H & ->).
  inv_paths.
  match goal with
  | H : path (pattern data) _ _ _ _ |- _ => rewrite (weightless_pattern _ _ _ _ H)
  end.
  reflexivity.
Qed.

Hypothesis no_ordinal : empty (Ordinal.graph ordinal).
Hypothesis no_english : empty (en_to_hi_map data input_case).

Lemma weightless_input_pattern : weightless (input_pattern data input_case).
Proof.
  unfold input_pattern, window, word_with_boundary, boundary, c_word, non_boundary_char,
    word_boundary, address_keywords, address_keywords_hi, address_keywords_en,
    NEMO_WHITE_SPACE, NEMO_CHAR.
  Weights.weigh; apply Weights.weighs_empty; exact no_english.
Qed.

Lemma nonnegative_full_string_processor :
  nonnegative (full_string_processor data ordinal input_case).
Proof.
  unfold full_string_processor, token_processor, optimize.
  apply Weights.weighs_closure_from; [lia | intros; lia |].
  apply Weights.weighs_union; [| apply Weights.weighs_union].
  - apply Weights.weighs_empty. unfold ordinal_processor.
    apply Weights.empty_add_weight, Weights.empty_concat_right. exact no_ordinal.
  - apply Weights.weighs_empty. unfold english_word_processor.
    apply Weights.empty_add_weight, Weights.empty_concat_right. exact no_english.
  - unfold letter_processor, digit_char_processor, comma_processor, other_word_processor,
      single_letter, letter_to_word, convertible_char, single_digit, special_chars,
      char_to_word, digit_graph, non_space_char, insert_space, GraphUtils.delete_space,
      NEMO_WHITE_SPACE, NEMO_DIGIT, NEMO_HI_DIGIT, NEMO_CHAR.
    Weights.weigh. unfold single_letter, letter_to_word. Weights.weigh.
Qed.

(** With no ordinal and no English keyword, every path of the contextual
    address grammar weighs 1.05 at least. *)
Lemma contextual_weight i o w r :
  path (get_address_graph data ordinal input_case) i o w r -> (10500 <= w)%Z.
Proof.
  unfold get_address_graph, address_graph, optimize. intro H.
  apply path_add_weight in H. destruct H as (w' & H & ->).
  inv_paths.
  match goal with
  | H : path (compose _ _) _ _ _ _ |- _ =>
      apply path_compose in H; destruct H as (o1 & w1 & w2 & Ha & Hb & ->)
  end.
  rewrite (weightless_input_pattern _ _ _ _ Ha).
  pose proof (nonnegative_full_string_processor _ _ _ _ Hb) as Hn. cbv beta in Hn. lia.
Qed.

End AddressWeights.

(** *** The shape of a structured address *)

Lemma accepts_white_space c : accepts NEMO_WHITE_SPACE [c] = is_white_space c.
Proof.
  unfold accepts, full, NEMO_WHITE_SPACE, char_class.
  destruct (is_white_space c); reflexivity.
Qed.

Lemma accepts_word_exclusions c :
  accepts (any_digit :| punctuation) [c]
  = is_any_digit c || existsb (N.eqb c) [44; 46; 2404]%N.
Proof.
  unfold accepts, full, any_digit, punctuation, optimize, union, accep, cross_str,
    NEMO_HI_DIGIT, NEMO_DIGIT, char_class, is_any_digit.
  change COMMA with [44%N]. change PERIOD with [46%N]. change HI_PERIOD with [2404%N].
  cbn [is_prefix existsb]. rewrite (N.eqb_sym 44 c), (N.eqb_sym 46 c), (N.eqb_sym 2404 c).
  destruct (is_hi_digit c), (is_digit c), (N.eqb c 44), (N.eqb c 46), (N.eqb c 2404);
    reflexivity.
Qed.

Lemma path_word_char i o w r :
  path word_char i o w r <->
  exists c, i = c :: r /\ is_word_char c = true /\ o = [c] /\ w = 0%Z.
Proof.
  unfold word_char, optimize, NEMO_NOT_SPACE, NEMO_CHAR.
  rewrite !path_difference, path_char_class. split.
  - intros (((c & -> & _ & -> & ->) & Hw) & Hx).
    change (c :: r) with ([c] ++ r) in Hw, Hx. rewrite consumed_app in Hw, Hx.
    rewrite accepts_white_space in Hw. rewrite accepts_word_exclusions in Hx.
    apply orb_false_elim in Hx. destruct Hx as [Hd Hp].
    exists c. repeat split. unfold is_word_char. rewrite Hw, Hd, Hp. reflexivity.
  - intros (c & -> & Hc & -> & ->). unfold is_word_char in Hc.
    apply andb_prop in Hc. destruct Hc as [Hc Hp]. apply andb_prop in Hc.
    destruct Hc as [Hw Hd]. apply negb_true_iff in Hw, Hd, Hp.
    change (c :: r) with ([c] ++ r). rewrite consumed_app.
    rewrite accepts_white_space, accepts_word_exclusions, Hw, Hd, Hp.
    repeat split. exists c. repeat split.
Qed.

Lemma path_word_chars i o w r :
  path (closure word_char) i o w r ->
  exists p, Forall (fun c => is_word_char c = true) p /\ i = p ++ r /\ o = p /\ w = 0%Z.
Proof.
  revert i o w r.
  apply closure_ind
    with (Q := fun i o w r =>
                 exists p, Forall (fun c => is_word_char c = true) p
                           /\ i = p ++ r /\ o = p /\ w = 0%Z).
  - intro i. exists []. auto.
  - intros i o1 w1 r1 o2 w2 r H _ (p & Hp & -> & -> & ->).
    apply path_word_char in H. destruct H as (c & -> & Hc & -> & ->).
    exists (c :: p). auto.
Qed.

Lemma path_s_word i o w r :
  path s_word i o w r <->
  exists p, p <> [] /\ Forall (fun c => is_word_char c = true) p
            /\ i = p ++ r /\ o = p /\ w = 0%Z.
Proof.
  split.
  - unfold s_word, closure_from. cbn [power]. intro H. inv_paths.
    match goal with
    | H : path word_char _ _ _ _ |- _ =>
        apply path_word_char in H; destruct H as (c & -> & Hc & -> & ->)
    end.
    match goal with
    | H : path (closure word_char) _ _ _ _ |- _ =>
        apply path_word_chars in H; destruct H as (p & Hp & -> & -> & ->)
    end.
    exists (c :: p). repeat split; auto. discriminate.
  - intros (p & Hne & Hp & -> & -> & ->). unfold s_word.
    apply closure_from_reads_word; [exact Hne|].
    intros c r' Hin. apply path_word_char. exists c. repeat split.
    rewrite Forall_forall in Hp. apply Hp. exact Hin.
Qed.

(** Zero or one copy. *)
Lemma path_optional t i o w r :
  path (closure_range t 0 1) i o w r <-> (r = i /\ o = [] /\ w = 0%Z) \/ path t i o w r.
Proof.
  unfold closure_range. cbn [power upto Nat.sub]. split.
  - intro H. inv_paths; [left; auto | right].
    rewrite app_nil_r, Z.add_0_r. cbn [app]. assumption.
  - intros [(-> & -> & ->)|H].
    + eapply path_conv; [eapply path_concat_intro; [build|apply path_union; left; build]| |];
        reflexivity.
    + eapply path_conv.
      * eapply path_concat_intro; [build|]. apply path_union. right.
        eapply path_concat_intro; [exact H | build].
      * cbn [app]. apply app_nil_r.
      * lia.
Qed.

Lemma path_sep i o w r :
  path sep i o w r <-> exists sp, separator sp /\ i = sp ++ r /\ o = sp /\ w = 0%Z.
Proof.
  unfold sep. rewrite path_concat. split.
  - intros (o1 & w1 & r1 & o2 & w2 & H1 & H2 & -> & ->).
    apply path_accep in H2. destruct H2 as (-> & -> & ->).
    apply path_optional in H1. destruct H1 as [(<- & -> & ->)|H1].
    + exists (u " "). repeat split. left. reflexivity.
    + apply path_accep in H1. destruct H1 as (-> & -> & ->).
      exists (u ", "). repeat split. right. reflexivity.
  - intros (sp & [->| ->] & -> & -> & ->).
    + exists [], 0%Z, (u " " ++ r), (u " "), 0%Z. repeat split.
      * apply path_optional. left. auto.
      * apply path_accep_intro.
    + exists (u ","), 0%Z, (u " " ++ r), (u " "), 0%Z. repeat split.
      * apply path_optional. right. apply (path_accep_intro COMMA (u " " ++ r)).
      * apply path_accep_intro.
Qed.

Lemma path_words n i o w r :
  path (power word_with_sep n) i o w r <->
  exists t, words n t /\ i = t ++ r /\ o = t /\ w = 0%Z.
Proof.
  revert i o w r. induction n as [|n IH]; intros i o w r; cbn [power].
  - rewrite path_epsilon. split.
    + intros (-> & -> & ->). exists []. repeat split. constructor.
    + intros (t & Ht & -> & -> & ->). inversion Ht. auto.
  - rewrite path_concat. split.
    + intros (o1 & w1 & r1 & o2 & w2 & H1 & H2 & -> & ->).
      apply IH in H2. destruct H2 as (t & Ht & -> & -> & ->).
      unfold word_with_sep in H1. apply path_concat in H1.
      destruct H1 as (o3 & w3 & r3 & o4 & w4 & H3 & H4 & -> & ->).
      apply path_sep in H4. destruct H4 as (sp & Hsp & -> & -> & ->).
      apply path_s_word in H3. destruct H3 as (p & Hne & Hp & -> & -> & ->).
      exists (p ++ sp ++ t). repeat split.
      * constructor; assumption.
      * rewrite <- !app_assoc. reflexivity.
      * rewrite <- !app_assoc. reflexivity.
    + intros (t & Ht & -> & -> & ->). inversion Ht as [|n' p sp rest Hne Hp Hsp Hrest]. subst.
      exists (p ++ sp), 0%Z, (rest ++ r), rest, 0%Z. repeat split.
      * unfold word_with_sep. apply path_concat.
        exists p, 0%Z, (sp ++ rest ++ r), sp, 0%Z. repeat split.
        -- rewrite <- !app_assoc. apply path_s_word. exists p. repeat split; assumption.
        -- apply path_sep. exists sp. repeat split. assumption.
      * apply IH. exists rest. repeat split. assumption.
      * rewrite <- !app_assoc. reflexivity.
Qed.

Lemma path_text i o w r :
  path text i o w r <-> exists t, free_text t /\ i = t ++ r /\ o = t /\ w = 0%Z.
Proof.
  unfold text, optimize. rewrite path_closure_range. split.
  - intros (n & Hn & H). apply path_words in H. destruct H as (t & Ht & -> & -> & ->).
    exists t. repeat split. exists n. split; [lia | assumption].
  - intros (t & (n & Hn & Ht) & -> & -> & ->). exists n. split; [lia|].
    apply path_words. exists t. auto.
Qed.

Section Structured.

Variable data : Data.

Lemma digit_run_pos n ks vs : digit_run data n ks vs -> (1 <= n)%nat.
Proof. intro H. destruct H; lia. Qed.

Lemma path_num_token i o w r :
  path (num_token data) i o w r <->
  exists k, digit_token data k o /\ i = k ++ r /\ w = 0%Z.
Proof.
  unfold num_token, optimize, digit_graph, digit_token. split.
  - intro H. apply path_union in H. destruct H as [H|H]; [|apply path_union in H; destruct H as [H|H]];
      apply path_string_map in H; destruct H as (k & Hk & -> & ->); exists k; auto.
  - intros (k & [Hk|[Hk|Hk]] & -> & ->).
    + apply path_union. left. apply path_string_map_intro. exact Hk.
    + apply path_union. right. apply path_union. left. apply path_string_map_intro. exact Hk.
    + apply path_union. right. apply path_union. right. apply path_string_map_intro. exact Hk.
Qed.

(** [n] more digit tokens, a space written before each. *)
Lemma path_more_tokens n i o w r :
  path (power (insert_space :+ num_token data) n) i o w r <->
  w = 0%Z /\
  ((n = 0%nat /\ r = i /\ o = []) \/
   exists ks vs, digit_run data n ks vs /\ i = ks ++ r /\ o = u " " ++ vs).
Proof.
  revert i o w r. induction n as [|n IH]; intros i o w r; cbn [power].
  - rewrite path_epsilon. split.
    + intros (-> & -> & ->). auto.
    + intros (-> & [(_ & -> & ->)|(ks & vs & H & _)]); [auto|].
      apply digit_run_pos in H. lia.
  - rewrite path_concat. split.
    + intros (o1 & w1 & r1 & o2 & w2 & H1 & H2 & -> & ->).
      apply IH in H2. destruct H2 as (-> & H2).
      apply path_concat in H1. destruct H1 as (o3 & w3 & r3 & o4 & w4 & H3 & H4 & -> & ->).
      apply path_insert in H3. destruct H3 as (-> & -> & ->).
      apply path_num_token in H4. destruct H4 as (k & Hk & -> & ->).
      split; [reflexivity|]. right.
      destruct H2 as [(-> & <- & ->)|(ks & vs & Hrun & -> & ->)].
      * exists k, o4. split; [constructor; exact Hk|]. split; [reflexivity|].
        rewrite app_nil_r. reflexivity.
      * exists (k ++ ks), (o4 ++ u " " ++ vs). split; [constructor; assumption|].
        split; rewrite <- !app_assoc; reflexivity.
    + intros (-> & [(Hn & _)|(ks & vs & Hrun & -> & ->)]); [discriminate|].
      inversion Hrun as [k v Hk|n' k v ks' vs' Hk Hrest]; subst.
      * exists (u " " ++ vs), 0%Z, r, [], 0%Z. repeat split.
        -- apply path_concat. exists (u " "), 0%Z, (ks ++ r), vs, 0%Z. repeat split.
           ++ apply path_insert_intro.
           ++ apply path_num_token. exists ks. auto.
        -- apply IH. split; [reflexivity|]. left. auto.
        -- rewrite app_nil_r. reflexivity.
      * exists (u " " ++ v), 0%Z, (ks' ++ r), (u " " ++ vs'), 0%Z. repeat split.
        -- apply path_concat. exists (u " "), 0%Z, (k ++ ks' ++ r), v, 0%Z. repeat split.
           ++ rewrite <- app_assoc. apply path_insert_intro.
           ++ apply path_num_token. exists k. auto.
        -- apply IH. split; [reflexivity|]. right. exists ks', vs'. auto.
Qed.

(** A digit token and [m] more. *)
Lemma path_token_run m i o w r :
  path (num_token data :+ power (insert_space :+ num_token data) m) i o w r <->
  w = 0%Z /\ exists ks vs, digit_run data (S m) ks vs /\ i = ks ++ r /\ o = vs.
Proof.
  rewrite path_concat. split.
  - intros (o1 & w1 & r1 & o2 & w2 & H1 & H2 & -> & ->).
    apply path_num_token in H1. destruct H1 as (k & Hk & -> & ->).
    apply path_more_tokens in H2. destruct H2 as (-> & H2). split; [reflexivity|].
    destruct H2 as [(-> & <- & ->)|(ks & vs & Hrun & -> & ->)].
    + exists k, o1. split; [constructor; exact Hk|]. split; [reflexivity | apply app_nil_r].
    + exists (k ++ ks), (o1 ++ u " " ++ vs). split; [constructor; assumption|].
      split; [rewrite <- app_assoc|]; reflexivity.
  - intros (-> & ks & vs & Hrun & -> & ->).
    inversion Hrun as [k v Hk|n' k v ks' vs' Hk Hrest]; subst.
    + exists vs, 0%Z, r, [], 0%Z. repeat split.
      * apply path_num_token. exists ks. auto.
      * apply path_more_tokens. auto.
      * rewrite app_nil_r. reflexivity.
    + exists v, 0%Z, (ks' ++ r), (u " " ++ vs'), 0%Z. repeat split.
      * rewrite <- app_assoc. apply path_num_token. exists k. auto.
      * apply path_more_tokens. split; [reflexivity|]. right. exists ks', vs'. auto.
Qed.

Lemma path_before_range a t lo hi i o w r :
  path (a :+ closure_range t lo hi) i o w r <->
  exists n, (lo <= n <= lo + (hi - lo))%nat /\ path (a :+ power t n) i o w r.
Proof.
  rewrite path_concat. split.
  - intros (o1 & w1 & r1 & o2 & w2 & H1 & H2 & -> & ->).
    apply path_closure_range in H2. destruct H2 as (n & Hn & H2). exists n.
    split; [exact Hn|]. apply path_concat. exists o1, w1, r1, o2, w2. auto.
  - intros (n & Hn & H). apply path_concat in H.
    destruct H as (o1 & w1 & r1 & o2 & w2 & H1 & H2 & -> & ->).
    exists o1, w1, r1, o2, w2. repeat split; auto.
    apply path_closure_range. exists n. auto.
Qed.

Lemma path_street_num i o w r :
  path (street_num data) i o w r <->
  w = 0%Z /\ exists n ks vs, (1 <= n <= 4)%nat /\ digit_run data n ks vs
                             /\ i = ks ++ r /\ o = vs.
Proof.
  unfold street_num, optimize. rewrite path_before_range. split.
  - intros (m & Hm & H). apply path_token_run in H.
    destruct H as (-> & ks & vs & Hrun & -> & ->). split; [reflexivity|].
    exists (S m), ks, vs. repeat split; [lia | lia | assumption].
  - intros (-> & n & ks & vs & Hn & Hrun & -> & ->).
    destruct n as [|m]; [lia|]. exists m. split; [lia|].
    apply path_token_run. split; [reflexivity|]. exists ks, vs. auto.
Qed.

Lemma path_pincode i o w r :
  path (pincode data) i o w r <->
  w = 0%Z /\ exists ks vs, digit_run data 6 ks vs /\ i = ks ++ r /\ o = vs.
Proof.
  unfold pincode, optimize. rewrite path_before_range. split.
  - intros (m & Hm & H). assert (m = 5%nat) by lia. subst m.
    apply path_token_run in H. exact H.
  - intro H. exists 5%nat. split; [lia|]. apply path_token_run. exact H.
Qed.

Lemma path_house_number i o w r :
  path (closure_range (street_num data :+ sep) 0 1) i o w r <->
  w = 0%Z /\ exists hn, house_number data hn o /\ i = hn ++ r.
Proof.
  rewrite path_optional, path_concat. split.
  - intros [(-> & -> & ->)|(o1 & w1 & r1 & o2 & w2 & H1 & H2 & -> & ->)].
    + split; [reflexivity|]. exists []. split; [left; auto | reflexivity].
    + apply path_street_num in H1.
      destruct H1 as (-> & n & ks & vs & Hn & Hrun & -> & ->).
      apply path_sep in H2. destruct H2 as (sp & Hsp & -> & -> & ->).
      split; [reflexivity|]. exists (ks ++ sp). split.
      * right. exists n, ks, vs, sp. auto.
      * rewrite <- app_assoc. reflexivity.
  - intros (-> & hn & [(-> & ->)|(n & ks & vs & sp & Hn & Hrun & Hsp & -> & ->)] & ->).
    + left. auto.
    + right. exists vs, 0%Z, (sp ++ r), sp, 0%Z. repeat split.
      * rewrite <- app_assoc. apply path_street_num. split; [reflexivity|].
        exists n, ks, vs. auto.
      * apply path_sep. exists sp. auto.
Qed.

Lemma path_postal_code i o w r :
  path (closure_range (accep NEMO_SPACE :+ pincode data) 0 1) i o w r <->
  w = 0%Z /\ exists pc, postal_code data pc o /\ i = pc ++ r.
Proof.
  rewrite path_optional, path_concat. split.
  - intros [(-> & -> & ->)|(o1 & w1 & r1 & o2 & w2 & H1 & H2 & -> & ->)].
    + split; [reflexivity|]. exists []. split; [left; auto | reflexivity].
    + apply path_accep in H1. destruct H1 as (-> & -> & ->).
      apply path_pincode in H2. destruct H2 as (-> & ks & vs & Hrun & -> & ->).
      split; [reflexivity|]. exists (u " " ++ ks). split.
      * right. exists ks, vs. auto.
      * rewrite <- app_assoc. reflexivity.
  - intros (-> & pc & [(-> & ->)|(ks & vs & Hrun & -> & ->)] & ->).
    + left. auto.
    + right. exists (u " "), 0%Z, (ks ++ r), vs, 0%Z. repeat split.
      * rewrite <- app_assoc. apply (path_accep_intro NEMO_SPACE).
      * apply path_pincode. split; [reflexivity|]. exists ks, vs. auto.
Qed.

Lemma path_state_city_names i o w r :
  path (state_city_names data) i o w r <->
  w = 0%Z /\ exists p, place data p o /\ i = p ++ r.
Proof.
  unfold state_city_names, optimize, place. split.
  - intro H. apply path_union in H.
    destruct H as [H|H]; apply path_string_map in H; destruct H as (k & Hk & -> & ->);
      (split; [reflexivity|]); exists k; auto.
  - intros (-> & p & [Hp|Hp] & ->); apply path_union; [left | right];
      apply path_string_map_intro; exact Hp.
Qed.

(** The structured address grammar reads exactly the structured
    addresses, each with the weight 1.0. *)
Lemma path_get_structured_address_graph s o w :
  path (get_structured_address_graph data) s o w [] <->
  w = 10000%Z /\ structured_address data s o.
Proof.
  unfold get_structured_address_graph, optimize, structured_address, address_tag.
  rewrite path_add_weight. split.
  - intros (w' & H & ->). unfold pattern, optimize in H.
    apply path_concat in H. destruct H as (o1 & w1 & r1 & o2 & w2 & H1 & H & -> & ->).
    apply path_insert in H1. destruct H1 as (-> & -> & ->).
    apply path_concat in H. destruct H as (o3 & w3 & r3 & o4 & w4 & H & H4 & -> & ->).
    apply path_insert in H4. destruct H4 as (<- & -> & ->).
    apply path_concat in H. destruct H as (oa & wa & ra & o5 & w5 & Ha & H & -> & ->).
    apply path_concat in H. destruct H as (ob & wb & rb & o6 & w6 & Hb & H & -> & ->).
    apply path_concat in H. destruct H as (oc & wc & rc & od & wd & Hc & Hd & -> & ->).
    apply path_house_number in Ha. destruct Ha as (-> & hn & Hhn & ->).
    apply path_text in Hb. destruct Hb as (t & Ht & -> & -> & ->).
    apply path_state_city_names in Hc. destruct Hc as (-> & p & Hp & ->).
    apply path_postal_code in Hd. destruct Hd as (-> & pc & Hpc & ->).
    split; [reflexivity|].
    exists hn, oa, t, p, oc, pc, od. repeat split; try assumption.
    rewrite app_nil_r. reflexivity.
  - intros (-> & hn & hn' & t & p & p' & pc & pc' & Hhn & Ht & Hp & Hpc & -> & ->).
    exists 0%Z. split; [|reflexivity]. unfold pattern, optimize.
    apply path_concat.
    exists address_open, 0%Z, (hn ++ t ++ p ++ pc), ((hn' ++ t ++ p' ++ pc') ++ address_close), 0%Z.
    repeat split; [apply path_insert_intro|].
    apply path_concat. exists (hn' ++ t ++ p' ++ pc'), 0%Z, [], address_close, 0%Z.
    repeat split; [|apply path_insert_intro].
    apply path_concat. exists hn', 0%Z, (t ++ p ++ pc), (t ++ p' ++ pc'), 0%Z. repeat split.
    + apply path_house_number. split; [reflexivity|]. exists hn. auto.
    + apply path_concat. exists t, 0%Z, (p ++ pc), (p' ++ pc'), 0%Z. repeat split.
      * apply path_text. exists t. auto.
      * apply path_concat. exists p', 0%Z, pc, pc', 0%Z. repeat split.
        -- apply path_state_city_names. split; [reflexivity|]. exists p. auto.
        -- apply path_postal_code. split; [reflexivity|]. exists pc.
           split; [assumption | symmetry; apply app_nil_r].
Qed.

End Structured.

End AddressFacts.

(** ** The claims on the post-processor *)

Module PostProcessingClaims.
Import Pynini PostProcessingFst PostProcessingSpec.

Lemma sample_marks_single : forall m, In m Sample.punct_marks -> exists c, m = [c].
Proof.
  intros m H. vm_compute in H.
  repeat (destruct H as [<-|H]; [eexists; reflexivity|]). contradiction.
Qed.

Lemma sample_marks_no_space : ~ In [space] Sample.punct_marks.
Proof.
  intro H. vm_compute in H.
  repeat (destruct H as [H|H]; [discriminate H|]). contradiction.
Qed.

Lemma sample_marks_no_bracket : ~ In [91%N] Sample.punct_marks.
Proof.
  intro H. vm_compute in H.
  repeat (destruct H as [H|H]; [discriminate H|]). contradiction.
Qed.

(** C6: on every sentence the lightest output of the graph returned by
    [get_punct_postprocess_graph] is the sentence with the space before each
    mark of the closed set removed (quotation marks, dashes and opening
    brackets are not in that set and keep theirs), and then, on that result,
    the spaces after each opening bracket removed. *)
Theorem C6_two_passes_in_order (punct_marks_all : list str) (MIN_NEG_WEIGHT : weight) :
  (forall m, In m punct_marks_all -> exists c, m = [c]) ->
  ~ In [space] punct_marks_all ->
  ~ In [91%N] punct_marks_all ->
  (MIN_NEG_WEIGHT < 0)%Z ->
  forall s o,
    selected (get_punct_postprocess_graph punct_marks_all MIN_NEG_WEIGHT) s o
    <-> o = no_space_after false (no_space_before (closes_up punct_marks_all) s).
Proof.
  intros H1 H2 H3 H4 s o.
  apply PostProcessingFacts.selected_postprocess; assumption.
Qed.

Lemma C6_two_passes_in_order_witness :
  (forall m, In m Sample.punct_marks -> exists c, m = [c]) /\
  ~ In [space] Sample.punct_marks /\
  ~ In [91%N] Sample.punct_marks /\
  (Sample.MIN_NEG_WEIGHT < 0)%Z /\
  selected Sample.post_process_graph (u "( क - ख ) ।") (u "(क - ख)।").
Proof.
  split; [exact sample_marks_single|].
  split; [exact sample_marks_no_space|].
  split; [exact sample_marks_no_bracket|].
  split; [reflexivity|].
  apply (proj2 (@C6_two_passes_in_order Sample.punct_marks Sample.MIN_NEG_WEIGHT
                  sample_marks_single sample_marks_no_space
                  sample_marks_no_bracket (eq_refl : (Sample.MIN_NEG_WEIGHT < 0)%Z)
                  (u "( क - ख ) ।") (u "(क - ख)।"))).
  reflexivity.
Defined.

(** C3, as stated: a second application changes the output of the first
    when a mark has two spaces before it. *)
Lemma C3_second_application_differs :
  ~ (forall s o1 o2,
        selected Sample.post_process_graph s o1 ->
        selected Sample.post_process_graph o1 o2 -> o2 = o1).
Proof.
  intro H.
  assert (E : u "a," = u "a ,"); [|vm_compute in E; discriminate E].
  apply (H (u "a  ,")); apply PyniniFacts.shortest_selected; vm_compute; auto.
Qed.

(** C3, amended: on every sentence in which no mark of the closed set has
    two spaces before it, applying the post-processor to its own output
    gives that output again. *)
Theorem C3_idempotent_without_double_space
        (punct_marks_all : list str) (MIN_NEG_WEIGHT : weight) :
  (forall m, In m punct_marks_all -> exists c, m = [c]) ->
  ~ In [space] punct_marks_all ->
  ~ In [91%N] punct_marks_all ->
  (MIN_NEG_WEIGHT < 0)%Z ->
  forall s o1 o2,
    two_spaces_before (closes_up punct_marks_all) s = false ->
    selected (get_punct_postprocess_graph punct_marks_all MIN_NEG_WEIGHT) s o1 ->
    selected (get_punct_postprocess_graph punct_marks_all MIN_NEG_WEIGHT) o1 o2 ->
    o2 = o1.
Proof.
  intros H1 H2 H3 H4 s o1 o2 Hs Ho1 Ho2.
  apply PostProcessingFacts.selected_postprocess in Ho1, Ho2; try assumption.
  subst o1 o2. apply PostProcessingFacts.postprocess_twice; assumption.
Qed.

Lemma C3_idempotent_without_double_space_witness :
  (forall m, In m Sample.punct_marks -> exists c, m = [c]) /\
  ~ In [space] Sample.punct_marks /\
  ~ In [91%N] Sample.punct_marks /\
  (Sample.MIN_NEG_WEIGHT < 0)%Z /\
  two_spaces_before (closes_up Sample.punct_marks) (u "( a , b") = false /\
  selected Sample.post_process_graph (u "( a , b") (u "(a, b") /\
  selected Sample.post_process_graph (u "(a, b") (u "(a, b") /\
  u "(a, b" = u "(a, b".
Proof.
  assert (A : selected Sample.post_process_graph (u "( a , b") (u "(a, b"))
    by (apply PyniniFacts.shortest_selected; vm_compute; auto).
  assert (B : selected Sample.post_process_graph (u "(a, b") (u "(a, b"))
    by (apply PyniniFacts.shortest_selected; vm_compute; auto).
  split; [exact sample_marks_single|].
  split; [exact sample_marks_no_space|].
  split; [exact sample_marks_no_bracket|].
  split; [reflexivity|].
  split; [reflexivity|].
  split; [exact A|]. split; [exact B|].
  exact (@C3_idempotent_without_double_space Sample.punct_marks Sample.MIN_NEG_WEIGHT
           sample_marks_single sample_marks_no_space
           sample_marks_no_bracket (eq_refl : (Sample.MIN_NEG_WEIGHT < 0)%Z)
           (u "( a , b") (u "(a, b") (u "(a, b") eq_refl A B).
Defined.

End PostProcessingClaims.

(** ** The sample collaborators keep the contract *)

Module SampleFacts.
Import Pynini PyniniFacts Reads GraphUtils MeasureFst MeasureSpec.

Ltac table_rows H :=
  vm_compute in H;
  repeat (destruct H as [H|H]; [injection H as <- <-|]); try contradiction.

Ltac by_rows :=
  repeat
    match goal with
    | |- reads (union _ _) _ => apply reads_union
    | |- reads (add_weight _ _) _ => apply reads_add_weight
    | |- reads null _ => apply reads_null
    end.

Lemma sample_cardinal_reads : reads (cardinal_graph Sample.cardinal) numeral.
Proof.
  unfold cardinal_graph. cbn [Sample.cardinal Cardinal.zero Cardinal.digit
    Cardinal.teens_and_ties Cardinal.graph_hundreds Cardinal.graph_thousands
    Cardinal.graph_ten_thousands Cardinal.graph_lakhs Cardinal.graph_ten_lakhs].
  by_rows; apply reads_string_map; intros k v H; table_rows H;
    (split; [discriminate | repeat constructor]).
Qed.

Lemma sample_large_reads : reads (cardinal_large Sample.cardinal) numeral.
Proof.
  unfold cardinal_large. cbn [Sample.cardinal Cardinal.graph_without_leading_zeros].
  by_rows; apply reads_string_map; intros k v H; table_rows H;
    (split; [discriminate | repeat constructor]).
Qed.

Lemma sample_small_below :
  reads (cardinal_small Sample.cardinal) (fun p => (value p < 1000)%N).
Proof.
  unfold cardinal_small. cbn [Sample.cardinal Cardinal.zero Cardinal.digit
    Cardinal.teens_and_ties Cardinal.graph_hundreds].
  by_rows; apply reads_string_map; intros k v H; table_rows H; reflexivity.
Qed.

Lemma sample_large_extends p r o w :
  path (cardinal_large Sample.cardinal) (p ++ r) o w r -> (value p < 1000)%N ->
  path (cardinal_small Sample.cardinal) (p ++ r) o w r.
Proof.
  unfold cardinal_large, cardinal_small.
  cbn [Sample.cardinal Cardinal.zero Cardinal.digit Cardinal.teens_and_ties
       Cardinal.graph_hundreds Cardinal.graph_without_leading_zeros].
  intros H Hv.
  apply path_union in H. destruct H as [H|H]; [apply path_union; left; exact H|].
  apply path_union. right.
  apply path_union in H. destruct H as [H|H]; [apply path_union; left; exact H|].
  apply path_union. right.
  apply path_union in H. destruct H as [H|H]; [apply path_union; left; exact H|].
  apply path_union. right.
  apply path_union in H. destruct H as [H|H]; [exact H|].
  exfalso. apply path_string_map in H. destruct H as (k & Hin & E & _).
  apply app_inv_tail in E. subst k. table_rows Hin; vm_compute in Hv; discriminate Hv.
Qed.

Lemma sample_collaborators :
  collaborators Sample.data Sample.cardinal Sample.decimal INPUT_LOWER_CASED.
Proof.
  constructor.
  - exact sample_cardinal_reads.
  - exact sample_large_reads.
  - unfold Sample.decimal, Sample.fraction_digit, insert_space. cbn [Decimal.graph_fractional].
    auto 10 with wf.
  - change (en_to_hi_map Sample.data INPUT_LOWER_CASED)
      with (string_map (address_en_to_hi_mapping Sample.data)).
    auto with wf.
  - intros k v H. table_rows H; repeat constructor.
  - intros c p (v & [H|H]); vm_compute in H;
      repeat (destruct H as [H|H];
              [injection H as <- _ _; split; [reflexivity | discriminate]|]);
      contradiction.
  - reflexivity.
  - exact sample_small_below.
  - exact sample_large_extends.
Qed.

Lemma sample_fractional_nonneg i o w r :
  path (Decimal.graph_fractional Sample.decimal) i o w r -> (0 <= w)%Z.
Proof.
  revert i o w r.
  change (nonnegative (Decimal.graph_fractional Sample.decimal)).
  unfold Sample.decimal, Sample.fraction_digit, insert_space. cbn [Decimal.graph_fractional].
  Weights.weigh.
Qed.

Lemma sample_cardinal_floor i o w r :
  path (cardinal_graph Sample.cardinal) i o w r -> (-3000 < w)%Z.
Proof.
  revert i o w r.
  change (weighs_in (cardinal_graph Sample.cardinal) (fun w => (-3000 < w)%Z)).
  unfold cardinal_graph. cbn [Sample.cardinal Cardinal.zero Cardinal.digit
    Cardinal.teens_and_ties Cardinal.graph_hundreds Cardinal.graph_thousands
    Cardinal.graph_ten_thousands Cardinal.graph_lakhs Cardinal.graph_ten_lakhs].
  repeat
    match goal with
    | |- weighs_in (union _ _) _ => apply Weights.weighs_union
    | |- weighs_in null _ => apply Weights.weighs_null
    | |- weighs_in (string_map _) _ => apply Weights.weighs_string_map; lia
    end.
  intros i o w r H. apply path_add_weight in H. destruct H as (w' & H & ->).
  apply path_string_map in H. destruct H as (k & _ & _ & ->). lia.
Qed.

End SampleFacts.

(** ** The claims on the measure tagger *)

Module MeasureClaims.
Import Pynini PyniniFacts Reads GraphUtils MeasureFst MeasureSpec.

Section Claims.

Variable data : Data.
Variable cardinal : Cardinal.t.
Variable decimal : Decimal.t.
Variable ordinal : Ordinal.t.
Variable input_case : str.

#[local] Abbreviation G := (graph data cardinal decimal ordinal input_case).

Lemma year_keys (C : collaborators data cardinal decimal input_case) :
  forall k v, In (k, v) (measure_unit_year_formal data) ->
              Forall (fun c => is_any_digit c = false) k.
Proof.
  intros k v H. rewrite (year_formal_table C) in H. destruct H as [H|[]].
  injection H as <- _. repeat constructor.
Qed.

(** C1: on a numeral followed by [yr], the output selected by the measure
    tagger carries the informal year unit when the numeral is below one
    thousand and the formal one when it is one thousand or more. *)
Theorem C1_year_unit_switches_at_thousand (d : str) :
  collaborators data cardinal decimal input_case ->
  numeral d ->
  (exists oc wc, path (cardinal_small cardinal) (d ++ u "yr") oc wc (u "yr")) \/
  (exists oc wc, path (cardinal_large cardinal) (d ++ u "yr") oc wc (u "yr")) ->
  (exists o, selected G (d ++ u "yr") o) /\
  forall o, selected G (d ++ u "yr") o ->
    ((value d < 1000)%N /\ exists oc, o = cardinal_tag [] oc (u "साल")) \/
    ((1000 <= value d)%N /\ exists oc, o = cardinal_tag [] oc (u "वर्ष")).
Proof.
  intros C Hd Hread.
  assert (Hs : sign []) by (left; reflexivity).
  split.
  - destruct Hread as [(oc & wc & H)|(oc & wc & H)].
    + eapply selected_exists.
      exact (@MeasureFacts.informal_path data cardinal decimal ordinal input_case
               [] d oc wc Hs H).
    + eapply selected_exists.
      exact (@MeasureFacts.formal_path data cardinal decimal ordinal input_case
               (year_formal_table C) [] d oc wc Hs H).
  - intros o Ho.
    exact (@MeasureFacts.year_unit_selected data cardinal decimal ordinal input_case
             (cardinal_reads C) (large_reads C) (fractional_wf C) (en_to_hi_wf C)
             (unit_keys_plain C) (year_keys C) (gazetteer_plain C) (year_formal_table C)
             (small_below C) (large_extends C) [] d o Hs Hd Ho).
Qed.

(** C8: on "-12kg", in either glyph set, the selected output holds
    [negative: "true"], the cardinal integer of twelve and the unit of the
    kilogram. *)
Theorem C8_minus_twelve_kilograms (d : str) :
  collaborators data cardinal decimal input_case ->
  d = u "12" \/ d = u "१२" ->
  (exists v, In (u "kg", v) (measure_unit data)) ->
  (forall v, In (u "kg", v) (measure_unit data) -> v = u "किलोग्राम") ->
  (exists oc wc, path (cardinal_graph cardinal) (d ++ u "kg") oc wc (u "kg")) ->
  (forall oc wc, path (cardinal_graph cardinal) (d ++ u "kg") oc wc (u "kg") ->
                 oc = u "बारह") ->
  (exists o, selected G (u "-" ++ d ++ u "kg") o) /\
  forall o, selected G (u "-" ++ d ++ u "kg") o ->
    o = u "cardinal { negative: " ++ q ++ u "true" ++ q ++ u " integer: " ++ q ++ u "बारह"
        ++ q ++ u " } units: " ++ q ++ u "किलोग्राम" ++ q ++ u " ".
Proof.
  intros C Hd (v & Hv) Hkg (oc & wc & H) Htwelve.
  assert (Hs : sign (u "-")) by (right; reflexivity).
  assert (Hn : numeral d)
    by (destruct Hd as [-> | ->]; (split; [discriminate | repeat constructor])).
  assert (Hk : unit_word (u "kg")) by (split; [discriminate | repeat constructor]).
  assert (Hyr : u "kg" <> u "yr") by discriminate.
  split.
  - eapply selected_exists.
    exact (@MeasureFacts.unit_path data cardinal decimal ordinal input_case
             (u "-") d (u "kg") v oc wc Hs Hyr Hv H).
  - intros o Ho.
    rewrite (@MeasureFacts.unit_selected data cardinal decimal ordinal input_case
               (cardinal_reads C) (large_reads C) (fractional_wf C) (en_to_hi_wf C)
               (unit_keys_plain C) (year_keys C) (gazetteer_plain C) (year_formal_table C)
               (u "-") d (u "kg") (u "किलोग्राम") (u "बारह") o Hs Hn Hk Hyr Hkg Htwelve Ho).
    vm_compute. reflexivity.
Qed.

(** C9: a cardinal, one of the symbols x, X and * and a second cardinal in
    one token are tagged as two groups: the first cardinal with the
    connector word as its unit, closing its token, and a new token opened
    for the second cardinal. *)
Theorem C9_symbol_joins_two_cardinals (d1 sym d2 : str) :
  collaborators data cardinal decimal input_case ->
  numeral d1 -> symbol sym -> numeral d2 ->
  (exists o1 w1, path (cardinal_graph cardinal) (d1 ++ sym ++ d2) o1 w1 (sym ++ d2)) ->
  (exists o2 w2, path (cardinal_graph cardinal) d2 o2 w2 []) ->
  (exists o, selected G (d1 ++ sym ++ d2) o) /\
  forall o, selected G (d1 ++ sym ++ d2) o ->
    exists o1 w1 o2 w2,
      path (cardinal_graph cardinal) (d1 ++ sym ++ d2) o1 w1 (sym ++ d2) /\
      path (cardinal_graph cardinal) d2 o2 w2 [] /\
      o = product_tag o1 o2.
Proof.
  intros C Hd1 Hs Hd2 (o1 & w1 & H1) (o2 & w2 & H2). split.
  - eapply selected_exists.
    exact (@MeasureFacts.product_path data cardinal decimal ordinal input_case
             d1 sym d2 o1 w1 o2 w2 Hd1 Hs Hd2 H1 H2).
  - intros o (w & Hin & _). apply in_full in Hin.
    destruct (@MeasureFacts.graph_on_product data cardinal decimal ordinal input_case
                (cardinal_reads C) (large_reads C) (fractional_wf C) (en_to_hi_wf C)
                (unit_keys_plain C) (year_keys C) (gazetteer_plain C)
                d1 sym d2 o w Hd1 Hs Hd2 Hin)
      as (a & wa & b & wb & Ha & Hb & -> & _).
    exists a, wa, b, wb. auto.
Qed.

(** C10: an integer followed by .25 and a quarterly unit is tagged as a
    cardinal with the word for a quarter more before it, an integer followed
    by .5 as a cardinal with the word for a half more, both through
    alternatives of weight -0.1, lighter than every path of the generic
    decimal on the same input. *)
Theorem C10_quarter_and_half_more (frac word d k v : str) :
  reads (cardinal_graph cardinal) numeral ->
  (forall i o w r, path (Decimal.graph_fractional decimal) i o w r -> (0 <= w)%Z) ->
  quarter_idiom frac word -> numeral d -> quarterly_unit data k v ->
  (forall oc wc,
      path (cardinal_graph cardinal) (d ++ frac ++ k) oc wc (frac ++ k) ->
      path G (d ++ frac ++ k) (cardinal_tag [] (word ++ NEMO_SPACE ++ oc) v)
           (wc + -1000)%Z []) /\
  (forall od wd,
      path (add_weight (graph_decimal data cardinal decimal) 1000) (d ++ frac ++ k) od wd [] ->
      exists oc wc,
        path G (d ++ frac ++ k) (cardinal_tag [] (word ++ NEMO_SPACE ++ oc) v) wc [] /\
        (wc < wd)%Z).
Proof.
  intros Hr Hf Hq Hd Hk. split.
  - intros oc wc Hc. destruct Hq as [(Hq & ->)|(Hq & ->)].
    + apply (@MeasureFacts.path_graph_alternative data cardinal decimal ordinal input_case
               (graph_savva data cardinal) (-1000)%Z).
      * unfold alternatives. simpl. tauto.
      * apply MeasureFacts.savva_path; [tauto | assumption | assumption].
    + apply (@MeasureFacts.path_graph_alternative data cardinal decimal ordinal input_case
               (graph_sadhe data cardinal) (-1000)%Z).
      * unfold alternatives. simpl. tauto.
      * apply MeasureFacts.sadhe_path; [tauto | assumption | assumption].
  - intros od wd H.
    exact (@MeasureFacts.quarter_beats_decimal data cardinal decimal ordinal input_case
             Hr Hf frac word d k v od wd Hq Hd Hk H).
Qed.


End Claims.

Lemma C1_year_unit_switches_at_thousand_witness :
  collaborators Sample.data Sample.cardinal Sample.decimal INPUT_LOWER_CASED /\
  numeral (u "7000") /\
  ((exists oc wc, path (cardinal_small Sample.cardinal) (u "7000" ++ u "yr") oc wc (u "yr")) \/
   (exists oc wc, path (cardinal_large Sample.cardinal) (u "7000" ++ u "yr") oc wc (u "yr"))) /\
  ((exists o, selected Sample.measure_graph (u "7000" ++ u "yr") o) /\
   forall o, selected Sample.measure_graph (u "7000" ++ u "yr") o ->
     ((value (u "7000") < 1000)%N /\ exists oc, o = cardinal_tag [] oc (u "साल")) \/
     ((1000 <= value (u "7000"))%N /\ exists oc, o = cardinal_tag [] oc (u "वर्ष"))).
Proof.
  assert (Hn : numeral (u "7000")) by (split; [discriminate | repeat constructor]).
  assert (Hr : (exists oc wc, path (cardinal_small Sample.cardinal) (u "7000" ++ u "yr")
                                   oc wc (u "yr")) \/
               (exists oc wc, path (cardinal_large Sample.cardinal) (u "7000" ++ u "yr")
                                   oc wc (u "yr"))).
  { right. exists (u "सात हज़ार"), 0%Z. vm_compute. tauto. }
  split; [exact SampleFacts.sample_collaborators|].
  split; [exact Hn|]. split; [exact Hr|].
  exact (@C1_year_unit_switches_at_thousand Sample.data Sample.cardinal Sample.decimal
           Sample.ordinal INPUT_LOWER_CASED (u "7000")
           SampleFacts.sample_collaborators Hn Hr).
Defined.

Lemma C8_minus_twelve_kilograms_witness :
  collaborators Sample.data Sample.cardinal Sample.decimal INPUT_LOWER_CASED /\
  (u "१२" = u "12" \/ u "१२" = u "१२") /\
  (exists v, In (u "kg", v) (measure_unit Sample.data)) /\
  (forall v, In (u "kg", v) (measure_unit Sample.data) -> v = u "किलोग्राम") /\
  (exists oc wc, path (cardinal_graph Sample.cardinal) (u "१२" ++ u "kg") oc wc (u "kg")) /\
  (forall oc wc, path (cardinal_graph Sample.cardinal) (u "१२" ++ u "kg") oc wc (u "kg") ->
                 oc = u "बारह") /\
  ((exists o, selected Sample.measure_graph (u "-" ++ u "१२" ++ u "kg") o) /\
   forall o, selected Sample.measure_graph (u "-" ++ u "१२" ++ u "kg") o ->
     o = u "cardinal { negative: " ++ q ++ u "true" ++ q ++ u " integer: " ++ q ++ u "बारह"
         ++ q ++ u " } units: " ++ q ++ u "किलोग्राम" ++ q ++ u " ").
Proof.
  assert (H1 : u "१२" = u "12" \/ u "१२" = u "१२") by (right; reflexivity).
  assert (H2 : exists v, In (u "kg", v) (measure_unit Sample.data))
    by (exists (u "किलोग्राम"); vm_compute; tauto).
  assert (H3 : forall v, In (u "kg", v) (measure_unit Sample.data) -> v = u "किलोग्राम").
  { intros v H. vm_compute in H.
    repeat (destruct H as [H|H];
            [first [discriminate H | injection H as <-; vm_compute; reflexivity]|]).
    contradiction. }
  assert (H4 : exists oc wc, path (cardinal_graph Sample.cardinal) (u "१२" ++ u "kg")
                                  oc wc (u "kg"))
    by (exists (u "बारह"), (-1000)%Z; vm_compute; tauto).
  assert (H5 : forall oc wc, path (cardinal_graph Sample.cardinal) (u "१२" ++ u "kg")
                                  oc wc (u "kg") -> oc = u "बारह").
  { intros oc wc H. vm_compute in H.
    repeat (destruct H as [H|H];
            [first [discriminate H | injection H as <- <-; vm_compute; reflexivity]|]).
    contradiction. }
  repeat (split; [assumption || exact SampleFacts.sample_collaborators|]).
  exact (@C8_minus_twelve_kilograms Sample.data Sample.cardinal Sample.decimal
           Sample.ordinal INPUT_LOWER_CASED (u "१२")
           SampleFacts.sample_collaborators H1 H2 H3 H4 H5).
Defined.


Lemma C9_symbol_joins_two_cardinals_witness :
  collaborators Sample.data Sample.cardinal Sample.decimal INPUT_LOWER_CASED /\
  numeral (u "2") /\ symbol (u "x") /\ numeral (u "3") /\
  (exists o1 w1, path (cardinal_graph Sample.cardinal) (u "2" ++ u "x" ++ u "3") o1 w1
                      (u "x" ++ u "3")) /\
  (exists o2 w2, path (cardinal_graph Sample.cardinal) (u "3") o2 w2 []) /\
  ((exists o, selected Sample.measure_graph (u "2" ++ u "x" ++ u "3") o) /\
   forall o, selected Sample.measure_graph (u "2" ++ u "x" ++ u "3") o ->
     exists o1 w1 o2 w2,
       path (cardinal_graph Sample.cardinal) (u "2" ++ u "x" ++ u "3") o1 w1 (u "x" ++ u "3") /\
       path (cardinal_graph Sample.cardinal) (u "3") o2 w2 [] /\
       o = product_tag o1 o2).
Proof.
  assert (H1 : numeral (u "2")) by (split; [discriminate | repeat constructor]).
  assert (H2 : symbol (u "x")) by (left; reflexivity).
  assert (H3 : numeral (u "3")) by (split; [discriminate | repeat constructor]).
  assert (H4 : exists o1 w1, path (cardinal_graph Sample.cardinal) (u "2" ++ u "x" ++ u "3")
                                  o1 w1 (u "x" ++ u "3"))
    by (exists (u "दो"), 0%Z; vm_compute; tauto).
  assert (H5 : exists o2 w2, path (cardinal_graph Sample.cardinal) (u "3") o2 w2 [])
    by (exists (u "तीन"), 0%Z; vm_compute; tauto).
  repeat (split; [assumption || exact SampleFacts.sample_collaborators|]).
  exact (@C9_symbol_joins_two_cardinals Sample.data Sample.cardinal Sample.decimal
           Sample.ordinal INPUT_LOWER_CASED (u "2") (u "x") (u "3")
           SampleFacts.sample_collaborators H1 H2 H3 H4 H5).
Defined.

Lemma C10_quarter_and_half_more_witness :
  reads (cardinal_graph Sample.cardinal) numeral /\
  (forall i o w r, path (Decimal.graph_fractional Sample.decimal) i o w r -> (0 <= w)%Z) /\
  quarter_idiom (u ".25") HI_SAVVA /\ numeral (u "7") /\
  quarterly_unit Sample.data (u "kg") (u "किलोग्राम") /\
  ((forall oc wc,
       path (cardinal_graph Sample.cardinal) (u "7" ++ u ".25" ++ u "kg") oc wc
            (u ".25" ++ u "kg") ->
       path Sample.measure_graph (u "7" ++ u ".25" ++ u "kg")
            (cardinal_tag [] (HI_SAVVA ++ NEMO_SPACE ++ oc) (u "किलोग्राम"))
            (wc + -1000)%Z []) /\
   (forall od wd,
       path (add_weight (graph_decimal Sample.data Sample.cardinal Sample.decimal) 1000)
            (u "7" ++ u ".25" ++ u "kg") od wd [] ->
       exists oc wc,
         path Sample.measure_graph (u "7" ++ u ".25" ++ u "kg")
              (cardinal_tag [] (HI_SAVVA ++ NEMO_SPACE ++ oc) (u "किलोग्राम")) wc [] /\
         (wc < wd)%Z)).
Proof.
  assert (H1 : quarter_idiom (u ".25") HI_SAVVA) by (left; split; [left|]; reflexivity).
  assert (H2 : numeral (u "7")) by (split; [discriminate | repeat constructor]).
  assert (H3 : quarterly_unit Sample.data (u "kg") (u "किलोग्राम"))
    by (left; vm_compute; tauto).
  split; [exact SampleFacts.sample_cardinal_reads|].
  split; [exact SampleFacts.sample_fractional_nonneg|].
  repeat (split; [assumption|]).
  exact (@C10_quarter_and_half_more Sample.data Sample.cardinal Sample.decimal
           Sample.ordinal INPUT_LOWER_CASED (u ".25") HI_SAVVA (u "7") (u "kg")
           (u "किलोग्राम")
           SampleFacts.sample_cardinal_reads SampleFacts.sample_fractional_nonneg H1 H2 H3).
Defined.




(** *** The address grammars *)

Section AddressClaims.

Variable data : Data.
Variable cardinal : Cardinal.t.
Variable decimal : Decimal.t.
Variable ordinal : Ordinal.t.
Variable input_case : str.

#[local] Abbreviation contextual := (get_address_graph data ordinal input_case).
#[local] Abbreviation structured := (get_structured_address_graph data).
#[local] Abbreviation tagger := (graph data cardinal decimal ordinal input_case).



(** C5: the structured address grammar accepts exactly the inputs of the
    shape [structured_address]: an optional numeric prefix of one to four
    digit tokens with its separator, at most five free-text words, each
    followed by an optional comma and a space, a place name of the state and
    city gazetteer, and an optional postal code of a space and exactly six
    digit tokens; every digit token is written as its spoken form, with a
    space between two, the rest is copied, and every path weighs 1.0. *)
Theorem C5_structured_address_shape :
  (forall s o w, path structured s o w [] <-> w = 10000%Z /\ structured_address data s o) /\
  (forall s, accepts structured s = true <-> exists o, structured_address data s o).
Proof.
  split.
  - intros s o w. apply AddressFacts.path_get_structured_address_graph.
  - intro s. rewrite accepts_true. split.
    + intros (o & w & H). apply AddressFacts.path_get_structured_address_graph in H.
      destruct H as [_ H]. exists o. exact H.
    + intros (o & H). exists o, 10000%Z.
      apply AddressFacts.path_get_structured_address_graph. split; [reflexivity | exact H].
Qed.

End AddressClaims.

(** The postal code at work: six digit tokens are read, five are not. *)
Example structured_reads_six_digits :
  full (get_structured_address_graph Sample.data) (u "मुंबई ८८४४०४")
  = [(address_tag (u "मुंबई आठ आठ चार चार शून्य चार"), 10000%Z)].
Proof. vm_compute. reflexivity. Qed.

Example structured_rejects_five_digits :
  accepts (get_structured_address_graph Sample.data) (u "मुंबई ८८४४०") = false.
Proof. vm_compute. reflexivity. Qed.

Lemma sample_en_to_hi_wf : wf (en_to_hi_map Sample.data INPUT_LOWER_CASED).
Proof. exact (en_to_hi_wf SampleFacts.sample_collaborators). Qed.

Lemma sample_plain_word p :
  p <> [] -> forallb (is_plain_char Sample.data) p = true -> plain_word Sample.data p.
Proof.
  intros Hne H. split; [exact Hne|]. apply Forall_forall. intros c Hin.
  rewrite forallb_forall in H. apply H. exact Hin.
Qed.



Lemma sample_no_ordinal : empty (Ordinal.graph Sample.ordinal_none).
Proof. intros i o w r H. exact H. Qed.

Lemma sample_no_english : empty (en_to_hi_map Sample.data_hi INPUT_LOWER_CASED).
Proof. intros i o w r H. exact H. Qed.




End MeasureClaims.

(** ** More on the post-processor: all its paths *)

Module PostProcessingProperties.
Import Pynini PyniniFacts PostProcessingFst PostProcessingSpec PostProcessingFacts Properties.

Lemma deletes_spaces_refl s : deletes_spaces s s.
Proof. induction s; constructor; assumption. Qed.

Lemma deletes_spaces_trans a b : deletes_spaces a b -> forall c, deletes_spaces b c -> deletes_spaces a c.
Proof.
  induction 1 as [|x a b _ IH|a b _ IH]; intros c Hc.
  - exact Hc.
  - inversion Hc; subst.
    + constructor. apply IH. assumption.
    + apply ds_drop. apply IH. assumption.
  - apply ds_drop. apply IH. exact Hc.
Qed.

Lemma deletes_spaces_length s o : deletes_spaces s o -> (List.length o <= List.length s)%nat.
Proof. induction 1; simpl; lia. Qed.

Lemma removal_deletes P i o k r : removal P i o k r -> r = [] -> deletes_spaces i o.
Proof.
  induction 1 as [i|c i o k r _ IH|p i o k r Hp _ IH]; intro E.
  - subst. constructor.
  - constructor. apply IH. exact E.
  - apply ds_drop. constructor. apply IH. exact E.
Qed.

Lemma no_space_after_deletes t : forall b, deletes_spaces t (no_space_after b t).
Proof.
  induction t as [|c t IH]; intro b; simpl; [constructor|].
  destruct (N.eqb_spec c space) as [->|Hc]; simpl.
  - destruct b; [apply ds_drop | constructor]; apply IH.
  - constructor. apply IH.
Qed.

Lemma no_space_after_length b t : (List.length (no_space_after b t) <= List.length t)%nat.
Proof. apply deletes_spaces_length, no_space_after_deletes. Qed.

(** After the second pass no opening bracket has a space behind it, and
    the text does not start with a space when a bracket was just written. *)
Lemma no_space_after_clear t :
  forall b, space_after_bracket (no_space_after b t) = false
            /\ (b = true -> head_space (no_space_after b t) = false).
Proof.
  induction t as [|c t IH]; intro b; simpl; [auto|].
  destruct (N.eqb_spec c space) as [->|Hc]; simpl.
  - destruct b; simpl.
    + apply IH.
    + destruct (IH (is_open_bracket space)) as [H1 H2]. rewrite H1.
      split; [|discriminate]. change (is_open_bracket space) with false. reflexivity.
  - destruct (IH (is_open_bracket c)) as [H1 H2]. rewrite H1. split.
    + destruct (is_open_bracket c); [rewrite H2; reflexivity | reflexivity].
    + intros _. apply N.eqb_neq. exact Hc.
Qed.

Lemma no_space_after_fixed t :
  forall b, space_after_bracket t = false -> (b = true -> head_space t = false) ->
            no_space_after b t = t.
Proof.
  induction t as [|c t IH]; intros b Hs Hh; simpl; [reflexivity|].
  simpl in Hs. apply orb_false_elim in Hs. destruct Hs as [Hs1 Hs2].
  destruct (N.eqb c space && b) eqn:E.
  - apply andb_prop in E. destruct E as [E ->]. simpl in Hh. rewrite (Hh eq_refl) in E.
    discriminate.
  - f_equal. apply IH; [exact Hs2|]. intro Hb. rewrite Hb in Hs1. exact Hs1.
Qed.

Lemma no_space_after_fixed_inv t :
  forall b, no_space_after b t = t ->
            space_after_bracket t = false /\ (b = true -> head_space t = false).
Proof.
  induction t as [|c t IH]; intros b E; simpl in *; [auto|].
  destruct (N.eqb c space && b) eqn:Ec.
  - exfalso. pose proof (no_space_after_length b t) as L. rewrite E in L. simpl in L. lia.
  - injection E as E. destruct (IH _ E) as [H1 H2]. rewrite H1. split.
    + destruct (is_open_bracket c); [rewrite H2; reflexivity | reflexivity].
    + intros ->. rewrite andb_true_r in Ec. exact Ec.
Qed.

Lemma no_space_before_two P c p s :
  no_space_before P (c :: p :: s)
  = if N.eqb c space && P p then p :: no_space_before P s
    else c :: no_space_before P (p :: s).
Proof. reflexivity. Qed.

Lemma no_space_before_deletes P s : deletes_spaces s (no_space_before P s).
Proof.
  induction s as [|c|c p s IH1 IH2] using pairs_ind.
  - constructor.
  - simpl. apply deletes_spaces_refl.
  - rewrite no_space_before_two. destruct (N.eqb_spec c space) as [->|Hc]; simpl.
    + destruct (P p); [apply ds_drop; constructor; exact IH1 | constructor; exact IH2].
    + constructor. exact IH2.
Qed.

Lemma no_space_before_full_length P s :
  List.length (no_space_before P s) = List.length s -> no_space_before P s = s.
Proof.
  induction s as [|c|c p s IH1 IH2] using pairs_ind; intro L.
  - reflexivity.
  - reflexivity.
  - rewrite no_space_before_two in *. destruct (N.eqb c space && P p).
    + pose proof (deletes_spaces_length (no_space_before_deletes P s)) as L'.
      simpl in L. lia.
    + f_equal. apply IH2. simpl in L. simpl. lia.
Qed.

Lemma no_space_before_fixed_inv P s :
  no_space_before P s = s -> space_before_mark P s = false.
Proof.
  induction s as [|c|c p s IH1 IH2] using pairs_ind; intro E.
  - reflexivity.
  - simpl. rewrite andb_false_r. reflexivity.
  - rewrite no_space_before_two in E. destruct (N.eqb c space && P p) eqn:Ec.
    + exfalso. pose proof (deletes_spaces_length (no_space_before_deletes P s)) as L.
      apply (f_equal (@List.length char)) in E. simpl in E. lia.
    + injection E as E. change (space_before_mark P (c :: p :: s))
        with ((N.eqb c space && P p) || space_before_mark P (p :: s)).
      rewrite Ec. simpl. apply IH2. exact E.
Qed.

Section Graph.

Variable punct_marks_all : list str.
Variable MIN_NEG_WEIGHT : weight.

Hypothesis marks_single : forall m, In m punct_marks_all -> exists c, m = [c].
Hypothesis marks_no_space : ~ In [space] punct_marks_all.
Hypothesis marks_no_bracket : ~ In [91%N] punct_marks_all.
Hypothesis weight_negative : (MIN_NEG_WEIGHT < 0)%Z.

#[local] Abbreviation P := (closes_up punct_marks_all).
#[local] Abbreviation post_graph :=
  (get_punct_postprocess_graph punct_marks_all MIN_NEG_WEIGHT).

(** A path of the whole graph is a path of the first graph, rewritten. *)
Lemma path_post_graph s o w :
  path post_graph s o w [] <->
  exists o1, path (graph_before punct_marks_all MIN_NEG_WEIGHT) s o1 w []
             /\ o = no_space_after false o1.
Proof.
  unfold get_punct_postprocess_graph, optimize. rewrite path_compose. split.
  - intros (o1 & w1 & w2 & H1 & H2 & ->). apply path_no_space_after_punct in H2.
    destruct H2 as [-> ->]. exists o1. rewrite Z.add_0_r. auto.
  - intros (o1 & H1 & ->). exists o1, w, 0%Z. repeat split; [exact H1| |lia].
    apply path_no_space_after_punct. auto.
Qed.

(** X1: whatever path the post-processing graph takes on a sentence, the
    output is the sentence with some of its spaces taken out: no other
    character is removed, added, changed or moved.  A path never weighs
    more than zero. *)
Theorem X1_only_spaces_are_removed s o w :
  path post_graph s o w [] -> deletes_spaces s o /\ (w <= 0)%Z.
Proof.
  intro H. apply path_post_graph in H. destruct H as (o1 & H & ->).
  apply (@sound_graph_before _ _ marks_single marks_no_bracket) in H.
  destruct H as (k & Hr & ->). split.
  - apply deletes_spaces_trans with (b := o1).
    + apply (removal_deletes Hr). reflexivity.
    + apply no_space_after_deletes.
  - nia.
Qed.

(** X2: the graph accepts every sentence, and the output of least weight
    is the same on every path of least weight: there is exactly one
    selected output. *)
Theorem X2_one_selected_output s :
  exists o, selected post_graph s o /\ forall o', selected post_graph s o' -> o' = o.
Proof.
  exists (postprocess punct_marks_all s). split.
  - apply selected_postprocess; auto.
  - intros o' H. apply selected_postprocess in H; auto.
Qed.

(** X3: on no path does the output hold an opening bracket with a space
    right after it. *)
Theorem X3_no_space_left_after_a_bracket s o w :
  path post_graph s o w [] -> space_after_bracket o = false.
Proof.
  intro H. apply path_post_graph in H. destruct H as (o1 & _ & ->).
  apply no_space_after_clear.
Qed.

(** X4: the selected output is the sentence itself exactly when the
    sentence has no space right before a mark of the closed set and no
    space right after an opening bracket. *)
Theorem X4_unchanged_iff_nothing_to_remove s :
  selected post_graph s s <->
  space_before_mark P s = false /\ space_after_bracket s = false.
Proof.
  rewrite selected_postprocess by auto. unfold postprocess. split.
  - intro E.
    assert (L1 := deletes_spaces_length (no_space_before_deletes P s)).
    assert (L2 := no_space_after_length false (no_space_before P s)).
    assert (L : List.length s = List.length (no_space_after false (no_space_before P s)))
      by (rewrite <- E; reflexivity).
    assert (E1 : no_space_before P s = s) by (apply no_space_before_full_length; lia).
    split.
    + apply no_space_before_fixed_inv. exact E1.
    + rewrite E1 in E. symmetry in E. apply no_space_after_fixed_inv in E. apply E.
  - intros [H1 H2]. rewrite (no_space_before_fixed _ _ H1). symmetry.
    apply no_space_after_fixed; [exact H2 | discriminate].
Qed.

End Graph.

(** X5: whatever marks the punctuation tagger lists, the danda and the six
    sentence marks are in the closed set, and the quotation marks, the
    dashes and the brackets <, { and ( are not. *)
Theorem X5_closed_set_membership (punct_marks_all : list str) (c : char) :
  (is_sentence_mark c = true -> In [c] (no_space_before_punct_list punct_marks_all)) /\
  (is_quote c || is_dash c || existsb (N.eqb c) [60; 123; 40]%N = true ->
   ~ In [c] (no_space_before_punct_list punct_marks_all)).
Proof.
  unfold no_space_before_punct_list. split.
  - intro H. apply nodup_In. apply in_or_app. right.
    apply existsb_eqb_In in H. simpl in H.
    repeat (destruct H as [<-|H]; [vm_compute; tauto|]). contradiction.
  - intros H Hin. apply nodup_In in Hin. apply in_app_or in Hin.
    assert (Hc : In c [39; 34; 171; 45; 8212; 60; 123; 40]%N).
    { unfold is_quote, is_dash in H. rewrite <- !existsb_app in H.
      apply existsb_eqb_In in H. exact H. }
    destruct Hin as [Hin|Hin].
    + apply filter_In in Hin. destruct Hin as [_ Hin]. apply negb_true_iff in Hin.
      assert (Ht : py_in [c] allow_space_before_punct = true).
      { simpl in Hc. repeat (destruct Hc as [<-|Hc]; [vm_compute; reflexivity|]).
        contradiction. }
      congruence.
    + simpl in Hc. vm_compute in Hin.
      repeat (destruct Hc as [<-|Hc];
              [repeat (destruct Hin as [Hin|Hin]; [discriminate Hin|]); contradiction|]).
      contradiction.
Qed.

(** X6: the rewrite that deletes the spaces after an opening bracket is
    idempotent: applied to its own output it changes nothing. *)
Theorem X6_bracket_pass_idempotent i o w o' w' :
  path no_space_after_punct i o w [] -> path no_space_after_punct o o' w' [] ->
  o' = o /\ w' = 0%Z.
Proof.
  intros H1 H2. apply path_no_space_after_punct in H1, H2.
  destruct H1 as [-> _], H2 as [-> ->]. split; [apply no_space_after_twice | reflexivity].
Qed.

Lemma X1_only_spaces_are_removed_witness :
  (forall m, In m Sample.punct_marks -> exists c, m = [c]) /\
  ~ In [91%N] Sample.punct_marks /\
  (Sample.MIN_NEG_WEIGHT < 0)%Z /\
  path Sample.post_process_graph (u "( क , ख") (u "(क, ख") (-1)%Z [] /\
  deletes_spaces (u "( क , ख") (u "(क, ख") /\ (-1 <= 0)%Z.
Proof.
  assert (H : path Sample.post_process_graph (u "( क , ख") (u "(क, ख") (-1)%Z [])
    by (apply path_found; vm_compute; reflexivity).
  split; [exact PostProcessingClaims.sample_marks_single|].
  split; [exact PostProcessingClaims.sample_marks_no_bracket|].
  split; [reflexivity|]. split; [exact H|].
  exact (@X1_only_spaces_are_removed Sample.punct_marks Sample.MIN_NEG_WEIGHT
           PostProcessingClaims.sample_marks_single
           PostProcessingClaims.sample_marks_no_bracket
           (eq_refl : (Sample.MIN_NEG_WEIGHT < 0)%Z)
           (u "( क , ख") (u "(क, ख") (-1)%Z H).
Defined.

Lemma X2_one_selected_output_witness :
  (forall m, In m Sample.punct_marks -> exists c, m = [c]) /\
  ~ In [space] Sample.punct_marks /\
  ~ In [91%N] Sample.punct_marks /\
  (Sample.MIN_NEG_WEIGHT < 0)%Z /\
  exists o, selected Sample.post_process_graph (u "( क , ख") o /\
            forall o', selected Sample.post_process_graph (u "( क , ख") o' -> o' = o.
Proof.
  split; [exact PostProcessingClaims.sample_marks_single|].
  split; [exact PostProcessingClaims.sample_marks_no_space|].
  split; [exact PostProcessingClaims.sample_marks_no_bracket|].
  split; [reflexivity|].
  exact (@X2_one_selected_output Sample.punct_marks Sample.MIN_NEG_WEIGHT
           PostProcessingClaims.sample_marks_single
           PostProcessingClaims.sample_marks_no_space
           PostProcessingClaims.sample_marks_no_bracket
           (eq_refl : (Sample.MIN_NEG_WEIGHT < 0)%Z) (u "( क , ख")).
Defined.

Lemma X3_no_space_left_after_a_bracket_witness :
  path Sample.post_process_graph (u "( क , ख") (u "(क , ख") 0%Z [] /\
  space_after_bracket (u "(क , ख") = false.
Proof.
  assert (H : path Sample.post_process_graph (u "( क , ख") (u "(क , ख") 0%Z [])
    by (apply path_found; vm_compute; reflexivity).
  split; [exact H|].
  exact (@X3_no_space_left_after_a_bracket Sample.punct_marks Sample.MIN_NEG_WEIGHT
           (u "( क , ख") (u "(क , ख") 0%Z H).
Defined.

Lemma X4_unchanged_iff_nothing_to_remove_witness :
  (forall m, In m Sample.punct_marks -> exists c, m = [c]) /\
  ~ In [space] Sample.punct_marks /\
  ~ In [91%N] Sample.punct_marks /\
  (Sample.MIN_NEG_WEIGHT < 0)%Z /\
  (selected Sample.post_process_graph (u "(क, ख") (u "(क, ख") <->
   space_before_mark (closes_up Sample.punct_marks) (u "(क, ख") = false
   /\ space_after_bracket (u "(क, ख") = false).
Proof.
  split; [exact PostProcessingClaims.sample_marks_single|].
  split; [exact PostProcessingClaims.sample_marks_no_space|].
  split; [exact PostProcessingClaims.sample_marks_no_bracket|].
  split; [reflexivity|].
  exact (@X4_unchanged_iff_nothing_to_remove Sample.punct_marks Sample.MIN_NEG_WEIGHT
           PostProcessingClaims.sample_marks_single
           PostProcessingClaims.sample_marks_no_space
           PostProcessingClaims.sample_marks_no_bracket
           (eq_refl : (Sample.MIN_NEG_WEIGHT < 0)%Z) (u "(क, ख")).
Defined.

Lemma X6_bracket_pass_idempotent_witness :
  path no_space_after_punct (u "(  क") (u "(क") 0%Z [] /\
  path no_space_after_punct (u "(क") (u "(क") 0%Z [] /\
  u "(क" = u "(क" /\ 0%Z = 0%Z.
Proof.
  assert (H1 : path no_space_after_punct (u "(  क") (u "(क") 0%Z [])
    by (apply path_found; vm_compute; reflexivity).
  assert (H2 : path no_space_after_punct (u "(क") (u "(क") 0%Z [])
    by (apply path_found; vm_compute; reflexivity).
  split; [exact H1|]. split; [exact H2|].
  exact (@X6_bracket_pass_idempotent (u "(  क") (u "(क") 0%Z (u "(क") 0%Z H1 H2).
Defined.

End PostProcessingProperties.

(** ** More on the measure tagger: what its inputs hold *)

Module MeasureProperties.
Import Pynini PyniniFacts Reads GraphUtils MeasureFst MeasureSpec MeasureFacts Properties.

Local Open Scope fst_scope.

Lemma no_dot_nowhere s : ~ In 46%N s -> Forall (fun c => ~ is_dot c) s.
Proof.
  intro H. apply Forall_forall. intros c Hin Hc. unfold is_dot in Hc. subst c. exact (H Hin).
Qed.

Lemma dot_is_boundary s : somewhere is_dot s -> somewhere is_boundary s.
Proof.
  unfold somewhere. apply Exists_impl. intros c Hc. unfold is_dot in Hc. subst c.
  right. right. right. reflexivity.
Qed.

Lemma space_is_a_boundary s : somewhere is_space s -> somewhere is_boundary s.
Proof.
  unfold somewhere. apply Exists_impl. intros c Hc. unfold is_space in Hc. subst c.
  left. reflexivity.
Qed.

Lemma numeral_has_digit d r : numeral d -> exists c, In c (d ++ r) /\ is_any_digit c = true.
Proof.
  intros [Hne Hd]. destruct d as [|c d]; [congruence|]. exists c. split; [left; reflexivity|].
  inversion Hd. assumption.
Qed.

(** A cardinal with a unit reads a digit. *)
Lemma cardinal_with_reads_digit n uw s o w r :
  reads n numeral -> path (cardinal_with n uw) s o w r ->
  exists c, In c s /\ is_any_digit c = true.
Proof.
  intros Hn H. apply path_cardinal_with in H.
  destruct H as (on & i1 & oc & wc & r1 & r2 & ou & wu & Hs & Hc & _).
  destruct (Hn _ _ _ _ Hc) as (d & -> & Hd).
  destruct (@numeral_has_digit d r1 Hd) as (c & Hin & Hdig). exists c. split; [|exact Hdig].
  apply path_optional_graph_negative in Hs. destruct Hs as (_ & [(E & _)|(-> & _)]).
  - rewrite <- E. exact Hin.
  - apply in_or_app. right. exact Hin.
Qed.


(** *** What a transducer writes *)

Section Writes.

(** A set of outputs that holds the empty one and is closed under
    concatenation. *)
Variable Q : str -> Prop.
Hypothesis Q_nil : Q [].
Hypothesis Q_app : forall a b, Q a -> Q b -> Q (a ++ b).

Lemma writes_cross_str a b : Q b -> writes (cross_str a b) Q.
Proof. intros Hb i o w r H. apply path_cross_str in H. destruct H as (_ & -> & _). exact Hb. Qed.

Lemma writes_accep s : Q s -> writes (accep s) Q.
Proof. apply writes_cross_str. Qed.

Lemma writes_insert s : Q s -> writes (insert s) Q.
Proof. apply writes_cross_str. Qed.

Lemma writes_epsilon : writes epsilon Q.
Proof. intros i o w r H. apply path_epsilon in H. destruct H as (_ & -> & _). exact Q_nil. Qed.

Lemma writes_char_class p : (forall c, p c = true -> Q [c]) -> writes (char_class p) Q.
Proof.
  intros Hp i o w r H. apply path_char_class in H. destruct H as (c & _ & Hc & -> & _).
  apply Hp. exact Hc.
Qed.

Lemma writes_string_map t : (forall k v, In (k, v) t -> Q v) -> writes (string_map t) Q.
Proof.
  intros Ht i o w r H. apply path_string_map in H. destruct H as (k & Hin & _).
  exact (Ht _ _ Hin).
Qed.

Lemma writes_union a b : writes a Q -> writes b Q -> writes (a :| b) Q.
Proof. intros Ha Hb i o w r H. apply path_union in H. destruct H; eauto. Qed.

Lemma writes_concat a b : writes a Q -> writes b Q -> writes (a :+ b) Q.
Proof.
  intros Ha Hb i o w r H. apply path_concat in H.
  destruct H as (o1 & w1 & r1 & o2 & w2 & H1 & H2 & -> & _). eauto.
Qed.

Lemma writes_delete t : writes (delete t) Q.
Proof. intros i o w r H. apply path_delete in H. destruct H as (-> & _). exact Q_nil. Qed.

Lemma writes_add_weight t k : writes t Q -> writes (add_weight t k) Q.
Proof.
  intros Ht i o w r H. apply path_add_weight in H. destruct H as (w' & H & _). eauto.
Qed.

Lemma writes_compose a b : writes b Q -> writes (compose a b) Q.
Proof.
  intros Hb i o w r H. apply path_compose in H.
  destruct H as (o1 & w1 & w2 & _ & H2 & _). eauto.
Qed.

Lemma writes_closure t : writes t Q -> writes (closure t) Q.
Proof.
  intros Ht i o w r H. revert i o w r H.
  apply closure_ind with (Q := fun (_ : str) o (_ : weight) (_ : str) => Q o); eauto.
Qed.

Lemma writes_power t n : writes t Q -> writes (power t n) Q.
Proof.
  intro Ht. induction n as [|n IH]; simpl;
    [apply writes_epsilon | apply writes_concat; assumption].
Qed.

Lemma writes_upto t n : writes t Q -> writes (upto t n) Q.
Proof.
  intro Ht. induction n as [|n IH]; simpl; [apply writes_epsilon|].
  apply writes_union; [apply writes_epsilon | apply writes_concat; assumption].
Qed.

Lemma writes_closure_range t lo hi : writes t Q -> writes (closure_range t lo hi) Q.
Proof.
  intro Ht. unfold closure_range.
  apply writes_concat; [apply writes_power | apply writes_upto]; assumption.
Qed.

Lemma writes_closure_from t lo : writes t Q -> writes (closure_from t lo) Q.
Proof.
  intro Ht. unfold closure_from.
  apply writes_concat; [apply writes_power | apply writes_closure]; assumption.
Qed.

End Writes.

Lemma digit_free_nil : digit_free [].
Proof. constructor. Qed.

Lemma digit_free_app a b : digit_free a -> digit_free b -> digit_free (a ++ b).
Proof. intros Ha Hb. apply Forall_app. split; assumption. Qed.

Lemma digit_free_by_evaluation o :
  forallb (fun c => negb (is_any_digit c)) o = true -> digit_free o.
Proof.
  intro H. apply Forall_forall. intros c Hin. rewrite forallb_forall in H.
  apply negb_true_iff. apply H. exact Hin.
Qed.

Lemma digit_free_values_by_evaluation t :
  forallb (fun kv => forallb (fun c => negb (is_any_digit c)) (snd kv)) t = true ->
  digit_free_values t.
Proof.
  intros H k v Hin. rewrite forallb_forall in H.
  apply digit_free_by_evaluation. exact (H _ Hin).
Qed.

(** The other-word processor copies no digit: a digit is a convertible
    character. *)
Lemma writes_non_space_char data : writes (non_space_char data) digit_free.
Proof.
  intros i o w r H. unfold non_space_char, optimize, NEMO_CHAR in H.
  apply path_difference in H. destruct H as [H Hx].
  apply path_char_class in H. destruct H as (c & -> & _ & -> & _).
  change (c :: r) with ([c] ++ r) in Hx. rewrite consumed_app in Hx.
  constructor; [|constructor].
  destruct (is_any_digit c) eqn:Hd; [exfalso | reflexivity].
  rewrite accepts_false in Hx. apply (Hx [c] 0%Z).
  apply path_union. right. apply path_union. left.
  unfold convertible_char. apply path_union. left.
  unfold single_digit, optimize, NEMO_DIGIT, NEMO_HI_DIGIT.
  unfold is_any_digit in Hd. apply orb_prop in Hd. destruct Hd as [Hd|Hd].
  - apply path_union. left. apply path_char_class. exists c. auto.
  - apply path_union. right. apply path_char_class. exists c. auto.
Qed.

Lemma writes_word_char : writes word_char digit_free.
Proof.
  intros i o w r H. apply AddressFacts.path_word_char in H.
  destruct H as (c & _ & Hc & -> & _). constructor; [|constructor].
  unfold is_word_char in Hc. apply andb_prop in Hc. destruct Hc as [Hc _].
  apply andb_prop in Hc. destruct Hc as [_ Hc]. apply negb_true_iff. exact Hc.
Qed.

Ltac written :=
  repeat
    lazymatch goal with
    | |- writes (_ :+ _) _ => apply writes_concat; [exact digit_free_app | |]
    | |- writes (_ :| _) _ => apply writes_union
    | |- writes (insert _) _ =>
        apply writes_insert; apply digit_free_by_evaluation; vm_compute; reflexivity
    | |- writes (accep _) _ =>
        apply writes_accep; apply digit_free_by_evaluation; vm_compute; reflexivity
    | |- writes insert_space _ => unfold insert_space
    | |- writes epsilon _ => apply writes_epsilon; exact digit_free_nil
    | |- writes (delete _) _ => apply writes_delete; exact digit_free_nil
    | |- writes GraphUtils.delete_space _ => apply writes_delete; exact digit_free_nil
    | |- writes (add_weight _ _) _ => apply writes_add_weight
    | |- writes (compose _ _) _ => apply writes_compose
    | |- writes (optimize _) _ => unfold optimize
    | |- writes (closure _) _ =>
        apply writes_closure; [exact digit_free_nil | exact digit_free_app |]
    | |- writes (closure_range _ _ _) _ =>
        apply writes_closure_range; [exact digit_free_nil | exact digit_free_app |]
    | |- writes (closure_from _ _) _ =>
        apply writes_closure_from; [exact digit_free_nil | exact digit_free_app |]
    | |- writes (non_space_char _) _ => apply writes_non_space_char
    | |- writes word_char _ => apply writes_word_char
    | |- writes (string_map _) _ => apply writes_string_map
    | |- _ => fail
    end.

(** *** The token processors of the contextual grammar *)

Lemma path_delete_white ws r : white ws -> path GraphUtils.delete_space (ws ++ r) [] 0%Z r.
Proof.
  intro H. unfold GraphUtils.delete_space. apply path_delete. split; [reflexivity|].
  exists ws. apply closure_reads_word. intros c r' Hin. unfold NEMO_WHITE_SPACE.
  apply path_char_class. exists c. repeat split.
  unfold white in H. rewrite Forall_forall in H. apply H. exact Hin.
Qed.

Lemma path_convertible_char data i o w r :
  path (convertible_char data) i o w r <->
  exists k, convertible_key data k /\ i = k ++ r /\ o = k /\ w = 0%Z.
Proof.
  unfold convertible_char, single_digit, special_chars, single_letter, letter_to_word,
    optimize, NEMO_DIGIT, NEMO_HI_DIGIT, convertible_key.
  change HYPHEN with [45%N]. change SLASH with [47%N]. split.
  - intro H. apply path_union in H. destruct H as [H|H]; [|apply path_union in H; destruct H as [H|H]].
    + apply path_union in H.
      destruct H as [H|H]; apply path_char_class in H; destruct H as (c & -> & Hc & -> & ->);
        exists [c]; repeat split; left; exists c; split; try reflexivity; left;
        unfold is_any_digit; rewrite Hc; auto using orb_true_r.
    + apply path_union in H.
      destruct H as [H|H]; apply path_accep in H; destruct H as (-> & -> & ->).
      * exists [45%N]. repeat split. left. exists 45%N. auto.
      * exists [47%N]. repeat split. left. exists 47%N. auto.
    + apply path_project_input in H. destruct H as (-> & o' & H).
      apply path_string_map in H. destruct H as (k & Hk & -> & ->).
      exists k. rewrite consumed_app. repeat split. right. exists o'. exact Hk.
  - intros (k & [(c & -> & [Hc|[->| ->]])|(v & Hk)] & -> & -> & ->).
    + apply path_union. left. unfold is_any_digit in Hc. apply orb_prop in Hc.
      destruct Hc as [Hc|Hc]; apply path_union; [left | right];
        apply path_char_class; exists c; auto.
    + apply path_union. right. apply path_union. left. apply path_union. left.
      apply (path_accep_intro [45%N]).
    + apply path_union. right. apply path_union. left. apply path_union. right.
      apply (path_accep_intro [47%N]).
    + apply path_union. right. apply path_union. right. apply path_project_input.
      rewrite consumed_app. split; [reflexivity|]. exists v.
      apply path_string_map_intro. exact Hk.
Qed.

Lemma path_char_to_word data i o w r :
  path (char_to_word data) i o w r <->
  exists k, In (k, o) (char_words data) /\ i = k ++ r /\ w = 0%Z.
Proof.
  unfold char_to_word, optimize, digit_graph, char_words. split.
  - intro H.
    apply path_union in H. destruct H as [H|H];
      [|apply path_union in H; destruct H as [H|H];
        [|apply path_union in H; destruct H as [H|H]]];
      apply path_string_map in H; destruct H as (k & Hk & -> & ->); exists k;
      (split; [|auto]); rewrite !in_app_iff; auto.
  - intros (k & Hk & -> & ->). rewrite !in_app_iff in Hk.
    destruct Hk as [Hk|[Hk|[Hk|Hk]]].
    + apply path_union. left. apply path_string_map_intro. exact Hk.
    + apply path_union. right. apply path_union. left. apply path_string_map_intro. exact Hk.
    + apply path_union. right. apply path_union. right. apply path_union. left.
      apply path_string_map_intro. exact Hk.
    + apply path_union. right. apply path_union. right. apply path_union. right.
      apply path_string_map_intro. exact Hk.
Qed.

(** *** Counting the words of the window *)

Lemma word_count_inside s : (word_count_from true s <= word_count_from false s)%nat.
Proof. destruct s as [|c s]; simpl; [lia|]. destruct (is_boundary_char c); lia. Qed.

Lemma word_count_from_le b s : (word_count_from b s <= word_count s)%nat.
Proof. destruct b; [apply word_count_inside | apply Nat.le_refl]. Qed.

Lemma word_count_from_app p : forall b q,
  (word_count_from b (p ++ q) <= word_count_from b p + word_count q)%nat.
Proof.
  induction p as [|c p IH]; intros b q; simpl.
  - apply word_count_from_le.
  - destruct (is_boundary_char c).
    + apply IH.
    + specialize (IH true q). lia.
Qed.

Lemma word_count_app p q : (word_count (p ++ q) <= word_count p + word_count q)%nat.
Proof. apply word_count_from_app. Qed.

Lemma word_count_boundaries p :
  Forall (fun c => is_boundary_char c = true) p -> forall b, word_count_from b p = 0%nat.
Proof.
  induction 1 as [|c p Hc _ IH]; intro b; simpl; [reflexivity|]. rewrite Hc. apply IH.
Qed.

Lemma word_count_word p :
  Forall (fun c => is_boundary_char c = false) p -> (word_count p <= 1)%nat.
Proof.
  intro H. unfold word_count.
  assert (A : word_count_from true p = 0%nat).
  { induction H as [|c p Hc _ IH]; simpl; [reflexivity|]. rewrite Hc. exact IH. }
  destruct H as [|c p Hc _]; simpl; [lia|]. rewrite Hc.
  simpl in A. rewrite Hc in A. simpl in A. lia.
Qed.

Lemma accepts_word_boundary c : accepts word_boundary [c] = is_boundary_char c.
Proof.
  unfold accepts, full, word_boundary, optimize, union, accep, cross_str,
    NEMO_WHITE_SPACE, char_class, is_boundary_char.
  change COMMA with [44%N]. change PERIOD with [46%N]. change HI_PERIOD with [2404%N].
  cbn [is_prefix existsb]. rewrite (N.eqb_sym 44 c), (N.eqb_sym 46 c), (N.eqb_sym 2404 c).
  destruct (is_white_space c), (N.eqb c 44), (N.eqb c 46), (N.eqb c 2404); reflexivity.
Qed.

Lemma reads_word_boundary_char :
  reads word_boundary (Forall (fun c => is_boundary_char c = true)).
Proof.
  intros i o w r H.
  assert (E : exists c, i = c :: r /\ is_boundary_char c = true).
  { unfold word_boundary, optimize, NEMO_WHITE_SPACE in H. unfold is_boundary_char.
    apply path_union in H. destruct H as [H|H];
      [|apply path_union in H; destruct H as [H|H];
        [|apply path_union in H; destruct H as [H|H]]].
    - apply path_char_class in H. destruct H as (c & -> & Hc & _). exists c.
      rewrite Hc. auto.
    - apply path_accep in H. destruct H as (-> & _). exists 44%N.
      split; [reflexivity | apply orb_true_r].
    - apply path_accep in H. destruct H as (-> & _). exists 2404%N.
      split; [reflexivity | apply orb_true_r].
    - apply path_accep in H. destruct H as (-> & _). exists 46%N.
      split; [reflexivity | apply orb_true_r]. }
  destruct E as (c & -> & Hc). exists [c]. split; [reflexivity | repeat constructor; exact Hc].
Qed.

Lemma reads_non_boundary_char :
  reads non_boundary_char (Forall (fun c => is_boundary_char c = false)).
Proof.
  intros i o w r H. unfold non_boundary_char, NEMO_CHAR in H.
  apply path_difference in H. destruct H as [H Hx].
  apply path_char_class in H. destruct H as (c & -> & _).
  change (c :: r) with ([c] ++ r) in Hx. rewrite consumed_app in Hx.
  rewrite accepts_word_boundary in Hx.
  exists [c]. split; [reflexivity | repeat constructor; exact Hx].
Qed.

Lemma reads_runs t (Q : char -> Prop) :
  reads t (Forall Q) -> reads (closure t) (Forall Q) /\ forall n, reads (closure_from t n) (Forall Q).
Proof.
  intro H.
  assert (A : forall p q, Forall Q p -> Forall Q q -> Forall Q (p ++ q))
    by (intros p q Hp Hq; apply Forall_app; split; assumption).
  split; [|intro n]; [apply reads_closure | apply reads_closure_from]; auto.
Qed.

(** A word with the boundaries after it counts one word at most, and [n]
    of them [n] at most. *)
Lemma reads_word_with_boundary :
  reads word_with_boundary (fun p => (word_count p <= 1)%nat).
Proof.
  unfold word_with_boundary, c_word, optimize.
  apply reads_concat with (Ra := Forall (fun c => is_boundary_char c = false))
                          (Rb := Forall (fun c => is_boundary_char c = true)).
  - apply (@reads_runs _ _ reads_non_boundary_char).
  - apply (@reads_runs _ _ reads_word_boundary_char).
  - intros p q Hp Hq. pose proof (word_count_app p q) as L.
    pose proof (word_count_word Hp) as Lp.
    pose proof (word_count_boundaries Hq false) as Lq. unfold word_count in *. lia.
Qed.

Lemma reads_counted t a n :
  reads t (fun p => (word_count p <= a)%nat) ->
  reads (power t n) (fun p => (word_count p <= n * a)%nat).
Proof.
  intro H. induction n as [|n IH]; simpl.
  - apply reads_epsilon. unfold word_count. simpl. lia.
  - apply reads_concat with (Ra := fun p => (word_count p <= a)%nat)
                            (Rb := fun p => (word_count p <= n * a)%nat);
      [exact H | exact IH|].
    intros p q Hp Hq. pose proof (word_count_app p q). lia.
Qed.

Lemma reads_counted_range t a hi :
  reads t (fun p => (word_count p <= a)%nat) ->
  reads (closure_range t 0 hi) (fun p => (word_count p <= hi * a)%nat).
Proof.
  intros H i o w r Hp. apply path_closure_range in Hp. destruct Hp as (n & Hn & Hp).
  destruct (@reads_counted t a n H _ _ _ _ Hp) as (p & -> & Hc). exists p. split; [reflexivity|].
  assert (n * a <= hi * a)%nat by (apply Nat.mul_le_mono_r; lia). lia.
Qed.

Lemma reads_window : reads window (fun p => (word_count p <= 5)%nat).
Proof.
  unfold window, optimize.
  apply reads_weaken with (R := fun p => (word_count p <= 5 * 1)%nat).
  - apply reads_counted_range. exact reads_word_with_boundary.
  - intros p Hp. lia.
Qed.

Lemma reads_boundary_count : reads boundary (fun p => (word_count p <= 0)%nat).
Proof.
  unfold boundary, optimize.
  apply reads_weaken with (R := Forall (fun c => is_boundary_char c = true)).
  - apply (@reads_runs _ _ reads_word_boundary_char).
  - intros p Hp. unfold word_count. rewrite (word_count_boundaries Hp). lia.
Qed.

Section Tagger.

Variable data : Data.
Variable cardinal : Cardinal.t.
Variable decimal : Decimal.t.
Variable ordinal : Ordinal.t.
Variable input_case : str.

#[local] Abbreviation tagger := (graph data cardinal decimal ordinal input_case).

(** X7: an input with no ASCII period in it has no path through any of
    the six alternatives that read a decimal point: the two decimal ones
    and the four idioms of a half and of the quarters.  Devanagari digits
    make no difference: the point is the ASCII one. *)
Theorem X7_decimals_need_the_ascii_period s alt o w :
  reads (cardinal_graph cardinal) numeral ->
  wf (Decimal.graph_fractional decimal) ->
  ~ In 46%N s ->
  In alt (point_alternatives data cardinal decimal) ->
  ~ path alt s o w [].
Proof.
  intros Hc Hf Hs Hin. apply nowhere_no_path with (Q := is_dot); [|apply no_dot_nowhere; exact Hs].
  unfold point_alternatives in Hin. simpl in Hin.
  destruct Hin as [<-|[<-|[<-|[<-|[<-|[<-|[]]]]]]].
  - apply reads_graph_decimal; assumption.
  - apply reads_graph_decimal_year_formal; assumption.
  - apply reads_graph_dedh_dhai.
  - apply reads_graph_savva; assumption.
  - apply reads_graph_sadhe; assumption.
  - apply reads_graph_paune.
Qed.

(** X8: the unit graph of the generic alternatives reads exactly the keys
    of the unit table other than [yr], writes the value of the row and
    weighs nothing; the year is left to the year alternatives. *)
Theorem X8_generic_units_leave_out_the_year i o w r :
  path (unit_graph_no_year data) i o w r <->
  exists k, In (k, o) (measure_unit data) /\ k <> u "yr" /\ i = k ++ r /\ w = 0%Z.
Proof. apply path_unit_graph_no_year. Qed.

(** X9: on a sign, a numeral and a unit word every path of the tagger is
    a cardinal reading: the generic one for a unit other than [yr], with the
    weight of the cardinal plus 0.1; the formal year, plus 0.1; or the
    informal year, minus 0.1.  No decimal, idiom, product or address
    alternative reads such an input. *)
Theorem X9_unit_inputs_have_cardinal_readings_only sg d k o w :
  collaborators data cardinal decimal input_case ->
  sign sg -> numeral d -> unit_word k ->
  path tagger (sg ++ d ++ k) o w [] ->
  (exists oc wc v,
      path (cardinal_graph cardinal) (d ++ k) oc wc k /\
      In (k, v) (measure_unit data) /\ k <> u "yr" /\
      o = cardinal_tag sg oc v /\ w = (wc + 1000)%Z) \/
  (exists oc wc v,
      path (cardinal_large cardinal) (d ++ k) oc wc k /\
      In (k, v) (measure_unit_year_formal data) /\
      o = cardinal_tag sg oc v /\ w = (wc + 1000)%Z) \/
  (exists oc wc,
      path (cardinal_small cardinal) (d ++ k) oc wc k /\ k = u "yr" /\
      o = cardinal_tag sg oc (u "साल") /\ w = (wc - 1000)%Z).
Proof.
  intros C Hs Hd Hk H.
  apply (@graph_on_unit_input data cardinal decimal ordinal input_case
           (cardinal_reads C) (large_reads C) (fractional_wf C) (en_to_hi_wf C)
           (unit_keys_plain C)); try assumption.
  - intros k' v' Hin. rewrite (year_formal_table C) in Hin. destruct Hin as [Hin|[]].
    injection Hin as <- _. repeat constructor.
  - exact (gazetteer_plain C).
Qed.

(** X10: an input the tagger has a path on holds a digit, or a word
    boundary (white space, comma, danda or period), or is a place name of
    the gazetteer.  So a word of letters that is no place name is never
    tagged, and neither is the empty input when no place name is empty. *)
Theorem X10_inputs_hold_a_digit_a_boundary_or_a_place s o w :
  collaborators data cardinal decimal input_case ->
  path tagger s o w [] ->
  ((exists c, In c s /\ is_any_digit c = true)
   \/ somewhere is_boundary s \/ gazetteer_key data s)
  /\ (s = [] -> gazetteer_key data []).
Proof.
  intros C H.
  assert (Hcr := cardinal_reads C). assert (Hlr := large_reads C).
  assert (Hf := fractional_wf C). assert (He := en_to_hi_wf C).
  assert (Main : (exists c, In c s /\ is_any_digit c = true)
                 \/ somewhere is_boundary s \/ gazetteer_key data s).
  { unfold graph, optimize in H. apply path_union_list in H. destruct H as (alt & Hin & H).
    unfold alternatives in Hin. simpl in Hin.
    destruct Hin as [<-|[<-|[<-|[<-|[<-|[<-|[<-|[<-|[<-|[<-|[<-|[<-|[]]]]]]]]]]]]];
      try (apply path_add_weight in H; destruct H as (w' & H & _)).
    - right. left. apply dot_is_boundary.
      exact (@reads_full _ _ _ _ _ (@reads_graph_decimal data cardinal decimal Hcr Hf) H).
    - right. left. apply dot_is_boundary.
      exact (@reads_full _ _ _ _ _ (@reads_graph_decimal_year_formal data cardinal decimal Hcr Hf) H).
    - left. exact (@cardinal_with_reads_digit _ _ _ _ _ _ Hcr H).
    - left. exact (@cardinal_with_reads_digit _ _ _ _ _ _ Hlr H).
    - left. exact (@cardinal_with_reads_digit _ _ _ _ _ _ (@small_reads cardinal Hcr) H).
    - left. destruct (@reads_full _ _ _ _ _ (@reads_graph_exceptions cardinal Hcr) H) as (p & c & -> & Hc).
      exists c. split; [apply in_or_app; right; left; reflexivity | exact Hc].
    - right. left. apply dot_is_boundary. exact (@reads_full _ _ _ _ _ (@reads_graph_dedh_dhai data) H).
    - right. left. apply dot_is_boundary. exact (@reads_full _ _ _ _ _ (@reads_graph_savva data cardinal Hcr) H).
    - right. left. apply dot_is_boundary. exact (@reads_full _ _ _ _ _ (@reads_graph_sadhe data cardinal Hcr) H).
    - right. left. apply dot_is_boundary. exact (@reads_full _ _ _ _ _ (@reads_graph_paune data) H).
    - assert (H' : path (get_address_graph data ordinal input_case) s o (w' + 10500)%Z [])
        by (apply path_add_weight_intro; exact H).
      right. left.
      exact (@reads_full _ _ _ _ _ (@reads_get_address_graph data ordinal input_case He) H').
    - assert (H' : path (get_structured_address_graph data) s o (w' + 10000)%Z [])
        by (apply path_add_weight_intro; exact H).
      right.
      destruct (@reads_full _ _ _ _ _ (@reads_get_structured_address_graph data) H')
        as [Hs|Hg].
      + left. apply space_is_a_boundary. exact Hs.
      + right. exact Hg. }
  split; [exact Main|]. intros ->.
  destruct Main as [(c & [] & _)|[Hb|Hg]]; [|exact Hg].
  unfold somewhere in Hb. inversion Hb.
Qed.

(** X11: the contextual address grammar has no path on an input without
    a keyword: every input it reads to the end holds a key of the context
    table or a string that the English keyword map reads. *)
Theorem X11_contextual_address_needs_a_keyword (E : str -> Prop) s o w :
  reads (en_to_hi_map data input_case) E ->
  path (get_address_graph data ordinal input_case) s o w [] ->
  holds (address_keyword data E) s.
Proof.
  intros He H.
  assert (Hwf : wf (en_to_hi_map data input_case)) by exact (@reads_wf _ _ He).
  assert (Hb : wf boundary) by exact (@reads_wf _ _ reads_boundary).
  assert (Hk : reads (address_keywords data input_case) (address_keyword data E)).
  { unfold address_keywords. apply reads_union.
    - unfold address_keywords_hi. apply reads_string_map. intros k v Hin. left. eauto.
    - unfold address_keywords_en. apply reads_project_input.
      apply reads_weaken with (R := E); [exact He|]. intros p Hp. right. exact Hp. }
  assert (Hhead : forall t, wf t ->
            reads (address_keywords data input_case :+ t) (holds (address_keyword data E))).
  { intros t Ht.
    apply reads_concat with (Ra := address_keyword data E) (Rb := fun _ => True);
      [exact Hk | exact Ht|].
    intros p q Hp _. exists [], p, q. split; [reflexivity | exact Hp]. }
  assert (Hskip : forall a t, wf a -> reads t (holds (address_keyword data E)) ->
            reads (a :+ t) (holds (address_keyword data E))).
  { intros a t Ha Ht.
    apply reads_concat with (Ra := fun _ => True) (Rb := holds (address_keyword data E));
      [exact Ha | exact Ht|].
    intros p q _ (pre & k & post & -> & Hkk). exists (p ++ pre), k, post.
    split; [rewrite <- app_assoc; reflexivity | exact Hkk]. }
  assert (Hp : reads (input_pattern data input_case) (holds (address_keyword data E))).
  { unfold input_pattern, optimize. apply reads_union.
    - apply Hhead. apply wf_concat; [exact Hb | exact wf_window].
    - apply Hskip; [exact wf_window|]. apply Hskip; [exact Hb|]. apply Hhead.
      apply wf_closure_range. apply wf_concat; [exact Hb | exact wf_window]. }
  assert (Hg : reads (get_address_graph data ordinal input_case)
                     (holds (address_keyword data E))).
  { unfold get_address_graph, address_graph, optimize. apply reads_add_weight.
    apply Hskip; [apply wf_insert|].
    apply reads_concat with (Ra := holds (address_keyword data E)) (Rb := fun p => p = []).
    - apply reads_compose. exact Hp.
    - apply reads_insert. reflexivity.
    - intros p q Hh ->. rewrite app_nil_r. exact Hh. }
  exact (@reads_full _ _ _ _ _ Hg H).
Qed.

(** X12: when the values of the digit, zero, telephone, special
    character, letter, state and city tables hold no digit, and neither do
    the outputs of the ordinal tagger and of the English keyword map, no
    address tag holds a digit, ASCII or Devanagari: the contextual and the
    structured grammar write every digit they read as a word. *)
Theorem X12_address_tags_hold_no_digit s o w r :
  Forall digit_free_values (spoken_tables data) ->
  writes (Ordinal.graph ordinal) digit_free ->
  writes (en_to_hi_map data input_case) digit_free ->
  path (get_address_graph data ordinal input_case) s o w r
  \/ path (get_structured_address_graph data) s o w r ->
  digit_free o.
Proof.
  intros Ht Hord Hen H. unfold spoken_tables in Ht.
  repeat match goal with
         | H : Forall _ (_ :: _) |- _ => inversion H; clear H; subst
         end.
  destruct H as [H|H]; revert H.
  - apply (fun W : writes (get_address_graph data ordinal input_case) digit_free =>
             W s o w r).
    unfold get_address_graph, address_graph, full_string_processor, token_processor,
      ordinal_processor, english_word_processor, letter_processor, digit_char_processor,
      comma_processor, other_word_processor, ordinal_graph, letter_to_word, char_to_word,
      digit_graph.
    written; assumption.
  - apply (fun W : writes (get_structured_address_graph data) digit_free => W s o w r).
    unfold get_structured_address_graph, pattern, text, word_with_sep, s_word, sep,
      street_num, pincode, num_token, state_city_names, digit_graph.
    written; assumption.
Qed.

(** X13: on a numeral, one of the symbols x, X and *, and a second
    numeral, every path of the tagger is the product reading, and it weighs
    what the two cardinals weigh plus 0.1.  No unit, decimal, idiom or
    address alternative reads such an input. *)
Theorem X13_product_inputs_have_the_product_reading_only d1 sym d2 o w :
  collaborators data cardinal decimal input_case ->
  numeral d1 -> symbol sym -> numeral d2 ->
  path tagger (d1 ++ sym ++ d2) o w [] ->
  exists o1 w1 o2 w2,
    path (cardinal_graph cardinal) (d1 ++ sym ++ d2) o1 w1 (sym ++ d2) /\
    path (cardinal_graph cardinal) d2 o2 w2 [] /\
    o = product_tag o1 o2 /\ w = (w1 + w2 + 1000)%Z.
Proof.
  intros C H1 Hs H2 H.
  apply (@graph_on_product data cardinal decimal ordinal input_case
           (cardinal_reads C) (large_reads C) (fractional_wf C) (en_to_hi_wf C)
           (unit_keys_plain C)); try assumption.
  - intros k' v' Hin. rewrite (year_formal_table C) in Hin. destruct Hin as [Hin|[]].
    injection Hin as <- _. repeat constructor.
  - exact (gazetteer_plain C).
Qed.

(** X14: the digit processor of the contextual grammar converts one
    token at a time: it reads one digit, the hyphen, the slash or a key of
    the letter table, and writes a space and the word that the digit, zero,
    special character and telephone tables give for that very token, with no
    weight.  A number of several digits is never read as one token. *)
Theorem X14_digits_are_converted_one_by_one i o w r :
  path (digit_char_processor data) i o w r <->
  exists k v, convertible_key data k /\ In (k, v) (char_words data)
              /\ i = k ++ r /\ o = u " " ++ v /\ w = 0%Z.
Proof.
  unfold digit_char_processor, insert_space. rewrite path_add_weight. split.
  - intros (w' & H & ->). apply path_concat in H.
    destruct H as (o1 & w1 & r1 & o2 & w2 & H1 & H2 & -> & ->).
    apply path_insert in H1. destruct H1 as (-> & -> & ->).
    apply path_compose in H2. destruct H2 as (k & wa & wb & Ha & Hb & ->).
    apply path_convertible_char in Ha. destruct Ha as (k' & Hk & -> & -> & ->).
    apply path_char_to_word in Hb. destruct Hb as (k & Hin & E & ->).
    rewrite app_nil_r in E. subst k. exists k', o2. repeat split; assumption.
  - intros (k & v & Hk & Hin & -> & -> & ->). exists 0%Z. split; [|reflexivity].
    apply path_concat. exists (u " "), 0%Z, (k ++ r), v, 0%Z. repeat split.
    + apply path_insert_intro.
    + apply path_compose. exists k, 0%Z, 0%Z. repeat split.
      * apply path_convertible_char. exists k. auto.
      * apply path_char_to_word. exists k. rewrite app_nil_r. auto.
Qed.

(** X15: the comma processor reads any run of white space, none
    included, and a comma, and writes the comma alone, with no weight. *)
Theorem X15_white_space_before_a_comma_is_deleted i o w r :
  path comma_processor i o w r <->
  exists ws, white ws /\ i = ws ++ u "," ++ r /\ o = u "," /\ w = 0%Z.
Proof.
  unfold comma_processor. rewrite path_add_weight. split.
  - intros (w' & H & ->). apply path_concat in H.
    destruct H as (o1 & w1 & r1 & o2 & w2 & H1 & H2 & -> & ->).
    apply path_delete_space in H1. destruct H1 as (-> & -> & ws & -> & Hws).
    apply path_accep in H2. destruct H2 as (-> & -> & ->).
    exists ws. repeat split. exact Hws.
  - intros (ws & Hws & -> & -> & ->). exists 0%Z. split; [|reflexivity].
    apply path_concat. exists [], 0%Z, (u "," ++ r), (u ","), 0%Z. repeat split.
    + apply path_delete_white. exact Hws.
    + apply (path_accep_intro COMMA).
Qed.

(** X16: white space between a number and its unit is deleted: when the
    cardinal graph reads the numeral in front of the white space and the
    unit, the tagger has the path that writes the tag of the number and the
    unit, with nothing of the white space in it, and weighs 0.1 more than the
    cardinal. *)
Theorem X16_white_space_before_the_unit_is_deleted sg d ws k v oc wc :
  sign sg -> white ws -> k <> u "yr" -> In (k, v) (measure_unit data) ->
  path (cardinal_graph cardinal) (d ++ ws ++ k) oc wc (ws ++ k) ->
  path tagger (sg ++ d ++ ws ++ k) (cardinal_tag sg oc v) (wc + 1000)%Z [].
Proof.
  intros Hs Hws Hyr Hin Hn.
  apply path_graph_alternative with (t := graph_cardinal data cardinal).
  - unfold alternatives. simpl. tauto.
  - unfold graph_cardinal, unit_, cardinal_with, wrap_units.
    pose proof (@path_optional_sign sg (d ++ ws ++ k) Hs) as Hneg.
    pose proof (@path_delete_white ws k Hws) as Hds.
    assert (Hu : path (unit_graph_no_year data) k v 0%Z []).
    { apply path_unit_graph_no_year. exists k. rewrite app_nil_r. auto. }
    eapply path_conv; [build| |].
    + unfold cardinal_tag. reflexivity.
    + lia.
Qed.

(** X17: the window of the contextual address grammar is bounded: when
    every keyword is one word, an input that the grammar reads to the end has
    eleven words at most, five on each side of the keyword. *)
Theorem X17_contextual_window_is_bounded s o w :
  (forall k v, In (k, v) (address_context data) -> (word_count k <= 1)%nat) ->
  reads (en_to_hi_map data input_case) (fun p => (word_count p <= 1)%nat) ->
  path (get_address_graph data ordinal input_case) s o w [] ->
  (word_count s <= 11)%nat.
Proof.
  intros Hhi Hen H.
  assert (Hk : reads (address_keywords data input_case) (fun p => (word_count p <= 1)%nat)).
  { unfold address_keywords. apply reads_union.
    - unfold address_keywords_hi. apply reads_string_map. exact Hhi.
    - unfold address_keywords_en. apply reads_project_input. exact Hen. }
  assert (Hbw : reads (boundary :+ window) (fun p => (word_count p <= 5)%nat)).
  { apply reads_concat with (Ra := fun p => (word_count p <= 0)%nat)
                            (Rb := fun p => (word_count p <= 5)%nat);
      [exact reads_boundary_count | exact reads_window|].
    intros p q Hp Hq. pose proof (word_count_app p q). lia. }
  assert (Hp : reads (input_pattern data input_case) (fun p => (word_count p <= 11)%nat)).
  { unfold input_pattern, optimize. apply reads_union.
    - apply reads_concat with (Ra := fun p => (word_count p <= 1)%nat)
                              (Rb := fun p => (word_count p <= 5)%nat);
        [exact Hk | exact Hbw|].
      intros p q Hp Hq. pose proof (word_count_app p q). lia.
    - apply reads_concat with (Ra := fun p => (word_count p <= 5)%nat)
                              (Rb := fun p => (word_count p <= 6)%nat);
        [exact reads_window| |intros p q Hp Hq; pose proof (word_count_app p q); lia].
      apply reads_concat with (Ra := fun p => (word_count p <= 0)%nat)
                              (Rb := fun p => (word_count p <= 6)%nat);
        [exact reads_boundary_count| |intros p q Hp Hq; pose proof (word_count_app p q); lia].
      apply reads_concat with (Ra := fun p => (word_count p <= 1)%nat)
                              (Rb := fun p => (word_count p <= 1 * 5)%nat);
        [exact Hk| |intros p q Hp Hq; pose proof (word_count_app p q); lia].
      apply reads_counted_range. exact Hbw. }
  assert (Hg : reads (get_address_graph data ordinal input_case)
                     (fun p => (word_count p <= 11)%nat)).
  { unfold get_address_graph, address_graph, optimize. apply reads_add_weight.
    apply reads_concat with (Ra := fun p => p = []) (Rb := fun p => (word_count p <= 11)%nat);
      [apply reads_insert; reflexivity| |intros p q -> Hq; exact Hq].
    apply reads_concat with (Ra := fun p => (word_count p <= 11)%nat) (Rb := fun p => p = []);
      [apply reads_compose; exact Hp | apply reads_insert; reflexivity|].
    intros p q Hh ->. rewrite app_nil_r. exact Hh. }
  exact (@reads_full _ _ _ _ _ Hg H).
Qed.

End Tagger.

Lemma X7_decimals_need_the_ascii_period_witness :
  reads (cardinal_graph Sample.cardinal) numeral /\
  wf (Decimal.graph_fractional Sample.decimal) /\
  ~ In 46%N (u "१२kg") /\
  In (graph_decimal Sample.data Sample.cardinal Sample.decimal)
     (point_alternatives Sample.data Sample.cardinal Sample.decimal) /\
  ~ path (graph_decimal Sample.data Sample.cardinal Sample.decimal) (u "१२kg") [] 0%Z [].
Proof.
  assert (H1 : ~ In 46%N (u "१२kg"))
    by (vm_compute; intros H; repeat (destruct H as [H|H]; [discriminate H|]); exact H).
  assert (H2 : In (graph_decimal Sample.data Sample.cardinal Sample.decimal)
                  (point_alternatives Sample.data Sample.cardinal Sample.decimal))
    by (left; reflexivity).
  split; [exact SampleFacts.sample_cardinal_reads|].
  split; [exact (fractional_wf SampleFacts.sample_collaborators)|].
  split; [exact H1|]. split; [exact H2|].
  exact (@X7_decimals_need_the_ascii_period Sample.data Sample.cardinal Sample.decimal
           (u "१२kg") _ [] 0%Z SampleFacts.sample_cardinal_reads
           (fractional_wf SampleFacts.sample_collaborators) H1 H2).
Defined.

Lemma sample_unit_word_kg : unit_word (u "kg").
Proof. split; [discriminate | repeat constructor]. Qed.

Lemma sample_numeral_12 : numeral (u "१२").
Proof. split; [discriminate | repeat constructor]. Qed.

Lemma X9_unit_inputs_have_cardinal_readings_only_witness :
  collaborators Sample.data Sample.cardinal Sample.decimal INPUT_LOWER_CASED /\
  sign (u "-") /\ numeral (u "१२") /\ unit_word (u "kg") /\
  path Sample.measure_graph (u "-" ++ u "१२" ++ u "kg")
       (cardinal_tag (u "-") (u "बारह") (u "किलोग्राम")) 0%Z [] /\
  ((exists oc wc v,
       path (cardinal_graph Sample.cardinal) (u "१२" ++ u "kg") oc wc (u "kg") /\
       In (u "kg", v) (measure_unit Sample.data) /\ u "kg" <> u "yr" /\
       cardinal_tag (u "-") (u "बारह") (u "किलोग्राम") = cardinal_tag (u "-") oc v
       /\ 0%Z = (wc + 1000)%Z) \/
   (exists oc wc v,
       path (cardinal_large Sample.cardinal) (u "१२" ++ u "kg") oc wc (u "kg") /\
       In (u "kg", v) (measure_unit_year_formal Sample.data) /\
       cardinal_tag (u "-") (u "बारह") (u "किलोग्राम") = cardinal_tag (u "-") oc v
       /\ 0%Z = (wc + 1000)%Z) \/
   (exists oc wc,
       path (cardinal_small Sample.cardinal) (u "१२" ++ u "kg") oc wc (u "kg") /\
       u "kg" = u "yr" /\
       cardinal_tag (u "-") (u "बारह") (u "किलोग्राम") = cardinal_tag (u "-") oc (u "साल")
       /\ 0%Z = (wc - 1000)%Z)).
Proof.
  assert (Hs : sign (u "-")) by (right; reflexivity).
  assert (Hp : path Sample.measure_graph (u "-" ++ u "१२" ++ u "kg")
                    (cardinal_tag (u "-") (u "बारह") (u "किलोग्राम")) 0%Z [])
    by (apply path_found; vm_compute; reflexivity).
  split; [exact SampleFacts.sample_collaborators|].
  split; [exact Hs|]. split; [exact sample_numeral_12|]. split; [exact sample_unit_word_kg|].
  split; [exact Hp|].
  exact (@X9_unit_inputs_have_cardinal_readings_only Sample.data Sample.cardinal
           Sample.decimal Sample.ordinal INPUT_LOWER_CASED (u "-") (u "१२") (u "kg") _ _
           SampleFacts.sample_collaborators Hs sample_numeral_12 sample_unit_word_kg Hp).
Defined.

Lemma X10_inputs_hold_a_digit_a_boundary_or_a_place_witness :
  collaborators Sample.data Sample.cardinal Sample.decimal INPUT_LOWER_CASED /\
  path Sample.measure_graph (u "गोवा") (address_tag (u "गोवा")) 10000%Z [] /\
  ((exists c, In c (u "गोवा") /\ is_any_digit c = true)
   \/ somewhere is_boundary (u "गोवा") \/ gazetteer_key Sample.data (u "गोवा"))
  /\ (u "गोवा" = [] -> gazetteer_key Sample.data []).
Proof.
  assert (Hp : path Sample.measure_graph (u "गोवा") (address_tag (u "गोवा")) 10000%Z [])
    by (apply path_found; vm_compute; reflexivity).
  split; [exact SampleFacts.sample_collaborators|]. split; [exact Hp|].
  exact (@X10_inputs_hold_a_digit_a_boundary_or_a_place Sample.data Sample.cardinal
           Sample.decimal Sample.ordinal INPUT_LOWER_CASED (u "गोवा") _ _
           SampleFacts.sample_collaborators Hp).
Defined.

Lemma sample_english_keywords :
  reads (en_to_hi_map Sample.data INPUT_LOWER_CASED)
        (fun k => exists v, In (k, v) (address_en_to_hi_mapping Sample.data)).
Proof.
  change (en_to_hi_map Sample.data INPUT_LOWER_CASED)
    with (string_map (address_en_to_hi_mapping Sample.data)).
  apply reads_string_map. intros k v H. exists v. exact H.
Qed.

Lemma X11_contextual_address_needs_a_keyword_witness :
  reads (en_to_hi_map Sample.data INPUT_LOWER_CASED)
        (fun k => exists v, In (k, v) (address_en_to_hi_mapping Sample.data)) /\
  path (get_address_graph Sample.data Sample.ordinal INPUT_LOWER_CASED) (u "ओक road")
       (address_tag (u " ओक  रोड")) (-18500)%Z [] /\
  holds (address_keyword Sample.data
           (fun k => exists v, In (k, v) (address_en_to_hi_mapping Sample.data)))
        (u "ओक road").
Proof.
  assert (Hp : path (get_address_graph Sample.data Sample.ordinal INPUT_LOWER_CASED)
                    (u "ओक road") (address_tag (u " ओक  रोड")) (-18500)%Z [])
    by (apply path_found; vm_compute; reflexivity).
  split; [exact sample_english_keywords|]. split; [exact Hp|].
  exact (@X11_contextual_address_needs_a_keyword Sample.data Sample.ordinal
           INPUT_LOWER_CASED _ (u "ओक road") _ _ sample_english_keywords Hp).
Defined.

Lemma sample_spoken_tables : Forall digit_free_values (spoken_tables Sample.data).
Proof.
  unfold spoken_tables.
  repeat (constructor; [apply digit_free_values_by_evaluation; vm_compute; reflexivity|]).
  constructor.
Qed.

Lemma sample_ordinal_writes : writes (Ordinal.graph Sample.ordinal) digit_free.
Proof.
  unfold Sample.ordinal. cbn [Ordinal.graph]. apply writes_string_map.
  apply digit_free_values_by_evaluation. vm_compute. reflexivity.
Qed.

Lemma sample_english_writes : writes (en_to_hi_map Sample.data INPUT_LOWER_CASED) digit_free.
Proof.
  change (en_to_hi_map Sample.data INPUT_LOWER_CASED)
    with (string_map (address_en_to_hi_mapping Sample.data)).
  apply writes_string_map. apply digit_free_values_by_evaluation. vm_compute. reflexivity.
Qed.

Lemma X12_address_tags_hold_no_digit_witness :
  Forall digit_free_values (spoken_tables Sample.data) /\
  writes (Ordinal.graph Sample.ordinal) digit_free /\
  writes (en_to_hi_map Sample.data INPUT_LOWER_CASED) digit_free /\
  (path (get_address_graph Sample.data Sample.ordinal INPUT_LOWER_CASED) (u "मुंबई ८८४४०४")
        (address_tag (u "मुंबई आठ आठ चार चार शून्य चार")) 10000%Z []
   \/ path (get_structured_address_graph Sample.data) (u "मुंबई ८८४४०४")
           (address_tag (u "मुंबई आठ आठ चार चार शून्य चार")) 10000%Z []) /\
  digit_free (address_tag (u "मुंबई आठ आठ चार चार शून्य चार")).
Proof.
  assert (Hp : path (get_address_graph Sample.data Sample.ordinal INPUT_LOWER_CASED)
                    (u "मुंबई ८८४४०४")
                    (address_tag (u "मुंबई आठ आठ चार चार शून्य चार")) 10000%Z []
               \/ path (get_structured_address_graph Sample.data) (u "मुंबई ८८४४०४")
                       (address_tag (u "मुंबई आठ आठ चार चार शून्य चार")) 10000%Z [])
    by (right; apply path_found; vm_compute; reflexivity).
  split; [exact sample_spoken_tables|]. split; [exact sample_ordinal_writes|].
  split; [exact sample_english_writes|]. split; [exact Hp|].
  exact (@X12_address_tags_hold_no_digit Sample.data Sample.ordinal INPUT_LOWER_CASED
           (u "मुंबई ८८४४०४") _ _ [] sample_spoken_tables sample_ordinal_writes
           sample_english_writes Hp).
Defined.

Lemma X13_product_inputs_have_the_product_reading_only_witness :
  collaborators Sample.data Sample.cardinal Sample.decimal INPUT_LOWER_CASED /\
  numeral (u "२") /\ symbol (u "x") /\ numeral (u "३") /\
  path Sample.measure_graph (u "२" ++ u "x" ++ u "३")
       (product_tag (u "दो") (u "तीन")) 1000%Z [] /\
  exists o1 w1 o2 w2,
    path (cardinal_graph Sample.cardinal) (u "२" ++ u "x" ++ u "३") o1 w1 (u "x" ++ u "३") /\
    path (cardinal_graph Sample.cardinal) (u "३") o2 w2 [] /\
    product_tag (u "दो") (u "तीन") = product_tag o1 o2 /\ 1000%Z = (w1 + w2 + 1000)%Z.
Proof.
  assert (H1 : numeral (u "२")) by (split; [discriminate | repeat constructor]).
  assert (H2 : numeral (u "३")) by (split; [discriminate | repeat constructor]).
  assert (Hs : symbol (u "x")) by (left; reflexivity).
  assert (Hp : path Sample.measure_graph (u "२" ++ u "x" ++ u "३")
                    (product_tag (u "दो") (u "तीन")) 1000%Z [])
    by (apply path_found; vm_compute; reflexivity).
  split; [exact SampleFacts.sample_collaborators|].
  split; [exact H1|]. split; [exact Hs|]. split; [exact H2|]. split; [exact Hp|].
  exact (@X13_product_inputs_have_the_product_reading_only Sample.data Sample.cardinal
           Sample.decimal Sample.ordinal INPUT_LOWER_CASED (u "२") (u "x") (u "३") _ _
           SampleFacts.sample_collaborators H1 Hs H2 Hp).
Defined.

Lemma X16_white_space_before_the_unit_is_deleted_witness :
  sign (u "-") /\ white (u " ") /\ u "kg" <> u "yr" /\
  In (u "kg", u "किलोग्राम") (measure_unit Sample.data) /\
  path (cardinal_graph Sample.cardinal) (u "१२" ++ u " " ++ u "kg") (u "बारह") (-1000)%Z
       (u " " ++ u "kg") /\
  path Sample.measure_graph (u "-" ++ u "१२" ++ u " " ++ u "kg")
       (cardinal_tag (u "-") (u "बारह") (u "किलोग्राम")) (-1000 + 1000)%Z [].
Proof.
  assert (Hs : sign (u "-")) by (right; reflexivity).
  assert (Hw : white (u " ")) by (repeat constructor).
  assert (Hy : u "kg" <> u "yr") by discriminate.
  assert (Hi : In (u "kg", u "किलोग्राम") (measure_unit Sample.data))
    by (left; reflexivity).
  assert (Hn : path (cardinal_graph Sample.cardinal) (u "१२" ++ u " " ++ u "kg") (u "बारह")
                    (-1000)%Z (u " " ++ u "kg"))
    by (vm_compute; tauto).
  split; [exact Hs|]. split; [exact Hw|]. split; [exact Hy|]. split; [exact Hi|].
  split; [exact Hn|].
  exact (@X16_white_space_before_the_unit_is_deleted Sample.data Sample.cardinal
           Sample.decimal Sample.ordinal INPUT_LOWER_CASED (u "-") (u "१२") (u " ") (u "kg")
           (u "किलोग्राम") (u "बारह") (-1000)%Z Hs Hw Hy Hi Hn).
Defined.

Lemma sample_keywords_one_word :
  forall k v, In (k, v) (address_context Sample.data) -> (word_count k <= 1)%nat.
Proof.
  intros k v H. vm_compute in H.
  repeat (destruct H as [H|H]; [injection H as <- _; vm_compute; lia|]). contradiction.
Qed.

Lemma sample_english_one_word :
  reads (en_to_hi_map Sample.data INPUT_LOWER_CASED) (fun p => (word_count p <= 1)%nat).
Proof.
  change (en_to_hi_map Sample.data INPUT_LOWER_CASED)
    with (string_map (address_en_to_hi_mapping Sample.data)).
  apply reads_string_map. intros k v H. vm_compute in H.
  repeat (destruct H as [H|H]; [injection H as <- _; vm_compute; lia|]). contradiction.
Qed.

Lemma X17_contextual_window_is_bounded_witness :
  (forall k v, In (k, v) (address_context Sample.data) -> (word_count k <= 1)%nat) /\
  reads (en_to_hi_map Sample.data INPUT_LOWER_CASED) (fun p => (word_count p <= 1)%nat) /\
  path (get_address_graph Sample.data Sample.ordinal INPUT_LOWER_CASED) (u "ओक road")
       (address_tag (u " ओक  रोड")) (-18500)%Z [] /\
  (word_count (u "ओक road") <= 11)%nat.
Proof.
  assert (Hp : path (get_address_graph Sample.data Sample.ordinal INPUT_LOWER_CASED)
                    (u "ओक road") (address_tag (u " ओक  रोड")) (-18500)%Z [])
    by (apply path_found; vm_compute; reflexivity).
  split; [exact sample_keywords_one_word|]. split; [exact sample_english_one_word|].
  split; [exact Hp|].
  exact (@X17_contextual_window_is_bounded Sample.data Sample.ordinal INPUT_LOWER_CASED
           (u "ओक road") _ _ sample_keywords_one_word sample_english_one_word Hp).
Defined.

End MeasureProperties.
